(** * List versus vector: a shallow embedding of [lvv.h] / [lvv.cpp]

    The development follows the sources of the benchmark harness:

    - [utils::insert_in_numerical_order] (both overloads), the adaptors
      [VectorAdaptor] and [ListAdaptor] and the interface [IntegerSequence]
      of [lvv.h];
    - [test_n_core_], [test_n_], [test_n], [test_block], [lvv_parse_args]
      and [main] of [lvv.cpp];
    - [test] of the earlier, sequential [ListVsVector.cpp].

    Conventions.  An [int] is a [Z] (only comparisons are performed on the
    stored values, so no wrap-around can occur there); a [size_t] is an [N]
    and the one place where the source relies on unsigned wrap-around (the
    countdown of [test_n_]) writes it out.  A [std::vector<int>] is a
    [list Z] addressed by index, a [std::list<int>] is a [list Z] traversed
    with a cursor.  Undefined behaviour, failed assertions and uncaught
    exceptions are explicit results. *)

From Stdlib Require Import String Ascii.
From Stdlib Require Import List ZArith NArith Lia Bool.
From Stdlib Require Import Sorted Permutation.
Import ListNotations.

(** ** Results of fallible code *)

Inductive exception : Type :=
| invalid_argument            (* std::invalid_argument, thrown by stoi *)
| out_of_range                (* std::out_of_range, thrown by stoi, at() *)
| future_error.               (* std::future_error: broken promise *)

Inductive failure : Type :=
| AssertionFailed             (* assert(e) with e false, checked build *)
| UndefinedBehaviour          (* erase/increment of end(), division by 0 *)
| Uncaught (e : exception)    (* exception leaving main: std::terminate *)
| OutOfFuel.                  (* the model's loop bound was too small *)

Inductive outcome (A : Type) : Type :=
| Done (a : A)
| Crash (f : failure).

Arguments Done {A} a.
Arguments Crash {A} f.

Definition obind {A B : Type} (m : outcome A) (k : A -> outcome B)
  : outcome B :=
  match m with
  | Done a => k a
  | Crash f => Crash f
  end.

Notation "x <-! m ;; k" := (obind m (fun x => k))
  (at level 61, m at next level, right associativity).

Definition assert (b : bool) : outcome unit :=
  if b then Done tt else Crash AssertionFailed.

(** ** [size_t] *)

Definition SIZE_MAX : N := 2 ^ 64 - 1.

(** [x - 1] on a [size_t]: wraps from [0] to [SIZE_MAX]. *)
Definition size_t_pred (x : N) : N := ((x + SIZE_MAX) mod (2 ^ 64))%N.

(** ** The platform

    What the harness takes from the standard library and the operating
    system: the Mersenne-Twister engine with [std::uniform_int_distribution],
    [std::random_device], the clock and the thread scheduler.  The integer
    universe [INT_SET] is built once, before [main], from a file or from the
    engine; it is listed in its iteration order. *)

(** The two [jthread]s of [test_n]. *)
Inductive thread : Type := vec_thread | list_thread.

Definition thread_eqb (a b : thread) : bool :=
  match a, b with
  | vec_thread, vec_thread | list_thread, list_thread => true
  | _, _ => false
  end.

Record platform : Type := {
  engine : Type;                                   (* std::mt19937 *)
  engine_seed : Z -> engine;                       (* gen.seed(x) *)
  engine_uniform : Z -> Z -> engine -> Z * engine; (* dist(min,max)(gen) *)
  random_device : nat -> Z;          (* k-th value of random_device{}() *)
  clock_now : nat -> Z;              (* k-th reading of the clock, in ns *)
  schedule : N -> list thread;       (* who moves next, in test_n(i) *)
  INT_SET : list Z
}.

(** The contract of [std::uniform_int_distribution<>(min, max)]. *)
Definition uniform_in_range (P : platform) : Prop :=
  forall (lo hi : Z) (g : engine P),
    (lo <= hi)%Z -> (lo <= fst (engine_uniform P lo hi g) <= hi)%Z.

(** [std::unordered_set<int>] holds no value twice. *)
Definition universe_distinct (P : platform) : Prop := NoDup (INT_SET P).

(** ** Programs

    The statements of the harness that act on the process-wide generator
    [gen], the clock, the sequence under test or the promise are the
    actions of a small program type; the same program is then run alone
    or interleaved with another worker. *)

Inductive action : Type -> Type :=
| GenSeed : action unit                 (* gen.seed(random_device{}()) *)
| GenDraw (lo hi : Z) : action Z        (* uniform_int_distribution(lo,hi)(gen) *)
| ClockNow : action Z                   (* high_resolution_clock::now() *)
| SeqInsertNumerical (n : Z) : action unit    (* seq.insert_numerical(n) *)
| SeqRemove (i : N) : action unit             (* seq.remove(i) *)
| SeqEmpty : action bool                      (* seq.empty() *)
| SeqSize : action N                          (* seq.size() *)
| PromiseSetValue (r : Z) : action unit       (* promise.set_value(r) *)
| Enter (fn : string) : action unit.          (* control enters function fn *)

Inductive prog (A : Type) : Type :=
| Ret (a : A)
| Abort (f : failure)
| Vis (X : Type) (a : action X) (k : X -> prog A).

Arguments Ret {A} a.
Arguments Abort {A} f.
Arguments Vis {A X} a k.

Fixpoint bind {A B : Type} (p : prog A) (f : A -> prog B) : prog B :=
  match p with
  | Ret a => f a
  | Abort e => Abort e
  | Vis a k => Vis a (fun x => bind (k x) f)
  end.

Notation "x <- p ;; q" := (bind p (fun x => q))
  (at level 61, p at next level, right associativity).
Notation "p ;; q" := (bind p (fun _ => q))
  (at level 61, right associativity).

Definition act {X : Type} (a : action X) : prog X := Vis a Ret.

Definition lift {A : Type} (m : outcome A) : prog A :=
  match m with
  | Done a => Ret a
  | Crash f => Abort f
  end.

(** [for(x : xs) body(x);] *)
Fixpoint for_each {X : Type} (xs : list X) (body : X -> prog unit)
  : prog unit :=
  match xs with
  | [] => Ret tt
  | x :: xs' => body x ;; for_each xs' body
  end.

(** ** [std::unordered_set<int>]

    A list that holds no value twice.  The iteration order of the real
    container is unspecified; the model lists the values in the order of
    their first insertion, and nothing proved below depends on that order. *)

(** [s.insert(x)] *)
Definition set_insert (x : Z) (s : list Z) : list Z :=
  if existsb (Z.eqb x) s then s else s ++ [x].

(** ** [namespace utils]: random sets and ordered insertion *)

Module utils.

(** [utils::random_int(min, max)] *)
Definition random_int (min max : Z) : prog Z := act (GenDraw min max).

(** Modelled from the spec: [utils::random_size_t], which [test_n_] calls
    and [lvv.h] does not define.  After [utils::random_int] and the Removal
    Plan Generator of the specification: a draw from [[min, max]] on the
    process-wide generator. *)
Definition random_size_t (min max : N) : prog N :=
  r <- act (GenDraw (Z.of_N min) (Z.of_N max)) ;; Ret (Z.to_N r).

(** [while(s.size() < n) { s.insert(random_int(min, max)); }]; nothing in
    the source bounds the number of draws, [fuel] bounds it in the model. *)
Fixpoint generate_loop (fuel : nat) (n : N) (min max : Z) (s : list Z)
  : prog (list Z) :=
  match fuel with
  | O => Abort OutOfFuel
  | S fuel' =>
      if (N.of_nat (length s) <? n)%N then
        r <- random_int min max ;;
        generate_loop fuel' n min max (set_insert r s)
      else Ret s
  end.

(** [std::unordered_set<int> generate_n_random_ints(size_t n, int min,
                                                    int max)] *)
Definition generate_n_random_ints (fuel : nat) (n : N) (min max : Z)
  : prog (list Z) :=
  generate_loop fuel n min max [].

(** *** [std::vector<int>]: iterators are indices. *)

(** [while(it != v.end() && *it < n) { ++it; }] started at index [it];
    [dist] bounds the number of increments by the distance to [v.end()]. *)
Fixpoint vector_scan (v : list Z) (n : Z) (dist : nat) (it : nat) : nat :=
  match dist with
  | O => it
  | S dist' =>
      match nth_error v it with
      | None => it                               (* it == v.end() *)
      | Some x => if (x <? n)%Z then vector_scan v n dist' (S it) else it
      end
  end.

(** [v.insert(it, n)] *)
Definition vector_insert (v : list Z) (it : nat) (n : Z) : list Z :=
  firstn it v ++ n :: skipn it v.

(** [v.erase(it)]; erasing [v.end()] or beyond is undefined. *)
Definition vector_erase (v : list Z) (it : nat) : outcome (list Z) :=
  if (it <? length v)%nat
  then Done (firstn it v ++ skipn (S it) v)
  else Crash UndefinedBehaviour.

Definition insert_in_numerical_order_vector (v : list Z) (n : Z) : list Z :=
  match v with
  | [] => v ++ [n]                               (* v.push_back(n) *)
  | _ => let it := vector_scan v n (length v) 0 in
         vector_insert v it n
  end.

(** *** [std::list<int>]: an iterator is a cursor, the nodes already
    passed (nearest first) and the nodes from the iterator on. *)

Definition cursor : Type := (list Z * list Z)%type.

Definition list_begin (l : list Z) : cursor := ([], l).

(** [++it]; incrementing [l.end()] is undefined. *)
Definition cursor_next (it : cursor) : outcome cursor :=
  match it with
  | (passed, x :: rest) => Done (x :: passed, rest)
  | (_, []) => Crash UndefinedBehaviour
  end.

(** [while(it != l.end() && *it < n) { ++it; }] *)
Fixpoint list_scan (n : Z) (passed rest : list Z) : cursor :=
  match rest with
  | [] => (passed, [])                           (* it == l.end() *)
  | x :: rest' =>
      if (x <? n)%Z then list_scan n (x :: passed) rest' else (passed, rest)
  end.

(** [l.insert(it, n)] *)
Definition list_insert (it : cursor) (n : Z) : list Z :=
  rev (fst it) ++ n :: snd it.

(** [l.erase(it)]; erasing [l.end()] is undefined. *)
Definition list_erase (it : cursor) : outcome (list Z) :=
  match it with
  | (passed, _ :: rest) => Done (rev passed ++ rest)
  | (_, []) => Crash UndefinedBehaviour
  end.

Definition insert_in_numerical_order_list (l : list Z) (n : Z) : list Z :=
  match l with
  | [] => l ++ [n]                               (* l.push_back(n) *)
  | _ => let it := list_scan n [] l in
         list_insert it n
  end.

End utils.

(** ** [class IntegerSequence] and its two adaptors *)

Class IntegerSequence (S : Type) : Type := {
  insert_numerical : Z -> S -> S;
  push_back : Z -> S -> S;
  push_front : Z -> S -> S;
  remove : N -> S -> outcome S;
  size : S -> N;
  empty : S -> bool;
  (** the adapted container in iteration order, [begin()] to [end()] *)
  elements : S -> list Z
}.

Module VectorAdaptor.

Record t : Type := Build { v : list Z }.

(** [VectorAdaptor() = default] *)
Definition default : t := Build [].

Definition insert_numerical (n : Z) (s : t) : t :=
  Build (utils.insert_in_numerical_order_vector (v s) n).

Definition push_back (n : Z) (s : t) : t := Build (v s ++ [n]).

(** [v.insert(v.begin(), n)] *)
Definition push_front (n : Z) (s : t) : t :=
  Build (utils.vector_insert (v s) 0 n).

(** [v.erase(v.begin() + i)] *)
Definition remove (i : N) (s : t) : outcome t :=
  v' <-! utils.vector_erase (v s) (0 + N.to_nat i) ;; Done (Build v').

Definition size (s : t) : N := N.of_nat (length (v s)).

Definition empty (s : t) : bool :=
  match v s with [] => true | _ => false end.

End VectorAdaptor.

Module ListAdaptor.

Record t : Type := Build { l : list Z }.

(** [ListAdaptor() = default] *)
Definition default : t := Build [].

Definition insert_numerical (n : Z) (s : t) : t :=
  Build (utils.insert_in_numerical_order_list (l s) n).

Definition push_back (n : Z) (s : t) : t := Build (l s ++ [n]).

Definition push_front (n : Z) (s : t) : t := Build (n :: l s).

(** [for(size_t j = 0; j < i; ++j) { ++it; }] *)
Fixpoint advance (steps : nat) (it : utils.cursor) : outcome utils.cursor :=
  match steps with
  | O => Done it
  | S steps' => it' <-! utils.cursor_next it ;; advance steps' it'
  end.

Definition remove (i : N) (s : t) : outcome t :=
  it <-! advance (N.to_nat i) (utils.list_begin (l s)) ;;
  l' <-! utils.list_erase it ;;
  Done (Build l').

Definition size (s : t) : N := N.of_nat (length (l s)).

Definition empty (s : t) : bool :=
  match l s with [] => true | _ => false end.

End ListAdaptor.

#[export] Instance VectorAdaptor_IntegerSequence
  : IntegerSequence VectorAdaptor.t := {
  insert_numerical := VectorAdaptor.insert_numerical;
  push_back := VectorAdaptor.push_back;
  push_front := VectorAdaptor.push_front;
  remove := VectorAdaptor.remove;
  size := VectorAdaptor.size;
  empty := VectorAdaptor.empty;
  elements := VectorAdaptor.v
}.

#[export] Instance ListAdaptor_IntegerSequence
  : IntegerSequence ListAdaptor.t := {
  insert_numerical := ListAdaptor.insert_numerical;
  push_back := ListAdaptor.push_back;
  push_front := ListAdaptor.push_front;
  remove := ListAdaptor.remove;
  size := ListAdaptor.size;
  empty := ListAdaptor.empty;
  elements := ListAdaptor.l
}.

(** [IntegerSequence::fill_numerically] *)
Definition fill_numerically {S : Type} `{IntegerSequence S}
  (seq : S) (s : list Z) (num_vals : N) : outcome S :=
  _ <-! assert (num_vals <=? N.of_nat (length s))%N ;;
  Done (fold_left (fun q x => insert_numerical x q)
                  (firstn (N.to_nat num_vals) s) seq).


(** ** Running a program *)

(** What the two workers of [test_n] share, and what each owns. *)
Record shared (P : platform) : Type := {
  gen : engine P;               (* std::mt19937 gen, lvv.h *)
  rd_calls : nat;               (* values taken from random_device so far *)
  now_calls : nat               (* readings of the clock so far *)
}.

Record worker (S : Type) : Type := {
  seq : S;                      (* IntegerSequence& seq *)
  promise : option Z            (* promise<chrono::nanoseconds> *)
}.

Arguments gen {P} s.
Arguments rd_calls {P} s.
Arguments now_calls {P} s.
Arguments seq {S} w.
Arguments promise {S} w.

Inductive event : Type :=
| EvSeed (s : Z)
| EvDraw (lo hi r : Z)
| EvNow (t : Z)
| EvInsert (n : Z) (after : list Z)     (* contents once n is inserted *)
| EvRemove (i : N) (after : list Z)     (* contents once index i is gone *)
| EvEmpty (b : bool)
| EvSize (n : N)
| EvSetValue (r : Z)
| EvEnter (fn : string).

Section Perform.

Variable P : platform.
Context {S : Type} `{IntegerSequence S}.

Definition perform {X : Type} (a : action X) (sh : shared P) (me : worker S)
  : outcome (X * event * shared P * worker S) :=
  match a in action X return outcome (X * event * shared P * worker S) with
  | GenSeed =>
      let s := random_device P (rd_calls sh) in
      Done (tt, EvSeed s,
            {| gen := engine_seed P s;
               rd_calls := Datatypes.S (rd_calls sh);
               now_calls := now_calls sh |}, me)
  | GenDraw lo hi =>
      if (hi <? lo)%Z then Crash UndefinedBehaviour
      else
        let (r, g) := engine_uniform P lo hi (gen sh) in
        Done (r, EvDraw lo hi r,
              {| gen := g; rd_calls := rd_calls sh;
                 now_calls := now_calls sh |}, me)
  | ClockNow =>
      let t := clock_now P (now_calls sh) in
      Done (t, EvNow t,
            {| gen := gen sh; rd_calls := rd_calls sh;
               now_calls := Datatypes.S (now_calls sh) |}, me)
  | SeqInsertNumerical n =>
      let q := insert_numerical n (seq me) in
      Done (tt, EvInsert n (elements q), sh,
            {| seq := q; promise := promise me |})
  | SeqRemove i =>
      q <-! remove i (seq me) ;;
      Done (tt, EvRemove i (elements q), sh,
            {| seq := q; promise := promise me |})
  | SeqEmpty => Done (empty (seq me), EvEmpty (empty (seq me)), sh, me)
  | SeqSize => Done (size (seq me), EvSize (size (seq me)), sh, me)
  | PromiseSetValue r =>
      Done (tt, EvSetValue r, sh, {| seq := seq me; promise := Some r |})
  | Enter fn => Done (tt, EvEnter fn, sh, me)
  end.

(** One worker running alone: the result, the final state and the events
    in the order they happened. *)
Fixpoint run {A : Type} (p : prog A) (sh : shared P) (me : worker S)
  : outcome A * shared P * worker S * list event :=
  match p with
  | Ret a => (Done a, sh, me, [])
  | Abort f => (Crash f, sh, me, [])
  | Vis a k =>
      match perform a sh me with
      | Crash f => (Crash f, sh, me, [])
      | Done (x, e, sh', me') =>
          let '(r, sh'', me'', es) := run (k x) sh' me' in
          (r, sh'', me'', e :: es)
      end
  end.

End Perform.

Arguments perform {P S _ X} a sh me.
Arguments run {P S _ A} p sh me.

(** Two workers on the one shared state; [sched] names the worker that
    performs the next action.  A worker that has returned leaves the
    processor to the other; when [sched] is used up the first worker runs to
    its end, then the second.  Any failure ends the process.

    [interleave] gives the trace of an execution whose steps do not
    overlap.  Nothing orders an action of one worker before an action of
    the other, so a trace in which both workers use [gen], which has no
    lock, is that of a data race: [run2] gives such an execution the
    undefined outcome. *)

(** [gen.seed(...)] and [dist(gen)]: the event modifies [gen]. *)
Definition uses_gen (e : event) : bool :=
  match e with
  | EvSeed _ | EvDraw _ _ _ => true
  | _ => false
  end.

Definition thread_uses_gen (t : thread) (es : list (thread * event))
  : bool :=
  existsb (fun te => thread_eqb (fst te) t && uses_gen (snd te)) es.

Definition data_race (es : list (thread * event)) : bool :=
  thread_uses_gen vec_thread es && thread_uses_gen list_thread es.

Section Interleave.

Variable P : platform.
Context {S1 S2 : Type} `{IntegerSequence S1} `{IntegerSequence S2}.

Definition tag (t : thread) (es : list event) : list (thread * event) :=
  map (pair t) es.

Definition finish_second {A B : Type} (a : A) (p2 : prog B)
  (sh : shared P) (w1 : worker S1) (w2 : worker S2)
  : outcome (A * B) * shared P * worker S1 * worker S2
    * list (thread * event) :=
  let '(r2, sh', w2', es) := run p2 sh w2 in
  (b <-! r2 ;; Done (a, b), sh', w1, w2', tag list_thread es).

Definition finish_first {A B : Type} (p1 : prog A) (b : B)
  (sh : shared P) (w1 : worker S1) (w2 : worker S2)
  : outcome (A * B) * shared P * worker S1 * worker S2
    * list (thread * event) :=
  let '(r1, sh', w1', es) := run p1 sh w1 in
  (a <-! r1 ;; Done (a, b), sh', w1', w2, tag vec_thread es).

Fixpoint interleave {A B : Type} (sched : list thread)
  (p1 : prog A) (p2 : prog B)
  (sh : shared P) (w1 : worker S1) (w2 : worker S2)
  : outcome (A * B) * shared P * worker S1 * worker S2
    * list (thread * event) :=
  match sched with
  | [] =>
      let '(r1, sh1, w1', es1) := run p1 sh w1 in
      match r1 with
      | Crash f => (Crash f, sh1, w1', w2, tag vec_thread es1)
      | Done a =>
          let '(r, sh2, w1'', w2', es2) := finish_second a p2 sh1 w1' w2 in
          (r, sh2, w1'', w2', tag vec_thread es1 ++ es2)
      end
  | vec_thread :: sched' =>
      match p1 with
      | Ret a => finish_second a p2 sh w1 w2
      | Abort f => (Crash f, sh, w1, w2, [])
      | Vis a k =>
          match perform a sh w1 with
          | Crash f => (Crash f, sh, w1, w2, [])
          | Done (x, e, sh', w1') =>
              let '(r, sh'', w1'', w2', es) :=
                interleave sched' (k x) p2 sh' w1' w2 in
              (r, sh'', w1'', w2', (vec_thread, e) :: es)
          end
      end
  | list_thread :: sched' =>
      match p2 with
      | Ret b => finish_first p1 b sh w1 w2
      | Abort f => (Crash f, sh, w1, w2, [])
      | Vis a k =>
          match perform a sh w2 with
          | Crash f => (Crash f, sh, w1, w2, [])
          | Done (x, e, sh', w2') =>
              let '(r, sh'', w1', w2'', es) :=
                interleave sched' p1 (k x) sh' w1 w2' in
              (r, sh'', w1', w2'', (list_thread, e) :: es)
          end
      end
  end.

(** The two [jthread]s of [test_n]. *)
Definition run2 {A B : Type} (sched : list thread)
  (p1 : prog A) (p2 : prog B)
  (sh : shared P) (w1 : worker S1) (w2 : worker S2)
  : outcome (A * B) * shared P * worker S1 * worker S2
    * list (thread * event) :=
  let '(r, sh', w1', w2', es) := interleave sched p1 p2 sh w1 w2 in
  (if data_race es then Crash UndefinedBehaviour else r, sh', w1', w2', es).

End Interleave.

Arguments interleave {P S1 S2 _ _ A B} sched p1 p2 sh w1 w2.
Arguments run2 {P S1 S2 _ _ A B} sched p1 p2 sh w1 w2.

(** ** [lvv.cpp] *)

Definition MAX_TESTS : Z := 1000000.
Definition DEFAULT_NUM_TESTS : Z := 10000.
Definition DEFAULT_RUNS_PER_TEST : N := 3.

Definition passert (b : bool) : prog unit := lift (assert b).

(** [void test_n_core_(IntegerSequence& seq,
                       const vector<size_t>& removal_indices)] *)
Definition test_n_core_ (P : platform) (removal_indices : list N)
  : prog unit :=
  act (Enter "test_n_core_") ;;
  let num_vals := N.of_nat (length removal_indices) in
  passert (num_vals <=? N.of_nat (length (INT_SET P)))%N ;;
  (* for(size_t i = 0; i < num_vals; i++) seq.insert_numerical( *itr++ ) *)
  for_each (firstn (N.to_nat num_vals) (INT_SET P))
           (fun x => act (SeqInsertNumerical x)) ;;
  (* for(size_t i: removal_indices) seq.remove(i) *)
  for_each removal_indices (fun i => act (SeqRemove i)).

(** [for (size_t back = ...; back < SIZE_MAX; back--)
       removal_indices.emplace_back(utils::random_size_t(0, back));]
    The countdown leaves the loop when [back--] wraps [0] around to
    [SIZE_MAX]; [fuel] bounds the iterations of the model. *)
Fixpoint countdown (fuel : nat) (back : N) (removal_indices : list N)
  : prog (list N) :=
  match fuel with
  | O => Abort OutOfFuel
  | Datatypes.S fuel' =>
      if (back <? SIZE_MAX)%N then
        r <- utils.random_size_t 0 back ;;
        countdown fuel' (size_t_pred back) (removal_indices ++ [r])
      else Ret removal_indices
  end.

(** Lines 167-170 of [test_n_]: [vector<size_t> removal_indices{num_vals}]
    is the list-initialisation of a vector, so the vector starts out
    holding the one element [num_vals]. *)
Definition make_removal_indices (num_vals : N) : prog (list N) :=
  let removal_indices := [num_vals] in
  countdown (Datatypes.S (N.to_nat num_vals)) (size_t_pred num_vals)
            removal_indices.

(** [v.at(i)] *)
Definition vector_at {X : Type} (v : list X) (i : N) : prog X :=
  match nth_error v (N.to_nat i) with
  | Some x => Ret x
  | None => Abort (Uncaught out_of_range)
  end.

Definition to_uint64 (z : Z) : Z := (z mod 2 ^ 64)%Z.
Definition to_int64 (z : Z) : Z :=
  let u := to_uint64 z in if (u <? 2 ^ 63)%Z then u else (u - 2 ^ 64)%Z.

(** [avg / num_runs] for [chrono::nanoseconds avg] and [size_t num_runs]:
    the common representation of [int64_t] and [size_t] is unsigned 64-bit,
    the quotient is taken there and converted back to [nanoseconds].
    Integer division by zero is undefined. *)
Definition duration_div (avg : Z) (num_runs : N) : outcome Z :=
  if (num_runs =? 0)%N then Crash UndefinedBehaviour
  else Done (to_int64 (to_uint64 avg / Z.of_N num_runs)).

(** The body of [for(size_t i = 0; i < num_runs; ++i)] in [test_n_],
    [todo] iterations from now; the nanosecond count [avg] is kept exact. *)
Fixpoint test_n_loop (P : platform) (num_vals : N) (todo : nat) (avg : Z)
  : prog Z :=
  match todo with
  | O => Ret avg
  | Datatypes.S todo' =>
      act GenSeed ;;
      removal_indices <- make_removal_indices num_vals ;;
      (* sanity check *)
      last <- vector_at removal_indices
                (size_t_pred (N.of_nat (length removal_indices))) ;;
      passert (last =? 0)%N ;;
      start <- act ClockNow ;;
      test_n_core_ P removal_indices ;;
      end_ <- act ClockNow ;;
      test_n_loop P num_vals todo' (avg + (end_ - start))
  end.

(** [chrono::nanoseconds test_n_(IntegerSequence& seq, size_t num_vals,
      promise<chrono::nanoseconds> promise, size_t num_runs)] *)
Definition test_n_ (P : platform) (num_vals num_runs : N) : prog Z :=
  avg <- test_n_loop P num_vals (N.to_nat num_runs) 0 ;;
  result <- lift (duration_div avg num_runs) ;;
  act (PromiseSetValue result) ;;
  Ret result.

(** [future.get()] *)
Definition future_get (p : option Z) : outcome Z :=
  match p with
  | Some r => Done r
  | None => Crash (Uncaught future_error)
  end.

Definition fresh {S : Type} (s : S) : worker S :=
  {| seq := s; promise := None |}.

(** [pair<nanoseconds, nanoseconds> test_n(size_t num_vals,
                                           size_t num_runs)] *)
Definition test_n (P : platform) (num_vals num_runs : N) (sh : shared P)
  : outcome (Z * Z) * shared P * list (thread * event) :=
  match assert (num_vals <=? N.of_nat (length (INT_SET P)))%N with
  | Crash f => (Crash f, sh, [])
  | Done _ =>
      let v := fresh VectorAdaptor.default in
      let l := fresh ListAdaptor.default in
      let '(r, sh', v', l', es) :=
        run2 (schedule P num_vals)
             (test_n_ P num_vals num_runs) (test_n_ P num_vals num_runs)
             sh v l in
      (_ <-! r ;;
       vec_duration <-! future_get (promise v') ;;
       list_duration <-! future_get (promise l') ;;
       Done (vec_duration, list_duration), sh', es)
  end.

(** The lines of [out.csv]. *)
Inductive csv_line : Type :=
| Header                                     (* x,vectime,listtime,vecgain *)
| Row (x : N) (vectime listtime vecgain : Z).

(** An output stream on a file: the lines that have reached the file,
    and those still in the buffer of the stream.  The buffer is emptied
    into the file by [endl] and by [close()], not by [abort()]. *)
Record ostream : Type := {
  flushed : list csv_line;
  pending : list csv_line
}.

(** [output << line], the line ending in a plain new-line character *)
Definition put (line : csv_line) (output : ostream) : ostream :=
  {| flushed := flushed output; pending := pending output ++ [line] |}.

(** [output << endl], after the new-line character, and [close()] *)
Definition flush (output : ostream) : ostream :=
  {| flushed := flushed output ++ pending output; pending := [] |}.

(** [for(size_t i = start; i < end; i++)] of [test_block], [todo]
    iterations from [i] on. *)
Fixpoint test_block_loop (P : platform) (todo : nat) (i : N)
  (sh : shared P) (output : ostream)
  : outcome unit * shared P * ostream :=
  match todo with
  | O => (Done tt, sh, output)
  | Datatypes.S todo' =>
      match test_n P i DEFAULT_RUNS_PER_TEST sh with
      | (Crash f, sh', _) => (Crash f, sh', output)
      | (Done (vec_duration, list_duration), sh', _) =>
          test_block_loop P todo' (i + 1)%N sh'
            (flush (put (Row i vec_duration list_duration
                             (list_duration - vec_duration)) output))
      end
  end.

Definition test_block (P : platform) (start end_ : N)
  (sh : shared P) (output : ostream)
  : outcome unit * shared P * ostream :=
  test_block_loop P (N.to_nat (end_ - start)) start sh output.

(** *** The command line *)

Definition INT_MIN : Z := - 2 ^ 31.
Definition INT_MAX : Z := 2 ^ 31 - 1.

(** [isspace] in the "C" locale: space, \t, \n, \v, \f, \r. *)
Definition isspace (c : ascii) : bool :=
  let n := N_of_ascii c in
  ((n =? 32) || ((9 <=? n) && (n <=? 13)))%N.

Definition digit_value (c : ascii) : option Z :=
  let n := N_of_ascii c in
  if ((48 <=? n) && (n <=? 57))%N then Some (Z.of_N n - 48)%Z else None.

Fixpoint skip_spaces (s : string) : string :=
  match s with
  | String c s' => if isspace c then skip_spaces s' else s
  | EmptyString => s
  end.

(** The optional sign of [strtol]: whether it is a minus, and the rest. *)
Definition take_sign (s : string) : bool * string :=
  match s with
  | String "-"%char s' => (true, s')
  | String "+"%char s' => (false, s')
  | _ => (false, s)
  end.

(** The longest prefix of decimal digits, as a number; [None] when not one
    digit was read. *)
Fixpoint take_digits (s : string) (acc : Z) (seen : bool) : option Z :=
  match s with
  | String c s' =>
      match digit_value c with
      | Some d => take_digits s' (10 * acc + d)%Z true
      | None => if seen then Some acc else None
      end
  | EmptyString => if seen then Some acc else None
  end.

(** [std::stoi(str)]: [strtol] in base 10 on the text; no conversion raises
    [invalid_argument], a value that does not fit an [int] raises
    [out_of_range]; what follows the digits is ignored. *)
Definition stoi (str : string) : exception + Z :=
  let (negative, s) := take_sign (skip_spaces str) in
  match take_digits s 0 false with
  | None => inl invalid_argument
  | Some m =>
      let val := if negative then (- m)%Z else m in
      if ((val <? INT_MIN) || (INT_MAX <? val))%Z
      then inl out_of_range
      else inr val
  end.

(** How [lvv_parse_args] is left: by [return], by [exit(code)] after
    lines written to [cerr], by an exception or by [assert(false)]. *)
Inductive parsed : Type :=
| Returns (num_tests : N)
| Exits (code : Z) (cerr : list string)
| Throws (e : exception)
| Asserts.

Definition usage (argv0 : string) : string :=
  ("Usage: " ++ argv0 ++ " [optional: number of tests to run]")%string.

(** [size_t lvv_parse_args(vector<string> argv)] *)
Definition lvv_parse_args (argv : list string) : parsed :=
  let argc := length argv in
  if (argc <? 1)%nat then Asserts
  else if (argc =? 1)%nat then Returns (Z.to_N DEFAULT_NUM_TESTS)
  else if (2 <? argc)%nat then Exits 1 [usage (nth 0 argv EmptyString)]
  else
    match stoi (nth 1 argv EmptyString) with
    | inl e => Throws e
    | inr tests =>
        if (tests <? 0)%Z
        then Exits 1 ["Number of tests must be non-negative"%string]
        else if (MAX_TESTS <? tests)%Z
        then Exits 1 ["Number of tests must be less than 1000000"%string]
        else Returns (Z.to_N tests)
    end.

(** A line on the error stream: a message the program writes to [cerr],
    or the report of the run-time library when it aborts the process, for
    a failed [assert] or for [std::terminate] on an uncaught exception. *)
Inductive stderr_line : Type :=
| Message (text : string)
| Diagnostic (f : failure).

(** How the process ends, what is on the error stream, and what has
    reached [out.csv] if it was opened. *)
Inductive termination : Type :=
| Exited (code : Z)
| Aborted (f : failure).

Record process : Type := {
  status : termination;
  cerr : list stderr_line;
  out_csv : option (list csv_line)
}.

(** The process stops on the failure [f].  A failed assertion and an
    uncaught exception abort it, with the report of the run-time library
    on the error stream and the file as it is; nothing is known of a
    process that has run into undefined behaviour. *)
Definition stops (f : failure) (file : option (list csv_line))
  : outcome process :=
  match f with
  | AssertionFailed | Uncaught _ =>
      Done {| status := Aborted f; cerr := [Diagnostic f];
              out_csv := file |}
  | UndefinedBehaviour | OutOfFuel => Crash f
  end.

(** [int main(int argc, char const* argv[])]; [sh] is the state the
    static initialisers leave. *)
Definition main (P : platform) (argv : list string) (sh : shared P)
  : outcome process :=
  match lvv_parse_args argv with
  | Exits code lines =>
      Done {| status := Exited code; cerr := map Message lines;
              out_csv := None |}
  | Throws e => stops (Uncaught e) None
  | Asserts => stops AssertionFailed None
  | Returns num_tests =>
      (* std::ofstream outfile("out.csv"); *)
      let outfile := {| flushed := []; pending := [] |} in
      (* outfile << "x,vectime,listtime,vecgain\n"; *)
      let outfile := put Header outfile in
      let '(r, _, outfile) := test_block P 0 num_tests sh outfile in
      match r with
      | Done _ =>
          (* outfile.close(); *)
          Done {| status := Exited 0; cerr := [];
                  out_csv := Some (flushed (flush outfile)) |}
      | Crash f => stops f (Some (flushed outfile))
      end
  end.

(** *** The integer universe *)

Module db.

Definition NUM_INTS : Z := MAX_TESTS.

(** [while(getline(int_db, line)) { s.insert(stoi(line)); }] on the lines
    [getline] delivers; an exception of [stoi] is not caught. *)
Fixpoint read_lines (lines : list string) (s : list Z) : outcome (list Z) :=
  match lines with
  | [] => Done s
  | line :: lines' =>
      match stoi line with
      | inl e => Crash (Uncaught e)
      | inr v => read_lines lines' (set_insert v s)
      end
  end.

(** [optional<unordered_set<int>> read_int_db()]; [int_db] is the content
    of ./random_ints.txt, [None] when the file cannot be opened. *)
Definition read_int_db (int_db : option (list string))
  : outcome (option (list Z)) :=
  match int_db with
  | None => Done None
  | Some lines => s <-! read_lines lines [] ;; Done (Some s)
  end.

End db.

(** [unordered_set<int> fetch_int_set(int min_num_ints)]:
    [db::read_int_db().value_or(utils::generate_n_random_ints(...))].  The
    object expression is evaluated, then the argument of [value_or], then
    the choice is made. *)
Definition fetch_int_set (int_db : option (list string)) (fuel : nat)
  (min_num_ints : Z) : prog (list Z) :=
  read <- lift (db.read_int_db int_db) ;;
  generated <- utils.generate_n_random_ints fuel
                 (Z.to_N (to_uint64 min_num_ints)) INT_MIN INT_MAX ;;
  Ret (match read with
       | Some s => s
       | None => generated
       end).

(** ** The sequential harness of [ListVsVector.cpp] *)

Module ListVsVector.

Definition NUM_RUNS : N := 3.

(** [(int)x] for a [size_t] [x] *)
Definition int_of_size_t (x : N) : Z :=
  let u := (Z.of_N x mod 2 ^ 32)%Z in
  if (u <? 2 ^ 31)%Z then u else (u - 2 ^ 32)%Z.

(** [(size_t)x] for an [int] [x] *)
Definition size_t_of_int (x : Z) : N := Z.to_N (x mod 2 ^ 64)%Z.

(** [for (size_t i = 0; i < test_num; ++i) seq.insert_numerical( *itr++ )];
    there is no check that [s] holds [test_num] values. *)
Fixpoint fill (s : list Z) (todo : nat) {struct todo} : prog unit :=
  match todo with
  | O => Ret tt
  | S todo' =>
      match s with
      | [] => Abort UndefinedBehaviour         (* *itr with itr == s.end() *)
      | x :: s' => act (SeqInsertNumerical x) ;; fill s' todo'
      end
  end.

(** [while (!seq.empty()) { i = random_int(0, (int)(seq.size() - 1), gen);
                            seq.remove(i); }] *)
Fixpoint drain (fuel : nat) : prog unit :=
  match fuel with
  | O => Abort OutOfFuel
  | S fuel' =>
      e <- act SeqEmpty ;;
      if e then Ret tt
      else
        n <- act SeqSize ;;
        i <- utils.random_int 0 (int_of_size_t (size_t_pred n)) ;;
        act (SeqRemove (size_t_of_int i)) ;;
        drain fuel'
  end.

(** [void _test(IntegerSequence& seq, size_t test_num,
                unordered_set<int> s, mt19937& gen)]; the sequence is
    empty on entry, so [test_num + 1] tests of [seq.empty()] suffice. *)
Definition _test (s : list Z) (test_num : N) : prog unit :=
  act (Enter "_test") ;;
  fill s (N.to_nat test_num) ;;
  drain (S (N.to_nat test_num)).

Fixpoint test_loop (s : list Z) (test_num : N) (todo : nat) (avg : Z)
  : prog Z :=
  match todo with
  | O => Ret avg
  | S todo' =>
      act GenSeed ;;
      start <- act ClockNow ;;
      _test s test_num ;;
      end_ <- act ClockNow ;;
      test_loop s test_num todo' (avg + (end_ - start))
  end.

(** [chrono::nanoseconds test(IntegerSequence& seq, size_t test_num,
      unordered_set<int> const& s, mt19937& gen)] *)
Definition test (s : list Z) (test_num : N) : prog Z :=
  (* first do a warmup... *)
  _test s test_num ;;
  (* ... ok, now we measure *)
  avg <- test_loop s test_num (N.to_nat NUM_RUNS) 0 ;;
  lift (duration_div avg NUM_RUNS).

End ListVsVector.

(** ** Memory accesses of the two workers

    An action reads or writes at most one object: the process-wide [gen], the
    clock, the worker's own sequence or the worker's own promise.  Two
    accesses conflict when they are to the same object and one of them
    writes; two workers race when the actions they are about to perform
    conflict, nothing ordering one before the other. *)

Inductive location : Type :=
| LocGen                          (* std::mt19937 gen, one per process *)
| LocClock
| LocSeq (t : thread)             (* VectorAdaptor v / ListAdaptor l *)
| LocPromise (t : thread).        (* vec_promise / list_promise *)

Inductive mode : Type := Reads | Writes.

Definition footprint {X : Type} (t : thread) (a : action X)
  : option (location * mode) :=
  match a with
  | GenSeed => Some (LocGen, Writes)
  | GenDraw _ _ => Some (LocGen, Writes)
  | ClockNow => Some (LocClock, Reads)
  | SeqInsertNumerical _ => Some (LocSeq t, Writes)
  | SeqRemove _ => Some (LocSeq t, Writes)
  | SeqEmpty => Some (LocSeq t, Reads)
  | SeqSize => Some (LocSeq t, Reads)
  | PromiseSetValue _ => Some (LocPromise t, Writes)
  | Enter _ => None
  end.

Definition location_eqb (a b : location) : bool :=
  match a, b with
  | LocGen, LocGen | LocClock, LocClock => true
  | LocSeq s, LocSeq t | LocPromise s, LocPromise t => thread_eqb s t
  | _, _ => false
  end.

Definition is_write (m : mode) : bool :=
  match m with Writes => true | Reads => false end.

Definition conflict (x y : location * mode) : bool :=
  location_eqb (fst x) (fst y) && (is_write (snd x) || is_write (snd y)).

Definition next_access {A : Type} (t : thread) (p : prog A)
  : option (location * mode) :=
  match p with
  | Vis a _ => footprint t a
  | _ => None
  end.

(** The two workers are about to perform conflicting accesses to [loc]. *)
Definition races_on {A B : Type} (loc : location)
  (p1 : prog A) (p2 : prog B) : bool :=
  match next_access vec_thread p1, next_access list_thread p2 with
  | Some x, Some y =>
      conflict x y && location_eqb (fst x) loc
  | _, _ => false
  end.

(** Configurations the two workers of one [test_n] call can reach. *)
Inductive reaches (P : platform) {S1 S2 : Type}
  `{IntegerSequence S1} `{IntegerSequence S2} {A B : Type}
  : prog A -> prog B -> shared P -> worker S1 -> worker S2 ->
    prog A -> prog B -> shared P -> worker S1 -> worker S2 -> Prop :=
| reaches_here p1 p2 sh w1 w2 :
    reaches P p1 p2 sh w1 w2 p1 p2 sh w1 w2
| reaches_vec X (a : action X) k p2 sh w1 w2 x e sh' w1' q1 q2 sh'' v1 v2 :
    perform a sh w1 = Done (x, e, sh', w1') ->
    reaches P (k x) p2 sh' w1' w2 q1 q2 sh'' v1 v2 ->
    reaches P (Vis a k) p2 sh w1 w2 q1 q2 sh'' v1 v2
| reaches_list X (a : action X) p1 k sh w1 w2 x e sh' w2' q1 q2 sh'' v1 v2 :
    perform a sh w2 = Done (x, e, sh', w2') ->
    reaches P p1 (k x) sh' w1 w2' q1 q2 sh'' v1 v2 ->
    reaches P p1 (Vis a k) sh w1 w2 q1 q2 sh'' v1 v2.

(** No reachable configuration has the workers race on [loc]. *)
Definition race_free_on (P : platform) (loc : location)
  (num_vals num_runs : N) (sh : shared P) : Prop :=
  forall q1 q2 sh' v l,
    reaches P (test_n_ P num_vals num_runs) (test_n_ P num_vals num_runs)
            sh (fresh VectorAdaptor.default) (fresh ListAdaptor.default)
            q1 q2 sh' v l ->
    races_on loc q1 q2 = false.

(** ** A small platform to run the harness on

    A linear congruential engine, a counter for the entropy source, a clock
    that advances a microsecond per reading, strict alternation of the two
    threads and a universe of eight values. *)

Definition lcg_next (g : Z) : Z :=
  ((g * 6364136223846793005 + 1442695040888963407) mod 2 ^ 64)%Z.

Definition lcg_uniform (lo hi g : Z) : Z * Z :=
  ((lo + (g / 2 ^ 33) mod (hi - lo + 1))%Z, lcg_next g).

Fixpoint alternate (n : nat) : list thread :=
  match n with
  | O => []
  | S n' => vec_thread :: list_thread :: alternate n'
  end.

Definition small_platform : platform := {|
  engine := Z;
  engine_seed := fun s => lcg_next s;
  engine_uniform := lcg_uniform;
  random_device := fun k => (Z.of_nat k * 2654435761 + 40503)%Z;
  clock_now := fun k => (Z.of_nat k * 1000)%Z;
  schedule := fun i => alternate (N.to_nat i + 4);
  INT_SET := [5; 1; 4; 2; 9; -3; 7; 0]%Z
|}.

Definition small_start : shared small_platform :=
  Build_shared small_platform (lcg_next 1) 1 0.

(** ** The simple measurements of [sm.cpp] *)

Module sm.

Definition NUM_RUNS : N := 10.
Definition VECTOR_SIZE : N := 1000000000.

(** [(int)x] *)
Definition to_int (z : Z) : Z :=
  let u := (z mod 2 ^ 32)%Z in
  if (u <? 2 ^ 31)%Z then u else (u - 2 ^ 32)%Z.

(** [a + b] on [int]s; signed overflow is undefined. *)
Definition int_add (a b : Z) : outcome Z :=
  let r := (a + b)%Z in
  if ((r <? INT_MIN) || (INT_MAX <? r))%Z
  then Crash UndefinedBehaviour
  else Done r.

(** [v[i]]; an index outside the vector is undefined. *)
Definition at_index (v : list Z) (i : Z) : outcome Z :=
  if (i <? 0)%Z then Crash UndefinedBehaviour
  else match nth_error v (Z.to_nat i) with
       | Some x => Done x
       | None => Crash UndefinedBehaviour
       end.

(** [for(int i = 0; i < stop; i = i + 1) sum += v[i];] from [i] on *)
Fixpoint c_style_loop (fuel : nat) (v : list Z) (stop i sum : Z)
  : outcome Z :=
  match fuel with
  | O => Crash OutOfFuel
  | S fuel' =>
      if (i <? stop)%Z then
        x <-! at_index v i ;;
        sum' <-! int_add sum x ;;
        i' <-! int_add i 1 ;;
        c_style_loop fuel' v stop i' sum'
      else Done sum
  end.

(** The lambda named "c-style". *)
Definition c_style (v : list Z) : outcome Z :=
  let sum := 0%Z in
  _ <-! assert (Z.of_nat (length v) <=? INT_MAX)%Z ;;
  let stop := to_int (Z.of_nat (length v)) in
  c_style_loop (S (length v)) v stop 0 sum.

(** [for(unsigned int i = 0; i < stop; ++i) sum += v[i];] from [i] on;
    [i] wraps at [2 ^ 32], [stop] is a [size_t]. *)
Fixpoint c_style_unsigned_loop (fuel : nat) (v : list Z) (stop i sum : Z)
  : outcome Z :=
  match fuel with
  | O => Crash OutOfFuel
  | S fuel' =>
      if (i <? stop)%Z then
        x <-! at_index v i ;;
        sum' <-! int_add sum x ;;
        c_style_unsigned_loop fuel' v stop ((i + 1) mod 2 ^ 32)%Z sum'
      else Done sum
  end.

(** The lambda named "c-style unsigned"; the bound on the iterations is
    enough for the vectors of fewer than [2 ^ 32] elements. *)
Definition c_style_unsigned (v : list Z) : outcome Z :=
  let sum := 0%Z in
  let stop := Z.of_nat (length v) in
  c_style_unsigned_loop (S (length v)) v stop 0 sum.

(** [for(const auto& i: v) sum += i;] *)
Fixpoint range_for_from (v : list Z) (sum : Z) : outcome Z :=
  match v with
  | [] => Done sum
  | i :: v' => sum' <-! int_add sum i ;; range_for_from v' sum'
  end.

(** The lambda named "range for loop". *)
Definition range_for_loop (v : list Z) : outcome Z := range_for_from v 0.

(** [std::for_each(first, last, f)] with a function object acting on a
    captured state. *)
Fixpoint std_for_each {St : Type} (v : list Z) (f : Z -> St -> outcome St)
  (st : St) : outcome St :=
  match v with
  | [] => Done st
  | x :: v' => st' <-! f x st ;; std_for_each v' f st'
  end.

(** The lambdas named "for_each" and "ranges::for_each", with
    [[&sum](int i) { sum += i; }]. *)
Definition for_each (v : list Z) : outcome Z :=
  std_for_each v (fun i sum => int_add sum i) 0%Z.

Definition ranges_for_each (v : list Z) : outcome Z :=
  std_for_each v (fun i sum => int_add sum i) 0%Z.

(** [std::accumulate(first, last, init)]: [init = init + *first]. *)
Fixpoint std_accumulate (v : list Z) (init : Z) : outcome Z :=
  match v with
  | [] => Done init
  | x :: v' => init' <-! int_add init x ;; std_accumulate v' init'
  end.

(** The lambda named "accumulate". *)
Definition accumulate (v : list Z) : outcome Z := std_accumulate v 0.

(** [test_functions].  The last entry, "accumulate sqrt abs", computes in
    floating point; it is left as a parameter, so that what is proved
    holds whatever it returns. *)
Definition test_functions (sqrt_abs : list Z -> outcome Z)
  : list (string * (list Z -> outcome Z)) :=
  [("c-style"%string, c_style);
   ("c-style unsigned"%string, c_style_unsigned);
   ("range for loop"%string, range_for_loop);
   ("for_each"%string, for_each);
   ("ranges::for_each"%string, ranges_for_each);
   ("accumulate"%string, accumulate);
   ("accumulate sqrt abs"%string, sqrt_abs)].

(** [chrono::duration_cast<chrono::milliseconds>] of a count of
    nanoseconds: towards zero. *)
Definition to_milliseconds (ns : Z) : Z := (ns ÷ 1000000)%Z.

(** [time_test(f, v)]: the time in milliseconds and the result. *)
Definition time_test (f : list Z -> outcome Z) (v : list Z)
  : prog (Z * Z) :=
  start <- act ClockNow ;;
  result <- lift (f v) ;;
  end_ <- act ClockNow ;;
  Ret (to_milliseconds (end_ - start), result).

(** [for(size_t i = 0; i < NUM_RUNS; ++i)] of [run_tests], with [todo]
    runs to go; the count of milliseconds is kept exact, and the line
    written to [err] for each run is left out. *)
Fixpoint runs_loop (todo : nat) (f : list Z -> outcome Z) (v : list Z)
  (total_time : Z) : prog Z :=
  match todo with
  | O => Ret total_time
  | S todo' =>
      tr <- time_test f v ;;
      runs_loop todo' f v (total_time + fst tr)%Z
  end.

(** [for(const auto& [name, f]: test_functions)] of [run_tests]: the
    rows written to [out], a name and a mean each. *)
Fixpoint functions_loop (fs : list (string * (list Z -> outcome Z)))
  (v : list Z) : prog (list (string * Z)) :=
  match fs with
  | [] => Ret []
  | (name, f) :: fs' =>
      total_time <- runs_loop (N.to_nat NUM_RUNS) f v 0 ;;
      rows <- functions_loop fs' v ;;
      Ret ((name, (to_uint64 total_time / Z.of_N NUM_RUNS)%Z) :: rows)
  end.

(** [for(volatile size_t i = 0; i < size; i = i + 1)
       v.emplace_back(dist(gen));] with [todo] iterations to go *)
Fixpoint fill_loop (todo : nat) (v : list Z) : prog (list Z) :=
  match todo with
  | O => Ret v
  | S todo' =>
      r <- act (GenDraw INT_MIN INT_MAX) ;;
      fill_loop todo' (v ++ [r])
  end.

(** The vector of [run_tests], for a [VECTOR_SIZE] of [size] that fits an
    [int], as the constant does: [vector<int> v{size}] is the
    list-initialisation of a vector. *)
Definition run_tests_vector (size : N) : prog (list Z) :=
  act GenSeed ;;
  let v := [Z.of_N size] in
  fill_loop (N.to_nat size) v.

(** [run_tests], for a [VECTOR_SIZE] of [size]. *)
Definition run_tests_sized (size : N) (sqrt_abs : list Z -> outcome Z)
  : prog (list (string * Z)) :=
  v <- run_tests_vector size ;;
  functions_loop (test_functions sqrt_abs) v.

Definition run_tests (sqrt_abs : list Z -> outcome Z)
  : prog (list (string * Z)) :=
  run_tests_sized VECTOR_SIZE sqrt_abs.

End sm.

(** ** Vocabulary of the specification *)

(** Ordered insertion as the specification words it: [n] goes before the
    first element that is not below it. *)
Fixpoint insert_sorted (n : Z) (xs : list Z) : list Z :=
  match xs with
  | [] => [n]
  | x :: xs' => if (x <? n)%Z then x :: insert_sorted n xs' else n :: xs
  end.

(** Removal of the element at position [i], the others keeping their
    order. *)
Definition remove_at (i : nat) (xs : list Z) : list Z :=
  firstn i xs ++ skipn (S i) xs.

(** An adaptor behaves as a sequence of values: its operations are those of
    the specification on [elements]. *)
Class LawfulSequence (S : Type) `{IntegerSequence S} : Prop := {
  insert_numerical_elements : forall n s,
    elements (insert_numerical n s) = insert_sorted n (elements s);
  remove_elements : forall i s,
    match remove i s with
    | Done s' =>
        (N.to_nat i < length (elements s))%nat /\
        elements s' = remove_at (N.to_nat i) (elements s)
    | Crash f =>
        f = UndefinedBehaviour /\ (length (elements s) <= N.to_nat i)%nat
    end;
  size_elements : forall s, size s = N.of_nat (length (elements s));
  empty_elements : forall s,
    empty s = match elements s with [] => true | _ => false end
}.

(** A removal plan is valid for a sequence of [size] elements when each
    entry is an index of the sequence as it is when the entry is consumed. *)
Fixpoint valid_from (size : nat) (plan : list N) : bool :=
  match plan with
  | [] => true
  | i :: plan' => (N.to_nat i <? size)%nat && valid_from (size - 1) plan'
  end.

Definition valid_plan (plan : list N) : bool :=
  valid_from (length plan) plan.

(** The contents after each of the insertions of [vals], in turn. *)
Fixpoint states_of_inserts {S : Type} `{IntegerSequence S}
  (vals : list Z) (s : S) : list (list Z) :=
  match vals with
  | [] => []
  | x :: vals' =>
      let s' := insert_numerical x s in
      elements s' :: states_of_inserts vals' s'
  end.

(** The contents after each removal of [plan], in turn; [None] from the
    first removal that is undefined. *)
Fixpoint states_of_removals {S : Type} `{IntegerSequence S}
  (plan : list N) (s : S) : list (option (list Z)) :=
  match plan with
  | [] => []
  | i :: plan' =>
      match remove i s with
      | Done s' => Some (elements s') :: states_of_removals plan' s'
      | Crash _ => [None]
      end
  end.

(** The indices drawn by the countdown of [test_n_] when [k] iterations
    remain, and the generator afterwards. *)
Fixpoint plan_draws (P : platform) (k : nat) (g : engine P)
  : list (Z * Z) * engine P :=
  match k with
  | O => ([], g)
  | S k' =>
      let (r, g') := engine_uniform P 0 (Z.of_nat k') g in
      let (rs, g'') := plan_draws P k' g' in
      ((Z.of_nat k', r) :: rs, g'')
  end.

(** For each call of a function in a trace, in order: was the clock
    running, that is, had [now()] been read an odd number of times? *)
Fixpoint timed_calls (running : bool) (es : list event) : list bool :=
  match es with
  | [] => []
  | EvNow _ :: es' => timed_calls (negb running) es'
  | EvEnter _ :: es' => running :: timed_calls running es'
  | _ :: es' => timed_calls running es'
  end.

Fixpoint all_digits (s : string) : bool :=
  match s with
  | EmptyString => true
  | String c s' =>
      match digit_value c with
      | Some _ => all_digits s'
      | None => false
      end
  end.

(** A decimal integer: an optional sign, then digits and nothing else. *)
Definition is_integer (s : string) : bool :=
  let (_, digits) := take_sign s in
  negb (String.eqb digits EmptyString) && all_digits digits.

(** A usage message on [cerr], a non-zero exit, no output file. *)
Definition refused (r : outcome process) : Prop :=
  exists p, r = Done p /\
    (exists code, status p = Exited code /\ code <> 0%Z) /\
    (exists text, In (Message text) (cerr p)) /\
    out_csv p = None.

(** The command lines [lvv_parse_args] answers with a message and
    [exit(1)]. *)
Definition rejected_by_parser (argv : list string) : bool :=
  (2 <? length argv)%nat ||
  ((length argv =? 2)%nat &&
   match stoi (nth 1 argv EmptyString) with
   | inr tests => (tests <? 0)%Z || (MAX_TESTS <? tests)%Z
   | inl _ => false
   end).

(** Events that neither read the clock nor enter a function. *)
Definition quiet (e : event) : bool :=
  match e with
  | EvNow _ | EvEnter _ => false
  | _ => true
  end.

(** Two workers agree when their sequences hold the same values and their
    promises the same result. *)
Definition agree {S1 S2 : Type} `{IntegerSequence S1} `{IntegerSequence S2}
  (w1 : worker S1) (w2 : worker S2) : Prop :=
  elements (seq w1) = elements (seq w2) /\ promise w1 = promise w2.

(** The plan [test_n_] builds from the draws of [plan_draws]. *)
Definition plan_of (num_vals : N) (ds : list (Z * Z)) : list N :=
  num_vals :: map (fun d => Z.to_N (snd d)) ds.

(** The time accumulated by [todo] measured runs, the clock having been
    read [calls] times before the first. *)
Fixpoint elapsed (P : platform) (calls : nat) (todo : nat) : Z :=
  match todo with
  | O => 0%Z
  | S todo' =>
      (clock_now P (S calls) - clock_now P calls
       + elapsed P (S (S calls)) todo')%Z
  end.

(** The value of a decimal integer, [None] for any other text. *)
Definition integer_of (s : string) : option Z :=
  if is_integer s then
    let (negative, digits) := take_sign s in
    match take_digits digits 0 false with
    | Some m => Some (if negative then (- m)%Z else m)
    | None => None
    end
  else None.

(** The command lines the specification wants refused: more than one
    argument, or one argument that is not an integer of
    [[0, MAX_TESTS]]. *)
Definition must_refuse (argv : list string) : bool :=
  (2 <? length argv)%nat ||
  ((length argv =? 2)%nat &&
   match integer_of (nth 1 argv EmptyString) with
   | None => true
   | Some tests => (tests <? 0)%Z || (MAX_TESTS <? tests)%Z
   end).

(** The contents an event reports are strictly ascending. *)
Definition ascending_event (e : event) : Prop :=
  match e with
  | EvInsert _ xs | EvRemove _ xs => StronglySorted Z.lt xs
  | _ => True
  end.

(** The indices drawn by the vector worker, in a trace of [test_n]. *)
Definition vec_draws (es : list (thread * event)) : list Z :=
  flat_map (fun te => match te with
                      | (vec_thread, EvDraw _ _ r) => [r]
                      | _ => []
                      end) es.

(** Where [insert_in_numerical_order] puts [n]: after the leading elements
    that are below it. *)
Fixpoint insertion_index (n : Z) (xs : list Z) : nat :=
  match xs with
  | [] => 0
  | x :: xs' => if (x <? n)%Z then S (insertion_index n xs') else 0
  end.

(** A program that keeps its promise [Q] about result and worker whatever
    the shared state is each time it acts, that is, whatever another
    worker does to the generator and the clock in between. *)
Inductive robust (P : platform) {S : Type} `{IntegerSequence S} {A : Type}
  (Q : outcome A -> worker S -> Prop) : prog A -> worker S -> Prop :=
| robust_ret a me : Q (Done a) me -> robust P Q (Ret a) me
| robust_abort f me : Q (Crash f) me -> robust P Q (Abort f) me
| robust_vis X (a : action X) k me :
    (forall (sh : shared P) f,
        perform a sh me = Crash f -> Q (Crash f) me) ->
    (forall (sh : shared P) x e sh' me',
        perform a sh me = Done (x, e, sh', me') ->
        robust P Q (k x) me') ->
    robust P Q (Vis a k) me.

(** A worker of [test_n] that returns: the mean is in the promise and the
    sequence is empty again. *)
Definition returns_mean {S : Type} `{IntegerSequence S}
  (r : outcome Z) (me : worker S) : Prop :=
  exists mean, r = Done mean /\ promise me = Some mean /\
               elements (seq me) = [].

(** A worker that stops on a failed assertion. *)
Definition fails_assertion {S : Type} `{IntegerSequence S} {A : Type}
  (r : outcome A) (me : worker S) : Prop :=
  r = Crash AssertionFailed.

(** The events of inserting [vals], one after the other, into a sequence
    that holds [xs]: each reports the value and the contents once the
    value is in its place. *)
Fixpoint insert_events (vals : list Z) (xs : list Z) : list event :=
  match vals with
  | [] => []
  | n :: vals' =>
      EvInsert n (insert_sorted n xs)
      :: insert_events vals' (insert_sorted n xs)
  end.

(** The contents once [vals] are inserted, one after the other. *)
Definition inserted (vals : list Z) (xs : list Z) : list Z :=
  fold_left (fun ys n => insert_sorted n ys) vals xs.

(** The events of removing at the indices of [plan], one after the
    other, from a sequence that holds [xs]: each reports the index and
    the contents once the element is gone; the first index that is out
    of range ends the list. *)
Fixpoint remove_events (plan : list N) (xs : list Z) : list event :=
  match plan with
  | [] => []
  | i :: plan' =>
      if (N.to_nat i <? length xs)%nat
      then EvRemove i (remove_at (N.to_nat i) xs)
           :: remove_events plan' (remove_at (N.to_nat i) xs)
      else []
  end.

(** The benchmark core as the specification has it, on an empty
    sequence: Phase 1 inserts the universe prefix, one value for each
    entry of the plan, Phase 2 removes at each index of the plan. *)
Definition core_trace (P : platform) (plan : list N) : list event :=
  EvEnter "test_n_core_"
  :: (if (length plan <=? length (INT_SET P))%nat
      then
        let prefix := firstn (length plan) (INT_SET P) in
        insert_events prefix [] ++ remove_events plan (inserted prefix [])
      else []).

(** The values inserted and the indices removed, in the order of the
    events. *)
Definition inserted_values (es : list event) : list Z :=
  flat_map (fun e => match e with EvInsert n _ => [n] | _ => [] end) es.

Definition removed_indices (es : list event) : list N :=
  flat_map (fun e => match e with EvRemove i _ => [i] | _ => [] end) es.

(** The sum of a list of integers, in [Z]. *)
Definition list_sum (v : list Z) : Z := fold_right Z.add 0%Z v.

(** Every partial sum of [v], taken from the left, fits an [int]. *)
Definition partial_sums_fit (v : list Z) : Prop :=
  forall k, (k <= length v)%nat ->
            (INT_MIN <= list_sum (firstn k v) <= INT_MAX)%Z.

(** The values drawn from the generator, in the order of the draws. *)
Fixpoint draws_of (es : list event) : list Z :=
  match es with
  | [] => []
  | EvDraw _ _ r :: es' => r :: draws_of es'
  | _ :: es' => draws_of es'
  end.

(** * Properties *)

(** ** The two overloads of [insert_in_numerical_order] *)

Lemma vector_scan_insert (n : Z) (suf pre : list Z) (dist : nat) :
  (length suf <= dist)%nat ->
  utils.vector_insert (pre ++ suf)
    (utils.vector_scan (pre ++ suf) n dist (length pre)) n
  = pre ++ insert_sorted n suf.
Proof.
  revert pre dist.
  induction suf as [|x suf IH]; intros pre dist Hd.
  - assert (E : utils.vector_scan (pre ++ []) n dist (length pre)
                = length pre).
    { destruct dist as [|d]; simpl; [reflexivity|].
      rewrite app_nil_r.
      replace (nth_error pre (length pre)) with (@None Z); [reflexivity|].
      symmetry. apply nth_error_None. lia. }
    rewrite E. unfold utils.vector_insert.
    rewrite app_nil_r, firstn_all, skipn_all. reflexivity.
  - destruct dist as [|d]; simpl in Hd; [lia|].
    simpl utils.vector_scan.
    rewrite nth_error_app2 by lia.
    rewrite Nat.sub_diag. simpl nth_error. cbv beta iota.
    simpl insert_sorted.
    destruct (x <? n)%Z.
    + replace (pre ++ x :: suf) with ((pre ++ [x]) ++ suf)
        by (rewrite <- app_assoc; reflexivity).
      replace (S (length pre)) with (length (pre ++ [x]))
        by (rewrite length_app; simpl; lia).
      rewrite IH by lia.
      rewrite <- app_assoc. reflexivity.
    + unfold utils.vector_insert.
      rewrite firstn_app, firstn_all, Nat.sub_diag.
      rewrite skipn_app, skipn_all, Nat.sub_diag.
      simpl. rewrite app_nil_r. reflexivity.
Qed.

Lemma insert_in_numerical_order_vector_spec (v : list Z) (n : Z) :
  utils.insert_in_numerical_order_vector v n = insert_sorted n v.
Proof.
  destruct v as [|x v]; [reflexivity|].
  unfold utils.insert_in_numerical_order_vector.
  apply (vector_scan_insert n (x :: v) []). lia.
Qed.

Lemma list_scan_insert (n : Z) (rest passed : list Z) :
  utils.list_insert (utils.list_scan n passed rest) n
  = rev passed ++ insert_sorted n rest.
Proof.
  revert passed.
  induction rest as [|x rest IH]; intros passed; simpl.
  - reflexivity.
  - destruct (x <? n)%Z.
    + rewrite IH. simpl. rewrite <- app_assoc. reflexivity.
    + reflexivity.
Qed.

Lemma insert_in_numerical_order_list_spec (l : list Z) (n : Z) :
  utils.insert_in_numerical_order_list l n = insert_sorted n l.
Proof.
  destruct l as [|x l]; [reflexivity|].
  unfold utils.insert_in_numerical_order_list.
  apply (list_scan_insert n (x :: l) []).
Qed.

(** ** Positional removal *)

Lemma advance_spec (steps : nat) (passed rest : list Z) :
  ListAdaptor.advance steps (passed, rest) =
  if (steps <=? length rest)%nat
  then Done (rev (firstn steps rest) ++ passed, skipn steps rest)
  else Crash UndefinedBehaviour.
Proof.
  revert passed rest.
  induction steps as [|k IH]; intros passed rest.
  - reflexivity.
  - destruct rest as [|x rest]; [reflexivity|].
    simpl ListAdaptor.advance. rewrite IH.
    simpl length. change (S k <=? S (length rest))%nat
      with (k <=? length rest)%nat.
    destruct (k <=? length rest)%nat; [|reflexivity].
    simpl. rewrite <- app_assoc. reflexivity.
Qed.

Lemma skipn_cons_nth (xs : list Z) (i : nat) :
  (i < length xs)%nat ->
  exists x, skipn i xs = x :: skipn (S i) xs.
Proof.
  revert i. induction xs as [|y xs IH]; intros i Hi; simpl in Hi; [lia|].
  destruct i as [|i].
  - exists y. reflexivity.
  - destruct (IH i) as [x Hx]; [lia|]. exists x. exact Hx.
Qed.

Lemma list_remove_spec (i : N) (s : ListAdaptor.t) :
  ListAdaptor.remove i s =
  if (N.to_nat i <? length (ListAdaptor.l s))%nat
  then Done (ListAdaptor.Build (remove_at (N.to_nat i) (ListAdaptor.l s)))
  else Crash UndefinedBehaviour.
Proof.
  unfold ListAdaptor.remove, utils.list_begin.
  rewrite advance_spec.
  destruct (N.to_nat i <? length (ListAdaptor.l s))%nat eqn:E.
  - apply Nat.ltb_lt in E.
    replace (N.to_nat i <=? length (ListAdaptor.l s))%nat with true
      by (symmetry; apply Nat.leb_le; lia).
    destruct (skipn_cons_nth (ListAdaptor.l s) (N.to_nat i) E) as [x Hx].
    simpl. rewrite Hx. simpl.
    rewrite app_nil_r, rev_involutive. reflexivity.
  - apply Nat.ltb_ge in E.
    destruct (N.to_nat i <=? length (ListAdaptor.l s))%nat eqn:E'.
    + apply Nat.leb_le in E'.
      simpl. rewrite skipn_all2 by lia. reflexivity.
    + reflexivity.
Qed.

Lemma vector_remove_spec (i : N) (s : VectorAdaptor.t) :
  VectorAdaptor.remove i s =
  if (N.to_nat i <? length (VectorAdaptor.v s))%nat
  then Done (VectorAdaptor.Build
               (remove_at (N.to_nat i) (VectorAdaptor.v s)))
  else Crash UndefinedBehaviour.
Proof.
  unfold VectorAdaptor.remove, utils.vector_erase. simpl plus.
  destruct (N.to_nat i <? length (VectorAdaptor.v s))%nat; reflexivity.
Qed.

#[export] Instance VectorAdaptor_lawful : LawfulSequence VectorAdaptor.t.
Proof.
  split.
  - intros n s. apply insert_in_numerical_order_vector_spec.
  - intros i s. simpl remove. rewrite vector_remove_spec.
    destruct (N.to_nat i <? length (VectorAdaptor.v s))%nat eqn:E.
    + apply Nat.ltb_lt in E. split; [exact E|reflexivity].
    + apply Nat.ltb_ge in E. split; [reflexivity|exact E].
  - reflexivity.
  - reflexivity.
Qed.

#[export] Instance ListAdaptor_lawful : LawfulSequence ListAdaptor.t.
Proof.
  split.
  - intros n s. apply insert_in_numerical_order_list_spec.
  - intros i s. simpl remove. rewrite list_remove_spec.
    destruct (N.to_nat i <? length (ListAdaptor.l s))%nat eqn:E.
    + apply Nat.ltb_lt in E. split; [exact E|reflexivity].
    + apply Nat.ltb_ge in E. split; [reflexivity|exact E].
  - reflexivity.
  - reflexivity.
Qed.

(** ** Ordered insertion keeps a sequence of distinct values ascending *)

Lemma insert_sorted_length (n : Z) (xs : list Z) :
  length (insert_sorted n xs) = S (length xs).
Proof.
  induction xs as [|x xs IH]; simpl; [reflexivity|].
  destruct (x <? n)%Z; simpl; [rewrite IH|]; reflexivity.
Qed.

Lemma insert_sorted_perm (n : Z) (xs : list Z) :
  Permutation (insert_sorted n xs) (n :: xs).
Proof.
  induction xs as [|x xs IH]; simpl; [reflexivity|].
  destruct (x <? n)%Z; [|reflexivity].
  rewrite IH. apply perm_swap.
Qed.

Lemma insert_sorted_ascending (n : Z) (xs : list Z) :
  StronglySorted Z.lt xs -> ~ In n xs ->
  StronglySorted Z.lt (insert_sorted n xs).
Proof.
  induction xs as [|x xs IH]; intros Hs Hn; simpl.
  - constructor; constructor.
  - inversion Hs as [|? ? Hs' Hall]; subst.
    destruct (x <? n)%Z eqn:E.
    + constructor.
      * apply IH; [exact Hs'|]. intro Hin. apply Hn. right. exact Hin.
      * apply Forall_forall. intros y Hy.
        apply (Permutation_in _ (insert_sorted_perm n xs)) in Hy.
        destruct Hy as [<-|Hy].
        -- apply Z.ltb_lt. exact E.
        -- rewrite Forall_forall in Hall. apply Hall. exact Hy.
    + apply Z.ltb_ge in E.
      assert (Hlt : (n < x)%Z).
      { assert (n <> x) by (intro; apply Hn; left; congruence). lia. }
      constructor; [exact Hs|].
      constructor; [exact Hlt|].
      rewrite Forall_forall in *. intros y Hy.
      specialize (Hall y Hy). lia.
Qed.

Section Lawful.

Context {S : Type} `{LawfulSequence S}.

Lemma fill_ascending (vals : list Z) (s : S) :
  NoDup vals ->
  (forall x, In x vals -> ~ In x (elements s)) ->
  StronglySorted Z.lt (elements s) ->
  let s' := fold_left (fun q x => insert_numerical x q) vals s in
  StronglySorted Z.lt (elements s') /\
  Permutation (elements s') (elements s ++ vals).
Proof.
  revert s.
  induction vals as [|x vals IH]; intros s Hd Hfresh Hs; simpl.
  - split; [exact Hs|]. rewrite app_nil_r. reflexivity.
  - inversion Hd as [|? ? Hx Hd']; subst.
    destruct (IH (insert_numerical x s)) as [IH1 IH2].
    + exact Hd'.
    + intros y Hy Hin.
      rewrite insert_numerical_elements in Hin.
      apply (Permutation_in _ (insert_sorted_perm x (elements s))) in Hin.
      destruct Hin as [->|Hin].
      * exact (Hx Hy).
      * exact (Hfresh y (or_intror Hy) Hin).
    + rewrite insert_numerical_elements.
      apply insert_sorted_ascending; [exact Hs|].
      apply Hfresh. left. reflexivity.
    + split; [exact IH1|].
      rewrite IH2, insert_numerical_elements.
      rewrite (insert_sorted_perm x (elements s)).
      simpl. apply Permutation_middle.
Qed.

Lemma fill_from_empty (vals : list Z) (s : S) :
  NoDup vals -> elements s = [] ->
  let s' := fold_left (fun q x => insert_numerical x q) vals s in
  size s' = N.of_nat (length vals) /\
  StronglySorted Z.lt (elements s') /\
  Permutation (elements s') vals.
Proof.
  intros Hd He.
  destruct (fill_ascending vals s Hd) as [H1 H2].
  - rewrite He. intros x _ [].
  - rewrite He. constructor.
  - rewrite He in H2. simpl in H2.
    split; [|split; assumption].
    rewrite size_elements. f_equal. apply Permutation_length. exact H2.
Qed.

Lemma remove_at_length (i : nat) (xs : list Z) :
  (i < length xs)%nat -> length (remove_at i xs) = (length xs - 1)%nat.
Proof.
  intros Hi. unfold remove_at.
  rewrite length_app, length_firstn, length_skipn. lia.
Qed.

Lemma remove_in_range (i : N) (s : S) :
  (i < size s)%N ->
  exists s',
    remove i s = Done s' /\
    size s' = (size s - 1)%N /\
    elements s' = remove_at (N.to_nat i) (elements s).
Proof.
  intros Hi. rewrite size_elements in Hi.
  pose proof (remove_elements i s) as Hr.
  destruct (remove i s) as [s'|f].
  - destruct Hr as [Hlt He]. exists s'.
    split; [reflexivity|]. split; [|exact He].
    rewrite !size_elements, He, remove_at_length by exact Hlt. lia.
  - destruct Hr as [_ Hge]. lia.
Qed.

Lemma remove_out_of_range (i : N) (s : S) :
  (size s <= i)%N -> remove i s = Crash UndefinedBehaviour.
Proof.
  intros Hi. rewrite size_elements in Hi.
  pose proof (remove_elements i s) as Hr.
  destruct (remove i s) as [s'|f].
  - destruct Hr as [Hlt _]. lia.
  - destruct Hr as [-> _]. reflexivity.
Qed.

End Lawful.

(** C4.  For both adaptors and every list of [k] distinct values, after
    [insert_numerical] of each value into a fresh sequence, [size()] is [k]
    and the elements, in iteration order, are strictly ascending (and are
    the inserted values); inserting 5, 1, 4, 2 goes through the states
    [5], [1,5], [1,4,5], [1,2,4,5]. *)
Theorem insert_numerical_ascending (vals : list Z) (Hd : NoDup vals) :
  (let s := fold_left (fun q x => insert_numerical x q) vals
                      VectorAdaptor.default in
   size s = N.of_nat (length vals) /\
   StronglySorted Z.lt (elements s) /\
   Permutation (elements s) vals) /\
  (let s := fold_left (fun q x => insert_numerical x q) vals
                      ListAdaptor.default in
   size s = N.of_nat (length vals) /\
   StronglySorted Z.lt (elements s) /\
   Permutation (elements s) vals) /\
  states_of_inserts [5; 1; 4; 2]%Z VectorAdaptor.default
    = [[5]; [1; 5]; [1; 4; 5]; [1; 2; 4; 5]]%Z /\
  states_of_inserts [5; 1; 4; 2]%Z ListAdaptor.default
    = [[5]; [1; 5]; [1; 4; 5]; [1; 2; 4; 5]]%Z.
Proof.
  split; [|split; [|split]].
  - apply fill_from_empty; [exact Hd|reflexivity].
  - apply fill_from_empty; [exact Hd|reflexivity].
  - reflexivity.
  - reflexivity.
Qed.

Lemma insert_numerical_ascending_witness :
  NoDup [5; 1; 4; 2; 9]%Z /\
  size (fold_left (fun q x => insert_numerical x q) [5; 1; 4; 2; 9]%Z
                  ListAdaptor.default) = 5%N.
Proof.
  assert (Hd : NoDup [5; 1; 4; 2; 9]%Z).
  { repeat constructor; simpl; intuition discriminate. }
  split; [exact Hd|].
  exact (proj1 (proj1 (proj2
    (insert_numerical_ascending [5; 1; 4; 2; 9]%Z Hd)))).
Defined.

(** C5.  For both adaptors and every index [i] below [size()], [remove(i)]
    lowers the size by exactly one and takes out exactly the element at
    position [i] of the iteration order, the others keeping their order;
    the plan 1, 2, 0, 0 takes [1,2,4,5] to [1,4,5], [1,4], [4] and []. *)
Theorem remove_takes_the_ith (i : N)
  (sv : VectorAdaptor.t) (sl : ListAdaptor.t)
  (Hv : (i < size sv)%N) (Hl : (i < size sl)%N) :
  (exists s', remove i sv = Done s' /\
              size s' = (size sv - 1)%N /\
              elements s' = firstn (N.to_nat i) (elements sv)
                            ++ skipn (S (N.to_nat i)) (elements sv)) /\
  (exists s', remove i sl = Done s' /\
              size s' = (size sl - 1)%N /\
              elements s' = firstn (N.to_nat i) (elements sl)
                            ++ skipn (S (N.to_nat i)) (elements sl)) /\
  states_of_removals [1; 2; 0; 0]%N (VectorAdaptor.Build [1; 2; 4; 5]%Z)
    = [Some [1; 4; 5]; Some [1; 4]; Some [4]; Some []]%Z /\
  states_of_removals [1; 2; 0; 0]%N (ListAdaptor.Build [1; 2; 4; 5]%Z)
    = [Some [1; 4; 5]; Some [1; 4]; Some [4]; Some []]%Z.
Proof.
  split; [|split; [|split]].
  - exact (remove_in_range i sv Hv).
  - exact (remove_in_range i sl Hl).
  - reflexivity.
  - reflexivity.
Qed.

Lemma remove_takes_the_ith_witness :
  exists s', remove 1%N (VectorAdaptor.Build [1; 2; 4; 5]%Z) = Done s' /\
             elements s' = [1; 4; 5]%Z.
Proof.
  destruct (remove_takes_the_ith 1%N
              (VectorAdaptor.Build [1; 2; 4; 5]%Z)
              (ListAdaptor.Build [1; 2; 4; 5]%Z)
              eq_refl eq_refl)
    as [[s' [Hr [_ He]]] _].
  exists s'. split; [exact Hr|exact He].
Defined.

(** ** Running programs: sequencing, and independence of the adaptor *)

Lemma run_bind (P : platform) (S : Type) (IS : IntegerSequence S)
  (A B : Type)
  (p : prog A) (f : A -> prog B) (sh : shared P) (me : worker S) :
  run (bind p f) sh me =
  let '(r, sh', me', es) := run p sh me in
  match r with
  | Done a =>
      let '(r', sh'', me'', es') := run (f a) sh' me' in
      (r', sh'', me'', es ++ es')
  | Crash e => (Crash e, sh', me', es)
  end.
Proof.
  revert sh me.
  induction p as [a|e|X a k IH]; intros sh me; simpl.
  - destruct (run (f a) sh me) as [[[r s] m] es]. reflexivity.
  - reflexivity.
  - destruct (perform a sh me) as [[[[x e] sh'] me']|e]; [|reflexivity].
    rewrite IH.
    destruct (run (k x) sh' me') as [[[r s] m] es].
    destruct r as [b|e']; [|reflexivity].
    destruct (run (f b) s m) as [[[r' s'] m'] es']. reflexivity.
Qed.

(** Splits the first [run] of a sequenced program in the goal. *)
Ltac step_bind :=
  match goal with
  | |- context [@run ?P ?S ?IS _ (@bind ?A ?B ?p ?f) ?sh ?me] =>
      rewrite (run_bind P S IS A B p f sh me)
  end.

Section Agreement.

Variable P : platform.
Context {S1 S2 : Type} `{LawfulSequence S1} `{LawfulSequence S2}.

Lemma perform_agree {X : Type} (a : action X) (sh : shared P)
  (w1 : worker S1) (w2 : worker S2) :
  agree w1 w2 ->
  match perform a sh w1, perform a sh w2 with
  | Done (x1, e1, sh1, w1'), Done (x2, e2, sh2, w2') =>
      x1 = x2 /\ e1 = e2 /\ sh1 = sh2 /\ agree w1' w2'
  | Crash f1, Crash f2 => f1 = f2
  | _, _ => False
  end.
Proof.
  intros [He Hp].
  destruct a; simpl.
  - repeat split; assumption.
  - destruct (hi <? lo)%Z; [reflexivity|].
    destruct (engine_uniform P lo hi (gen sh)) as [r g].
    repeat split; assumption.
  - repeat split; assumption.
  - unfold agree; simpl.
    rewrite !insert_numerical_elements, He.
    repeat split. exact Hp.
  - pose proof (remove_elements i (seq w1)) as R1.
    pose proof (remove_elements i (seq w2)) as R2.
    destruct (remove i (seq w1)) as [q1|f1];
      destruct (remove i (seq w2)) as [q2|f2]; simpl.
    + destruct R1 as [_ E1]. destruct R2 as [_ E2].
      unfold agree; simpl. rewrite E1, E2, He.
      repeat split. exact Hp.
    + destruct R1 as [L1 _]. destruct R2 as [_ L2].
      rewrite He in L1. lia.
    + destruct R1 as [_ L1]. destruct R2 as [L2 _].
      rewrite He in L1. lia.
    + destruct R1 as [-> _]. destruct R2 as [-> _]. reflexivity.
  - rewrite !empty_elements, He. repeat split; assumption.
  - rewrite !size_elements, He. repeat split; assumption.
  - unfold agree; simpl. repeat split. exact He.
  - repeat split; assumption.
Qed.

(** Whatever the program, the array-backed and the node-backed worker
    produce the same result, the same events and the same contents. *)
Lemma run_agree {A : Type} (p : prog A) (sh : shared P)
  (w1 : worker S1) (w2 : worker S2) :
  agree w1 w2 ->
  let '(r1, sh1, w1', es1) := run p sh w1 in
  let '(r2, sh2, w2', es2) := run p sh w2 in
  r1 = r2 /\ sh1 = sh2 /\ es1 = es2 /\ agree w1' w2'.
Proof.
  revert sh w1 w2.
  induction p as [a|e|X a k IH]; intros sh w1 w2 Hag; simpl.
  - repeat split; apply Hag.
  - repeat split; apply Hag.
  - pose proof (perform_agree a sh w1 w2 Hag) as Hp.
    destruct (perform a sh w1) as [[[[x1 e1] sh1] w1']|f1];
      destruct (perform a sh w2) as [[[[x2 e2] sh2] w2']|f2];
      try contradiction.
    + destruct Hp as (-> & -> & -> & Hag').
      specialize (IH x2 sh2 w1' w2' Hag').
      destruct (run (k x2) sh2 w1') as [[[r1 s1] m1] es1].
      destruct (run (k x2) sh2 w2') as [[[r2 s2] m2] es2].
      destruct IH as (-> & -> & -> & Hag'').
      repeat split; apply Hag''.
    + subst. repeat split; apply Hag.
Qed.

End Agreement.

(** ** The benchmark core on a valid plan *)

Section CoreRun.

Variable P : platform.
Context {S : Type} `{LawfulSequence S}.

Lemma fill_length (vals : list Z) (s : S) :
  length (elements (fold_left (fun q x => insert_numerical x q) vals s))
  = (length (elements s) + length vals)%nat.
Proof.
  revert s. induction vals as [|x vals IH]; intros s; simpl.
  - lia.
  - rewrite IH, insert_numerical_elements, insert_sorted_length. lia.
Qed.

Lemma run_inserts (vals : list Z) (sh : shared P) (me : worker S) :
  exists es,
    run (for_each vals (fun x => act (SeqInsertNumerical x))) sh me
    = (Done tt, sh,
       {| seq := fold_left (fun q x => insert_numerical x q) vals (seq me);
          promise := promise me |}, es) /\
    forallb quiet es = true.
Proof.
  revert me. induction vals as [|x vals IH]; intros me.
  - exists []. destruct me. split; reflexivity.
  - destruct (IH {| seq := insert_numerical x (seq me);
                    promise := promise me |}) as [es [Hrun Hq]].
    exists (EvInsert x (elements (insert_numerical x (seq me))) :: es).
    simpl. simpl in Hrun. rewrite Hrun. split; [reflexivity|exact Hq].
Qed.

Lemma run_removes (plan : list N) (sh : shared P) (me : worker S) :
  valid_from (length (elements (seq me))) plan = true ->
  exists me' es,
    run (for_each plan (fun i => act (SeqRemove i))) sh me
    = (Done tt, sh, me', es) /\
    length (elements (seq me'))
    = (length (elements (seq me)) - length plan)%nat /\
    promise me' = promise me /\
    forallb quiet es = true.
Proof.
  revert me. induction plan as [|i plan IH]; intros me Hv.
  - exists me, []. simpl. repeat split. lia.
  - simpl in Hv. apply andb_prop in Hv. destruct Hv as [Hi Hv].
    apply Nat.ltb_lt in Hi.
    pose proof (remove_elements i (seq me)) as Hr.
    simpl.
    destruct (remove i (seq me)) as [q|f]; simpl.
    + destruct Hr as [_ He].
      destruct (IH {| seq := q; promise := promise me |})
        as (me' & es & Hrun & Hlen & Hp & Hq).
      * simpl. rewrite He, remove_at_length by exact Hi. exact Hv.
      * exists me', (EvRemove i (elements q) :: es).
        rewrite Hrun. simpl in Hlen, Hp.
        rewrite He, remove_at_length in Hlen by exact Hi.
        repeat split; [lia|exact Hp|exact Hq].
    + destruct Hr as [_ Hge]. lia.
Qed.

Lemma run_core (plan : list N) (sh : shared P) (me : worker S) :
  valid_plan plan = true ->
  (length plan <= length (INT_SET P))%nat ->
  elements (seq me) = [] ->
  exists me' es,
    run (test_n_core_ P plan) sh me
    = (Done tt, sh, me', EvEnter "test_n_core_" :: es) /\
    elements (seq me') = [] /\
    promise me' = promise me /\
    forallb quiet es = true.
Proof.
  intros Hv Hn He.
  destruct (run_inserts (firstn (length plan) (INT_SET P)) sh me)
    as [es1 [Hrun1 Hq1]].
  set (me1 := {| seq := _; promise := _ |}) in Hrun1.
  assert (Hlen1 : length (elements (seq me1)) = length plan).
  { subst me1. simpl. rewrite fill_length, He, length_firstn. simpl. lia. }
  destruct (run_removes plan sh me1) as (me' & es2 & Hrun2 & Hlen & Hp & Hq2).
  { rewrite Hlen1. exact Hv. }
  exists me', (es1 ++ es2).
  split; [|split; [|split]].
  - unfold test_n_core_.
    step_bind. simpl run at 1.
    unfold passert, assert.
    replace (N.of_nat (length plan) <=? N.of_nat (length (INT_SET P)))%N
      with true by (symmetry; apply N.leb_le; lia).
    simpl lift. cbn [bind]. step_bind.
    rewrite Nat2N.id, Hrun1, Hrun2. reflexivity.
  - apply length_zero_iff_nil. lia.
  - exact Hp.
  - rewrite forallb_app, Hq1, Hq2. reflexivity.
Qed.

End CoreRun.

(** *** Every reported state is ascending when the universe is distinct *)

Lemma in_firstn (i : nat) (xs : list Z) (y : Z) :
  In y (firstn i xs) -> In y xs.
Proof.
  revert xs. induction i as [|i IH]; intros [|x xs] Hy; simpl in *;
    try contradiction.
  destruct Hy as [->|Hy]; [left; reflexivity|right; apply IH; exact Hy].
Qed.

Lemma in_skipn (i : nat) (xs : list Z) (y : Z) :
  In y (skipn i xs) -> In y xs.
Proof.
  revert xs. induction i as [|i IH]; intros [|x xs] Hy; simpl in *;
    try contradiction; try exact Hy.
  right. apply IH. exact Hy.
Qed.

Lemma remove_at_ascending (i : nat) (xs : list Z) :
  StronglySorted Z.lt xs -> StronglySorted Z.lt (remove_at i xs).
Proof.
  revert i. induction xs as [|x xs IH]; intros i Hs.
  - destruct i; exact Hs.
  - inversion Hs as [|? ? Hs' Hall]; subst.
    destruct i as [|i]; [exact Hs'|].
    change (remove_at (S i) (x :: xs)) with (x :: remove_at i xs).
    constructor; [apply (IH i Hs')|].
    rewrite Forall_forall in *. intros y Hy. apply Hall.
    unfold remove_at in Hy.
    apply in_app_or in Hy. destruct Hy as [Hy|Hy].
    + apply (in_firstn _ _ _ Hy).
    + apply (in_skipn _ _ _ Hy).
Qed.

Section CoreStates.

Variable P : platform.
Context {S : Type} `{LawfulSequence S}.

Lemma run_inserts_ascending (vals : list Z) (sh : shared P)
  (me : worker S) :
  NoDup vals ->
  (forall x, In x vals -> ~ In x (elements (seq me))) ->
  StronglySorted Z.lt (elements (seq me)) ->
  Forall ascending_event
    (snd (run (for_each vals (fun x => act (SeqInsertNumerical x)))
              sh me)).
Proof.
  revert me. induction vals as [|x vals IH]; intros me Hd Hfresh Hs.
  - constructor.
  - inversion Hd as [|? ? Hx Hd']; subst.
    cbn [for_each act bind run perform].
    set (me1 := {| seq := insert_numerical x (seq me);
                   promise := promise me |}).
    assert (Hs1 : StronglySorted Z.lt (elements (seq me1))).
    { subst me1. cbn [seq]. rewrite insert_numerical_elements.
      apply insert_sorted_ascending; [exact Hs|].
      apply Hfresh. left. reflexivity. }
    specialize (IH me1 Hd').
    destruct (run (for_each vals (fun x0 => act (SeqInsertNumerical x0)))
                  sh me1) as [[[r s'] m'] es].
    cbn [snd]. constructor; [exact Hs1|].
    apply IH; [|exact Hs1].
    intros y Hy Hin. subst me1. cbn [seq] in Hin.
    rewrite insert_numerical_elements in Hin.
    apply (Permutation_in _ (insert_sorted_perm x (elements (seq me))))
      in Hin.
    destruct Hin as [->|Hin].
    + exact (Hx Hy).
    + exact (Hfresh y (or_intror Hy) Hin).
Qed.

Lemma run_removes_ascending (plan : list N) (sh : shared P)
  (me : worker S) :
  StronglySorted Z.lt (elements (seq me)) ->
  Forall ascending_event
    (snd (run (for_each plan (fun i => act (SeqRemove i))) sh me)).
Proof.
  revert me. induction plan as [|i plan IH]; intros me Hs.
  - constructor.
  - cbn [for_each act bind run perform].
    pose proof (remove_elements i (seq me)) as Hr.
    destruct (remove i (seq me)) as [q|f]; cbn [obind]; [|constructor].
    destruct Hr as [_ He].
    assert (Hq : StronglySorted Z.lt (elements q))
      by (rewrite He; apply remove_at_ascending; exact Hs).
    specialize (IH {| seq := q; promise := promise me |} Hq).
    destruct (run (for_each plan (fun i0 => act (SeqRemove i0))) sh
                  {| seq := q; promise := promise me |})
      as [[[r s'] m'] es].
    cbn [snd]. constructor; [exact Hq|exact IH].
Qed.

Lemma run_core_ascending (plan : list N) (sh : shared P) (me : worker S) :
  universe_distinct P ->
  elements (seq me) = [] ->
  Forall ascending_event (snd (run (test_n_core_ P plan) sh me)).
Proof.
  intros Hd He. unfold test_n_core_.
  unfold act at 1. cbn [bind run perform]. cbn [snd].
  unfold passert, assert.
  destruct (N.of_nat (length plan) <=? N.of_nat (length (INT_SET P)))%N;
    cbn [lift bind run]; [|repeat constructor].
  step_bind.
  set (vals := firstn (N.to_nat (N.of_nat (length plan))) (INT_SET P)).
  assert (Hdv : NoDup vals).
  { unfold vals. unfold universe_distinct in Hd.
    rewrite <- (firstn_skipn (N.to_nat (N.of_nat (length plan)))
                  (INT_SET P)) in Hd.
    apply NoDup_app_remove_r in Hd. exact Hd. }
  pose proof (run_inserts_ascending vals sh me Hdv) as Hins.
  destruct (run_inserts P vals sh me) as [es1 [Hrun1 _]].
  rewrite Hrun1 in Hins |- *. cbn [snd] in Hins.
  set (me1 := {| seq := _; promise := _ |}).
  assert (Hs1 : StronglySorted Z.lt (elements (seq me1))).
  { subst me1. cbn [seq].
    apply (fill_ascending vals (seq me) Hdv).
    - rewrite He. intros x _ [].
    - rewrite He. constructor. }
  pose proof (run_removes_ascending plan sh me1 Hs1) as Hrem.
  destruct (run (for_each plan (fun i => act (SeqRemove i))) sh me1)
    as [[[r s'] m'] es2].
  cbn [snd] in Hrem |- *.
  constructor; [exact I|].
  apply Forall_app. split; [|exact Hrem].
  apply Hins.
  - rewrite He. intros x _ [].
  - rewrite He. constructor.
Qed.

End CoreStates.

(** *** The trace of the core: the prefix goes in, the plan takes out *)

Section CoreTrace.

Variable P : platform.
Context {S : Type} `{LawfulSequence S}.

Lemma run_inserts_trace (vals : list Z) (sh : shared P) (me : worker S) :
  exists me',
    run (for_each vals (fun x => act (SeqInsertNumerical x))) sh me
    = (Done tt, sh, me', insert_events vals (elements (seq me))) /\
    elements (seq me') = inserted vals (elements (seq me)) /\
    promise me' = promise me.
Proof.
  revert me. induction vals as [|x vals IH]; intros me.
  - exists me. repeat split.
  - destruct (IH {| seq := insert_numerical x (seq me);
                    promise := promise me |}) as (me' & Hrun & He & Hp).
    cbn [seq promise] in Hrun, He, Hp.
    rewrite insert_numerical_elements in Hrun, He.
    exists me'. cbn [for_each act bind run perform].
    rewrite insert_numerical_elements, Hrun.
    repeat split; assumption.
Qed.

Lemma run_removes_trace (plan : list N) (sh : shared P) (me : worker S) :
  exists me',
    run (for_each plan (fun i => act (SeqRemove i))) sh me
    = (if valid_from (length (elements (seq me))) plan
       then Done tt else Crash UndefinedBehaviour,
       sh, me', remove_events plan (elements (seq me))) /\
    (valid_from (length (elements (seq me))) plan = true ->
     length (elements (seq me'))
     = (length (elements (seq me)) - length plan)%nat).
Proof.
  revert me. induction plan as [|i plan IH]; intros me.
  - exists me. simpl. split; [reflexivity|]. intros _. lia.
  - cbn [for_each act bind run perform valid_from remove_events].
    pose proof (remove_elements i (seq me)) as Hr.
    destruct (remove i (seq me)) as [q|f]; cbn [obind].
    + destruct Hr as [Hlt He].
      replace (N.to_nat i <? length (elements (seq me)))%nat with true
        by (symmetry; apply Nat.ltb_lt; exact Hlt).
      destruct (IH {| seq := q; promise := promise me |})
        as (me' & Hrun & Hlen).
      cbn [seq] in Hrun, Hlen.
      rewrite He in Hrun, Hlen. rewrite remove_at_length in Hrun, Hlen
        by exact Hlt.
      rewrite He, Hrun. cbn [andb].
      exists me'. split; [reflexivity|].
      intros Hv. rewrite (Hlen Hv). simpl. lia.
    + destruct Hr as [-> Hge].
      replace (N.to_nat i <? length (elements (seq me)))%nat with false
        by (symmetry; apply Nat.ltb_ge; exact Hge).
      exists me. split; [reflexivity|]. discriminate.
Qed.

Lemma inserted_length (vals xs : list Z) :
  length (inserted vals xs) = (length xs + length vals)%nat.
Proof.
  unfold inserted. revert xs.
  induction vals as [|x vals IH]; intros xs; simpl; [lia|].
  rewrite IH, insert_sorted_length. lia.
Qed.

(** On an empty sequence the core does what [core_trace] says, whatever
    the plan: it stops on the assertion when the plan is longer than the
    universe, and at the first index that is out of range. *)
Lemma run_core_trace (plan : list N) (sh : shared P) (me : worker S) :
  elements (seq me) = [] ->
  exists me',
    run (test_n_core_ P plan) sh me
    = (if (length plan <=? length (INT_SET P))%nat
       then if valid_plan plan then Done tt else Crash UndefinedBehaviour
       else Crash AssertionFailed,
       sh, me', core_trace P plan) /\
    ((length plan <= length (INT_SET P))%nat ->
     valid_plan plan = true -> elements (seq me') = []).
Proof.
  intros He. unfold test_n_core_, core_trace.
  step_bind. simpl run at 1. unfold passert, assert.
  destruct (length plan <=? length (INT_SET P))%nat eqn:E.
  - apply Nat.leb_le in E.
    replace (N.of_nat (length plan) <=? N.of_nat (length (INT_SET P)))%N
      with true by (symmetry; apply N.leb_le; lia).
    simpl lift. cbn [bind]. step_bind. rewrite Nat2N.id.
    destruct (run_inserts_trace (firstn (length plan) (INT_SET P)) sh me)
      as (me1 & Hrun1 & He1 & _).
    rewrite He in Hrun1, He1. rewrite Hrun1.
    destruct (run_removes_trace plan sh me1) as (me' & Hrun2 & Hlen).
    rewrite He1 in Hrun2, Hlen.
    rewrite inserted_length, length_firstn in Hrun2, Hlen.
    replace (length (@nil Z) + Nat.min (length plan) (length (INT_SET P)))%nat
      with (length plan) in Hrun2, Hlen by (simpl; lia).
    rewrite Hrun2. fold (valid_plan plan).
    exists me'. split.
    + destruct (valid_plan plan); reflexivity.
    + intros _ Hv. apply length_zero_iff_nil.
      rewrite (Hlen Hv). lia.
  - apply Nat.leb_gt in E.
    replace (N.of_nat (length plan) <=? N.of_nat (length (INT_SET P)))%N
      with false by (symmetry; apply N.leb_gt; lia).
    exists me. split; [reflexivity|]. lia.
Qed.

End CoreTrace.

Lemma inserted_values_insert_events (vals xs : list Z) :
  inserted_values (insert_events vals xs) = vals /\
  removed_indices (insert_events vals xs) = [].
Proof.
  revert xs. induction vals as [|n vals IH]; intros xs; [split; reflexivity|].
  destruct (IH (insert_sorted n xs)) as [H1 H2].
  unfold inserted_values, removed_indices in *. simpl.
  rewrite H1, H2. split; reflexivity.
Qed.

Lemma removed_indices_remove_events (plan : list N) (xs : list Z) :
  inserted_values (remove_events plan xs) = [] /\
  (valid_from (length xs) plan = true ->
   removed_indices (remove_events plan xs) = plan).
Proof.
  revert xs. induction plan as [|i plan IH]; intros xs;
    [split; reflexivity|].
  cbn [remove_events valid_from].
  destruct (N.to_nat i <? length xs)%nat eqn:E.
  - apply Nat.ltb_lt in E.
    destruct (IH (remove_at (N.to_nat i) xs)) as [H1 H2].
    rewrite remove_at_length in H2 by exact E.
    unfold inserted_values, removed_indices in *. simpl.
    split; [exact H1|]. intros Hv. rewrite (H2 Hv). reflexivity.
  - split; [reflexivity|]. discriminate.
Qed.

(** On a valid plan within the universe the trace shows the two phases:
    the values inserted are the universe prefix, the indices removed are
    the plan. *)
Lemma core_trace_phases (P : platform) (plan : list N) :
  valid_plan plan = true ->
  (length plan <= length (INT_SET P))%nat ->
  inserted_values (core_trace P plan) = firstn (length plan) (INT_SET P) /\
  removed_indices (core_trace P plan) = plan.
Proof.
  intros Hv Hs. unfold core_trace.
  replace (length plan <=? length (INT_SET P))%nat with true
    by (symmetry; apply Nat.leb_le; exact Hs).
  set (prefix := firstn (length plan) (INT_SET P)).
  destruct (inserted_values_insert_events prefix []) as [Hi1 Hi2].
  destruct (removed_indices_remove_events plan (inserted prefix []))
    as [Hr1 Hr2].
  assert (Hlen : length (inserted prefix []) = length plan).
  { rewrite inserted_length. subst prefix. rewrite length_firstn.
    simpl. lia. }
  rewrite Hlen in Hr2. specialize (Hr2 Hv).
  unfold inserted_values, removed_indices in *.
  cbn [flat_map app]. rewrite !flat_map_app.
  rewrite Hi1, Hi2, Hr1, Hr2, app_nil_r. split; reflexivity.
Qed.

(** C3.  For both adaptors, every universe, and every removal plan whose
    entries are valid indices when consumed (and for which the universe
    holds enough values), the benchmark core on a fresh sequence runs
    Phase 1, inserting the universe prefix value by value, then Phase 2,
    removing at each index of the plan in order, and leaves the sequence
    empty. *)
Theorem core_leaves_sequence_empty (P : platform) (plan : list N)
  (sh : shared P)
  (Hvalid : valid_plan plan = true)
  (Hsize : (length plan <= length (INT_SET P))%nat) :
  (let '(r, _, w, es) :=
     run (test_n_core_ P plan) sh (fresh VectorAdaptor.default) in
   r = Done tt /\ empty (seq w) = true /\ size (seq w) = 0%N /\
   es = core_trace P plan) /\
  (let '(r, _, w, es) :=
     run (test_n_core_ P plan) sh (fresh ListAdaptor.default) in
   r = Done tt /\ empty (seq w) = true /\ size (seq w) = 0%N /\
   es = core_trace P plan) /\
  inserted_values (core_trace P plan) = firstn (length plan) (INT_SET P) /\
  removed_indices (core_trace P plan) = plan.
Proof.
  split; [|split].
  - destruct (run_core_trace P plan sh (fresh VectorAdaptor.default))
      as (w & -> & He); [reflexivity|].
    replace (length plan <=? length (INT_SET P))%nat with true
      by (symmetry; apply Nat.leb_le; exact Hsize).
    rewrite Hvalid, empty_elements, size_elements, (He Hsize Hvalid).
    repeat split.
  - destruct (run_core_trace P plan sh (fresh ListAdaptor.default))
      as (w & -> & He); [reflexivity|].
    replace (length plan <=? length (INT_SET P))%nat with true
      by (symmetry; apply Nat.leb_le; exact Hsize).
    rewrite Hvalid, empty_elements, size_elements, (He Hsize Hvalid).
    repeat split.
  - exact (core_trace_phases P plan Hvalid Hsize).
Qed.

Lemma core_leaves_sequence_empty_witness :
  valid_plan [1; 2; 0; 0]%N = true /\
  fst (fst (fst (run (test_n_core_ small_platform [1; 2; 0; 0]%N)
                     small_start (fresh ListAdaptor.default))))
  = Done tt.
Proof.
  split; [reflexivity|].
  pose proof (core_leaves_sequence_empty small_platform [1; 2; 0; 0]%N
                small_start eq_refl
                ltac:(simpl; lia)) as [_ [Hl _]].
  destruct (run (test_n_core_ small_platform [1; 2; 0; 0]%N)
                small_start (fresh ListAdaptor.default))
    as [[[r s] w] es].
  exact (proj1 Hl).
Defined.

(** C2.  For every universe and every removal plan, the benchmark core run
    against the array-backed and against the node-backed adaptor yields the
    events of [core_trace]: an insertion for each value of the universe
    prefix, then a removal for each index of the plan up to the first that
    is out of range, each with the contents it leaves.  So the two runs
    hold the same contents after each [insert_numerical] and each
    [remove], and give the same result; these contents are strictly
    ascending when the universe holds no value twice; on a valid plan both
    runs complete and end empty. *)
Theorem adaptors_same_states (P : platform) (plan : list N)
  (sh : shared P) :
  let '(rv, _, wv, esv) :=
    run (test_n_core_ P plan) sh (fresh VectorAdaptor.default) in
  let '(rl, _, wl, esl) :=
    run (test_n_core_ P plan) sh (fresh ListAdaptor.default) in
  esv = core_trace P plan /\ esl = core_trace P plan /\
  esv = esl /\ rv = rl /\ elements (seq wv) = elements (seq wl) /\
  (universe_distinct P -> Forall ascending_event esv) /\
  (valid_plan plan = true ->
   (length plan <= length (INT_SET P))%nat ->
   rv = Done tt /\ empty (seq wv) = true /\ empty (seq wl) = true /\
   inserted_values esv = firstn (length plan) (INT_SET P) /\
   removed_indices esv = plan).
Proof.
  destruct (run_core_trace P plan sh (fresh VectorAdaptor.default))
    as (wv' & Htv & _); [reflexivity|].
  destruct (run_core_trace P plan sh (fresh ListAdaptor.default))
    as (wl' & Htl & _); [reflexivity|].
  pose proof (core_trace_phases P plan) as Hphases.
  pose proof (run_agree P (test_n_core_ P plan) sh
                (fresh VectorAdaptor.default) (fresh ListAdaptor.default)
                (conj eq_refl eq_refl)) as Hag.
  pose proof (fun Hv Hs =>
                run_core P plan sh (fresh VectorAdaptor.default)
                         Hv Hs) as Hvec.
  pose proof (fun Hd =>
                run_core_ascending P plan sh (fresh VectorAdaptor.default)
                                   Hd) as Hasc.
  destruct (run (test_n_core_ P plan) sh (fresh VectorAdaptor.default))
    as [[[rv sv] wv] esv].
  destruct (run (test_n_core_ P plan) sh (fresh ListAdaptor.default))
    as [[[rl sl] wl] esl].
  destruct Hag as (Hr & _ & He & Hel & _).
  assert (Hesv : esv = core_trace P plan) by congruence.
  assert (Hesl : esl = core_trace P plan) by congruence.
  split; [exact Hesv|]. split; [exact Hesl|].
  split; [exact He|]. split; [exact Hr|]. split; [exact Hel|].
  split.
  - intros Hd. apply (Hasc Hd). reflexivity.
  - intros Hv Hs.
    destruct (Hvec Hv Hs) as (w & es & Hrun & Hnil & _); [reflexivity|].
    injection Hrun as -> _ -> _.
    rewrite !empty_elements, <- Hel, Hnil.
    destruct (Hphases Hv Hs) as [Hi Hrm].
    rewrite Hesv. repeat split; assumption.
Qed.

Lemma adaptors_same_states_witness :
  valid_plan [1; 2; 0; 0]%N = true /\
  snd (run (test_n_core_ small_platform [1; 2; 0; 0]%N) small_start
           (fresh VectorAdaptor.default))
  = snd (run (test_n_core_ small_platform [1; 2; 0; 0]%N) small_start
             (fresh ListAdaptor.default)) /\
  fst (fst (fst (run (test_n_core_ small_platform [1; 2; 0; 0]%N)
                     small_start (fresh VectorAdaptor.default))))
  = Done tt.
Proof.
  split; [reflexivity|].
  pose proof (adaptors_same_states small_platform [1; 2; 0; 0]%N
                small_start) as Hs.
  destruct (run (test_n_core_ small_platform [1; 2; 0; 0]%N) small_start
                (fresh VectorAdaptor.default)) as [[[rv sv] wv] esv].
  destruct (run (test_n_core_ small_platform [1; 2; 0; 0]%N) small_start
                (fresh ListAdaptor.default)) as [[[rl sl] wl] esl].
  destruct Hs as (_ & _ & He & _ & _ & _ & Hdone).
  split; [exact He|].
  exact (proj1 (Hdone eq_refl ltac:(simpl; lia))).
Defined.

(** ** The countdown of [test_n_] *)

Lemma size_t_pred_zero : size_t_pred 0 = SIZE_MAX.
Proof. reflexivity. Qed.

Lemma size_t_pred_succ (n : N) :
  (n <= SIZE_MAX)%N -> size_t_pred (N.succ n) = n.
Proof.
  unfold size_t_pred, SIZE_MAX. intros Hn.
  replace (N.succ n + (2 ^ 64 - 1))%N with (n + 1 * 2 ^ 64)%N by lia.
  rewrite N.Div0.mod_add. apply N.mod_small. lia.
Qed.

Section Countdown.

Variable P : platform.
Hypothesis Hrange : uniform_in_range P.

Lemma plan_draws_spec (k : nat) (g : engine P) :
  let ds := fst (plan_draws P k g) in
  length ds = k /\
  forall i, (i < k)%nat ->
    exists r, nth_error ds i = Some (Z.of_nat (k - 1 - i), r) /\
              (0 <= r <= Z.of_nat (k - 1 - i))%Z.
Proof.
  revert g. induction k as [|k IH]; intros g; simpl.
  - split; [reflexivity|]. intros i Hi. lia.
  - pose proof (Hrange 0%Z (Z.of_nat k) g ltac:(lia)) as Hr.
    destruct (engine_uniform P 0 (Z.of_nat k) g) as [r g'].
    specialize (IH g').
    destruct (plan_draws P k g') as [rs g'']. simpl in *.
    destruct IH as [Hlen Hnth].
    split; [rewrite Hlen; reflexivity|].
    intros [|i] Hi.
    + exists r. split; [cbn [nth_error]; repeat f_equal; lia|lia].
    + replace (k - 0 - S i)%nat with (k - 1 - i)%nat by lia.
      cbn [nth_error]. apply Hnth. lia.
Qed.

Lemma plan_draws_valid (k : nat) (g : engine P) :
  valid_from k (map (fun d => Z.to_N (snd d)) (fst (plan_draws P k g)))
  = true.
Proof.
  revert g. induction k as [|k IH]; intros g; simpl.
  - reflexivity.
  - pose proof (Hrange 0%Z (Z.of_nat k) g ltac:(lia)) as Hr.
    destruct (engine_uniform P 0 (Z.of_nat k) g) as [r g'].
    specialize (IH g').
    destruct (plan_draws P k g') as [rs g'']. simpl in *.
    rewrite Nat.sub_0_r, IH, andb_true_r.
    apply Nat.ltb_lt. rewrite Z_N_nat. lia.
Qed.

Lemma plan_of_valid (k : nat) (g : engine P) :
  valid_plan (plan_of (N.of_nat k) (fst (plan_draws P k g))) = true.
Proof.
  unfold valid_plan, plan_of. simpl.
  destruct (plan_draws_spec k g) as [Hlen _].
  rewrite length_map, Hlen, Nat.sub_0_r, plan_draws_valid, andb_true_r.
  apply Nat.ltb_lt. lia.
Qed.

Lemma plan_of_last (k : nat) (g : engine P) :
  nth_error (plan_of (N.of_nat k) (fst (plan_draws P k g))) k = Some 0%N.
Proof.
  unfold plan_of. destruct k as [|k]; [reflexivity|].
  cbn [nth_error].
  destruct (plan_draws_spec (S k) g) as [_ Hnth].
  destruct (Hnth k ltac:(lia)) as [r [Hr Hb]].
  rewrite nth_error_map, Hr. simpl.
  replace (S k - 1 - k)%nat with 0%nat in Hb by lia.
  replace r with 0%Z by lia. reflexivity.
Qed.

Lemma plan_of_length (k : nat) (g : engine P) :
  length (plan_of (N.of_nat k) (fst (plan_draws P k g))) = S k.
Proof.
  unfold plan_of. simpl. rewrite length_map.
  destruct (plan_draws_spec k g) as [-> _]. reflexivity.
Qed.

Lemma countdown_run {S : Type} `{IntegerSequence S}
  (k fuel : nat) (acc : list N) (sh : shared P) (me : worker S) :
  (k < fuel)%nat -> (N.of_nat k <= SIZE_MAX)%N ->
  run (countdown fuel (size_t_pred (N.of_nat k)) acc) sh me =
  (Done (acc ++ map (fun d => Z.to_N (snd d))
                    (fst (plan_draws P k (gen sh)))),
   {| gen := snd (plan_draws P k (gen sh));
      rd_calls := rd_calls sh; now_calls := now_calls sh |},
   me,
   map (fun d => EvDraw 0 (fst d) (snd d)) (fst (plan_draws P k (gen sh)))).
Proof.
  revert fuel acc sh.
  induction k as [|k IH]; intros fuel acc sh Hf Hk.
  - destruct fuel as [|fuel]; [lia|].
    simpl N.of_nat. rewrite size_t_pred_zero.
    simpl. rewrite app_nil_r. destruct sh. reflexivity.
  - destruct fuel as [|fuel]; [lia|].
    rewrite Nat2N.inj_succ, size_t_pred_succ by lia.
    cbn [countdown].
    replace (N.of_nat k <? SIZE_MAX)%N with true
      by (symmetry; apply N.ltb_lt; lia).
    unfold utils.random_size_t, act. cbn [bind run perform].
    rewrite nat_N_Z.
    replace (Z.of_nat k <? Z.of_N 0)%Z with false
      by (symmetry; apply Z.ltb_ge; simpl; lia).
    change (Z.of_N 0) with 0%Z.
    cbn [plan_draws].
    destruct (engine_uniform P 0 (Z.of_nat k) (gen sh)) as [r g'].
    rewrite IH by lia. cbn [gen rd_calls now_calls].
    destruct (plan_draws P k g') as [rs g'']. simpl.
    rewrite <- app_assoc. reflexivity.
Qed.

End Countdown.

(** ** One worker: plan, measured runs, mean *)

Lemma timed_calls_quiet (running : bool) (es rest : list event) :
  forallb quiet es = true ->
  timed_calls running (es ++ rest) = timed_calls running rest.
Proof.
  induction es as [|e es IH]; intros Hq; [reflexivity|].
  simpl in Hq. apply andb_prop in Hq. destruct Hq as [He Hq].
  destruct e; simpl in *; try discriminate; apply IH; exact Hq.
Qed.

Lemma draws_quiet (ds : list (Z * Z)) :
  forallb quiet (map (fun d => EvDraw 0 (fst d) (snd d)) ds) = true.
Proof. induction ds as [|d ds IH]; simpl; [reflexivity|exact IH]. Qed.

Section Worker.

Variable P : platform.
Hypothesis Hrange : uniform_in_range P.
Context {S : Type} `{LawfulSequence S}.

Variable num_vals : N.
Hypothesis Hsize_t : (num_vals <= SIZE_MAX)%N.

Lemma make_removal_indices_run (sh : shared P) (me : worker S) :
  run (make_removal_indices num_vals) sh me =
  (Done (plan_of num_vals
           (fst (plan_draws P (N.to_nat num_vals) (gen sh)))),
   {| gen := snd (plan_draws P (N.to_nat num_vals) (gen sh));
      rd_calls := rd_calls sh; now_calls := now_calls sh |},
   me,
   map (fun d => EvDraw 0 (fst d) (snd d))
       (fst (plan_draws P (N.to_nat num_vals) (gen sh)))).
Proof.
  unfold make_removal_indices.
  pose proof (countdown_run P (N.to_nat num_vals)
                (Datatypes.S (N.to_nat num_vals)) [num_vals] sh me) as Hc.
  rewrite N2Nat.id in Hc.
  apply Hc; [lia|exact Hsize_t].
Qed.

(** The universe holds the [num_vals + 1] values the core will insert. *)
Hypothesis Huniverse :
  (Datatypes.S (N.to_nat num_vals) <= length (INT_SET P))%nat.

Lemma test_n_loop_run (todo : nat) (avg : Z)
  (sh : shared P) (me : worker S) :
  elements (seq me) = [] ->
  exists g me' es,
    run (test_n_loop P num_vals todo avg) sh me =
    (Done (avg + elapsed P (now_calls sh) todo)%Z,
     {| gen := g;
        rd_calls := (rd_calls sh + todo)%nat;
        now_calls := (now_calls sh + 2 * todo)%nat |},
     me', es) /\
    elements (seq me') = [] /\
    promise me' = promise me /\
    timed_calls false es = repeat true todo.
Proof.
  revert avg sh me.
  induction todo as [|todo IH]; intros avg sh me He.
  - exists (gen sh), me, []. simpl.
    rewrite Z.add_0_r, !Nat.add_0_r. destruct sh.
    repeat split; assumption.
  - cbn [test_n_loop]. unfold act at 1. cbn [bind run perform].
    step_bind. rewrite make_removal_indices_run.
    cbn [gen rd_calls now_calls].
    set (g0 := engine_seed P (random_device P (rd_calls sh))).
    set (ds := fst (plan_draws P (N.to_nat num_vals) g0)).
    set (g1 := snd (plan_draws P (N.to_nat num_vals) g0)).
    assert (Hplan : plan_of num_vals ds
                    = plan_of (N.of_nat (N.to_nat num_vals)) ds)
      by (rewrite N2Nat.id; reflexivity).
    assert (Hlen : length (plan_of num_vals ds)
                   = Datatypes.S (N.to_nat num_vals))
      by (rewrite Hplan; apply plan_of_length; exact Hrange).
    assert (Hlast : nth_error (plan_of num_vals ds) (N.to_nat num_vals)
                    = Some 0%N)
      by (rewrite Hplan; apply plan_of_last; exact Hrange).
    assert (Hvalid : valid_plan (plan_of num_vals ds) = true)
      by (rewrite Hplan; apply plan_of_valid; exact Hrange).
    unfold vector_at.
    rewrite Hlen, Nat2N.inj_succ, size_t_pred_succ, Nat2N.id, Hlast
      by (rewrite N2Nat.id; exact Hsize_t).
    cbn [bind]. unfold passert, assert. cbn [N.eqb lift bind].
    unfold act at 1. cbn [bind run perform].
    cbn [gen rd_calls now_calls].
    step_bind.
    destruct (run_core P (plan_of num_vals ds)
                {| gen := g1; rd_calls := Datatypes.S (rd_calls sh);
                   now_calls := Datatypes.S (now_calls sh) |} me
                Hvalid ltac:(rewrite Hlen; exact Huniverse) He)
      as (me1 & es1 & Hcore & He1 & Hp1 & Hq1).
    rewrite Hcore.
    unfold act at 1. cbn [bind run perform].
    cbn [gen rd_calls now_calls].
    destruct (IH (avg + (clock_now P (Datatypes.S (now_calls sh))
                         - clock_now P (now_calls sh)))%Z
                 {| gen := g1; rd_calls := Datatypes.S (rd_calls sh);
                    now_calls :=
                      Datatypes.S (Datatypes.S (now_calls sh)) |}
                 me1 He1)
      as (g & me' & es & Hrun & He' & Hp' & Htimed).
    rewrite Hrun. cbn [gen rd_calls now_calls].
    exists g, me'. eexists. split; [|split; [|split]].
    + replace (rd_calls sh + Datatypes.S todo)%nat
        with (Datatypes.S (rd_calls sh) + todo)%nat by lia.
      replace (now_calls sh + 2 * Datatypes.S todo)%nat
        with (Datatypes.S (Datatypes.S (now_calls sh)) + 2 * todo)%nat
        by lia.
      cbn [elapsed]. rewrite !Z.add_assoc. reflexivity.
    + exact He'.
    + rewrite Hp'. exact Hp1.
    + cbn [timed_calls app].
      rewrite timed_calls_quiet by apply draws_quiet.
      cbn [timed_calls app negb].
      rewrite timed_calls_quiet by exact Hq1.
      cbn [timed_calls negb repeat]. rewrite Htimed. reflexivity.
Qed.

Lemma test_n__run (num_runs : N) (sh : shared P) (me : worker S) :
  (1 <= num_runs)%N ->
  elements (seq me) = [] ->
  let result :=
    to_int64 (to_uint64 (elapsed P (now_calls sh) (N.to_nat num_runs))
              / Z.of_N num_runs) in
  exists g me' es,
    run (test_n_ P num_vals num_runs) sh me =
    (Done result,
     {| gen := g;
        rd_calls := (rd_calls sh + N.to_nat num_runs)%nat;
        now_calls := (now_calls sh + 2 * N.to_nat num_runs)%nat |},
     me', es ++ [EvSetValue result]) /\
    elements (seq me') = [] /\
    promise me' = Some result /\
    timed_calls false es = repeat true (N.to_nat num_runs).
Proof.
  intros Hruns He result.
  destruct (test_n_loop_run (N.to_nat num_runs) 0 sh me He)
    as (g & me1 & es & Hrun & He1 & _ & Htimed).
  exists g, {| seq := seq me1; promise := Some result |}, es.
  split; [|split; [|split]].
  - unfold test_n_. step_bind. rewrite Hrun.
    unfold duration_div.
    replace (num_runs =? 0)%N with false
      by (symmetry; apply N.eqb_neq; lia).
    rewrite Z.add_0_l. reflexivity.
  - exact He1.
  - reflexivity.
  - exact Htimed.
Qed.

End Worker.

Lemma timed_calls_quiet_tail (running : bool) (es tail : list event) :
  forallb quiet tail = true ->
  timed_calls running (es ++ tail) = timed_calls running es.
Proof.
  intros Hq. revert running.
  induction es as [|e es IH]; intros running.
  - simpl. rewrite <- (app_nil_r tail).
    rewrite timed_calls_quiet by exact Hq. reflexivity.
  - destruct e; simpl; rewrite ?IH; reflexivity.
Qed.

Lemma test_n__no_runs (P : platform) (S : Type) (IS : IntegerSequence S)
  (num_vals : N) (sh : shared P) (me : worker S) :
  run (test_n_ P num_vals 0) sh me = (Crash UndefinedBehaviour, sh, me, []).
Proof. reflexivity. Qed.

(** C1 (the code departs from it).  The vector [removal_indices] that
    [test_n_] builds for a run on [num_vals] values holds [num_vals + 1]
    entries: first [num_vals] itself, from the list-initialisation, then
    the [num_vals] drawn indices, the [i]-th of them in
    [[0, num_vals - 1 - i]]; the last entry is 0. *)
Theorem removal_indices_shape (P : platform) (Hrange : uniform_in_range P)
  (num_vals : N) (Hsize_t : (num_vals <= SIZE_MAX)%N)
  (sh : shared P) (me : worker VectorAdaptor.t) :
  exists plan sh' es,
    run (make_removal_indices num_vals) sh me = (Done plan, sh', me, es) /\
    length plan = S (N.to_nat num_vals) /\
    nth_error plan 0 = Some num_vals /\
    (forall i, (i < N.to_nat num_vals)%nat ->
       exists r, nth_error plan (S i) = Some r /\
                 (r <= num_vals - 1 - N.of_nat i)%N) /\
    nth_error plan (N.to_nat num_vals) = Some 0%N.
Proof.
  rewrite (make_removal_indices_run P num_vals Hsize_t sh me).
  set (ds := fst (plan_draws P (N.to_nat num_vals) (gen sh))).
  assert (Hplan : plan_of num_vals ds
                  = plan_of (N.of_nat (N.to_nat num_vals)) ds)
    by (rewrite N2Nat.id; reflexivity).
  do 3 eexists. split; [reflexivity|].
  split; [|split; [|split]].
  - rewrite Hplan. apply plan_of_length. exact Hrange.
  - reflexivity.
  - intros i Hi.
    destruct (plan_draws_spec P Hrange (N.to_nat num_vals) (gen sh))
      as [_ Hnth].
    destruct (Hnth i Hi) as [r [Hr Hb]].
    exists (Z.to_N r). unfold plan_of. cbn [nth_error].
    fold ds in Hr. rewrite nth_error_map, Hr. split; [reflexivity|].
    simpl snd. lia.
  - rewrite Hplan. apply plan_of_last. exact Hrange.
Qed.

Lemma small_platform_in_range : uniform_in_range small_platform.
Proof.
  intros lo hi g Hle. simpl. unfold lcg_uniform. simpl fst.
  pose proof (Z.mod_pos_bound (g / 2 ^ 33) (hi - lo + 1)).
  lia.
Qed.

Lemma removal_indices_shape_witness :
  exists plan,
    fst (fst (fst (run (make_removal_indices 2) small_start
                       (fresh VectorAdaptor.default)))) = Done plan /\
    length plan = 3%nat /\ nth_error plan 0 = Some 2%N.
Proof.
  destruct (removal_indices_shape small_platform small_platform_in_range
              2%N ltac:(unfold SIZE_MAX; lia) small_start
              (fresh VectorAdaptor.default))
    as (plan & sh' & es & Hrun & Hlen & Hhead & _).
  exists plan. rewrite Hrun. split; [reflexivity|].
  split; [exact Hlen|exact Hhead].
Defined.

(** The plan [test_n_] builds for two values, on the small platform. *)
Example removal_indices_for_two :
  fst (fst (fst (run (make_removal_indices 2) small_start
                     (fresh VectorAdaptor.default))))
  = Done [2; 0; 0]%N.
Proof. vm_compute. reflexivity. Qed.

(** C6 (the code departs from it).  In [test_n_] every execution of the
    benchmark core happens with the clock running: there are exactly
    [num_runs] executions, all of them measured, and none before them. *)
Theorem test_n__runs_all_timed (P : platform) (Hrange : uniform_in_range P)
  (num_vals num_runs : N)
  (Hsize_t : (num_vals <= SIZE_MAX)%N)
  (Huniverse : (S (N.to_nat num_vals) <= length (INT_SET P))%nat)
  (sh : shared P) :
  timed_calls false
    (snd (run (test_n_ P num_vals num_runs) sh
              (fresh VectorAdaptor.default)))
  = repeat true (N.to_nat num_runs) /\
  timed_calls false
    (snd (run (test_n_ P num_vals num_runs) sh
              (fresh ListAdaptor.default)))
  = repeat true (N.to_nat num_runs).
Proof.
  destruct (N.eq_dec num_runs 0) as [->|Hruns].
  - split; reflexivity.
  - split.
    + destruct (test_n__run P Hrange num_vals Hsize_t Huniverse num_runs sh
                  (fresh VectorAdaptor.default))
        as (g & me' & es & -> & _ & _ & Htimed);
        [lia|reflexivity|].
      simpl snd. rewrite timed_calls_quiet_tail by reflexivity.
      exact Htimed.
    + destruct (test_n__run P Hrange num_vals Hsize_t Huniverse num_runs sh
                  (fresh ListAdaptor.default))
        as (g & me' & es & -> & _ & _ & Htimed);
        [lia|reflexivity|].
      simpl snd. rewrite timed_calls_quiet_tail by reflexivity.
      exact Htimed.
Qed.

Lemma test_n__runs_all_timed_witness :
  timed_calls false
    (snd (run (test_n_ small_platform 3 3) small_start
              (fresh VectorAdaptor.default)))
  = [true; true; true].
Proof.
  exact (proj1 (test_n__runs_all_timed small_platform
                  small_platform_in_range 3 3
                  ltac:(unfold SIZE_MAX; lia) ltac:(simpl; lia)
                  small_start)).
Defined.

(** On the small platform: three measured runs in [test_n_], against a
    warm-up and three measured runs in [test] of [ListVsVector.cpp]. *)
Example timed_calls_of_both_harnesses :
  timed_calls false
    (snd (run (test_n_ small_platform 2 3) small_start
              (fresh ListAdaptor.default)))
  = [true; true; true] /\
  timed_calls false
    (snd (run (ListVsVector.test (INT_SET small_platform) 2) small_start
              (fresh ListAdaptor.default)))
  = [false; true; true; true].
Proof. split; vm_compute; reflexivity. Qed.

(** C10.  [test_n_] divides the accumulated duration by [num_runs] without
    a guard: with [num_runs = 0] the division is by zero, whatever the
    adaptor and the other arguments, and a run that does return a mean had
    [num_runs >= 1]. *)
Theorem mean_needs_a_run (P : platform)
  (S : Type) (IS : IntegerSequence S)
  (num_vals num_runs : N) (sh : shared P) (me : worker S) (r : Z)
  (Hr : fst (fst (fst (run (test_n_ P num_vals num_runs) sh me)))
        = Done r) :
  (1 <= num_runs)%N /\
  run (test_n_ P num_vals 0) sh me = (Crash UndefinedBehaviour, sh, me, []) /\
  (forall avg, duration_div avg 0 = Crash UndefinedBehaviour).
Proof.
  split; [|split]; try reflexivity.
  destruct (N.eq_dec num_runs 0) as [->|Hruns]; [|lia].
  rewrite test_n__no_runs in Hr. discriminate Hr.
Qed.

Lemma mean_needs_a_run_witness :
  fst (fst (fst (run (test_n_ small_platform 3 2) small_start
                     (fresh VectorAdaptor.default)))) = Done 1000%Z /\
  (1 <= 2)%N.
Proof.
  assert (Hr : fst (fst (fst (run (test_n_ small_platform 3 2) small_start
                                  (fresh VectorAdaptor.default))))
               = Done 1000%Z) by (vm_compute; reflexivity).
  split; [exact Hr|].
  exact (proj1 (mean_needs_a_run small_platform VectorAdaptor.t _ 3 2
                  small_start (fresh VectorAdaptor.default) 1000%Z Hr)).
Defined.

(** C7.  When [num_vals] exceeds the number of values of the universe,
    [test_n] fails its assertion before anything runs: no worker is
    started and no shorter workload is carried out instead.  The core
    does the same for a plan longer than the universe: it fails its
    assertion before the first insertion. *)
Theorem test_n_asserts_universe (P : platform) (num_vals num_runs : N)
  (sh : shared P)
  (Hover : (N.of_nat (length (INT_SET P)) < num_vals)%N) :
  test_n P num_vals num_runs sh = (Crash AssertionFailed, sh, []) /\
  (forall plan : list N,
     N.of_nat (length plan) = num_vals ->
     run (test_n_core_ P plan) sh (fresh VectorAdaptor.default)
     = (Crash AssertionFailed, sh, fresh VectorAdaptor.default,
        [EvEnter "test_n_core_"]) /\
     run (test_n_core_ P plan) sh (fresh ListAdaptor.default)
     = (Crash AssertionFailed, sh, fresh ListAdaptor.default,
        [EvEnter "test_n_core_"])).
Proof.
  split.
  - unfold test_n, assert.
    replace (num_vals <=? N.of_nat (length (INT_SET P)))%N with false
      by (symmetry; apply N.leb_gt; exact Hover).
    reflexivity.
  - intros plan Hlen. unfold test_n_core_, passert, assert.
    rewrite Hlen.
    replace (num_vals <=? N.of_nat (length (INT_SET P)))%N with false
      by (symmetry; apply N.leb_gt; exact Hover).
    split; reflexivity.
Qed.

Lemma test_n_asserts_universe_witness :
  test_n small_platform 9 3 small_start
  = (Crash AssertionFailed, small_start, []).
Proof.
  apply (proj1 (test_n_asserts_universe small_platform 9 3 small_start
                  eq_refl)).
Defined.

(** ** The two workers and the process-wide generator *)

Lemma test_n__starts_with_seed (P : platform) (num_vals num_runs : N) :
  (1 <= num_runs)%N ->
  exists k, test_n_ P num_vals num_runs = Vis GenSeed k.
Proof.
  intros Hruns. unfold test_n_.
  destruct (N.to_nat num_runs) as [|todo] eqn:E; [lia|].
  cbn [test_n_loop act bind]. eexists. reflexivity.
Qed.

(** C9 (the code departs from it).  With at least one run, the two workers
    of [test_n] start by reseeding the one process-wide [gen]: their first
    actions are conflicting writes to it, so the call is not free of races
    on the generator. *)
Theorem workers_race_on_gen (P : platform) (num_vals num_runs : N)
  (sh : shared P) (Hruns : (1 <= num_runs)%N) :
  races_on LocGen (test_n_ P num_vals num_runs)
                  (test_n_ P num_vals num_runs) = true /\
  ~ race_free_on P LocGen num_vals num_runs sh.
Proof.
  assert (Hrace : races_on LocGen (test_n_ P num_vals num_runs)
                                  (test_n_ P num_vals num_runs) = true).
  { destruct (test_n__starts_with_seed P num_vals num_runs Hruns)
      as [k ->]. reflexivity. }
  split; [exact Hrace|].
  intros Hfree.
  specialize (Hfree _ _ _ _ _ (reaches_here P _ _ sh _ _)).
  rewrite Hrace in Hfree. discriminate Hfree.
Qed.

Lemma workers_race_on_gen_witness :
  races_on LocGen (test_n_ small_platform 2 DEFAULT_RUNS_PER_TEST)
                  (test_n_ small_platform 2 DEFAULT_RUNS_PER_TEST) = true.
Proof.
  exact (proj1 (workers_race_on_gen small_platform 2 DEFAULT_RUNS_PER_TEST
                  small_start ltac:(unfold DEFAULT_RUNS_PER_TEST; lia))).
Defined.

(** The trace of the two workers is that of their interleaving. *)
Lemma snd_run2 (P : platform) (S1 S2 : Type)
  (IS1 : IntegerSequence S1) (IS2 : IntegerSequence S2) (A B : Type)
  (sched : list thread) (p1 : prog A) (p2 : prog B)
  (sh : shared P) (w1 : worker S1) (w2 : worker S2) :
  snd (run2 sched p1 p2 sh w1 w2) = snd (interleave sched p1 p2 sh w1 w2).
Proof.
  unfold run2.
  destruct (interleave sched p1 p2 sh w1 w2) as [[[[r s] m1] m2] es].
  reflexivity.
Qed.

(** What the sharing does to the plans: when the list worker reseeds
    between the vector worker's reseeding and its first draw, the vector
    worker's first index comes from the seed the list worker took. *)
Lemma vec_draws_from_list_seed (P : platform) (num_vals num_runs : N)
  (sh : shared P) (sched : list thread) :
  (1 <= num_runs)%N -> (1 <= num_vals <= SIZE_MAX)%N ->
  let hi := Z.of_N (num_vals - 1) in
  let s_vec := random_device P (rd_calls sh) in
  let s_list := random_device P (S (rd_calls sh)) in
  exists es,
    snd (run2 (vec_thread :: list_thread :: vec_thread :: sched)
              (test_n_ P num_vals num_runs) (test_n_ P num_vals num_runs)
              sh (fresh VectorAdaptor.default) (fresh ListAdaptor.default))
    = (vec_thread, EvSeed s_vec)
      :: (list_thread, EvSeed s_list)
      :: (vec_thread,
          EvDraw 0 hi (fst (engine_uniform P 0 hi (engine_seed P s_list))))
      :: es.
Proof.
  intros Hruns [Hlo Hhi] hi s_vec s_list.
  rewrite snd_run2. unfold test_n_.
  destruct (N.to_nat num_runs) as [|todo] eqn:E; [lia|].
  cbn [test_n_loop act bind]. unfold make_removal_indices.
  assert (Hpred : size_t_pred num_vals = (num_vals - 1)%N).
  { rewrite <- (size_t_pred_succ (num_vals - 1)) by lia.
    f_equal. lia. }
  rewrite Hpred.
  cbn [countdown].
  replace (num_vals - 1 <? SIZE_MAX)%N with true
    by (symmetry; apply N.ltb_lt; lia).
  unfold utils.random_size_t, act. cbn [bind].
  cbn [interleave perform gen rd_calls now_calls].
  replace (Z.of_N (num_vals - 1) <? Z.of_N 0)%Z with false
    by (symmetry; apply Z.ltb_ge; lia).
  change (Z.of_N 0) with 0%Z. fold hi. fold s_vec. fold s_list.
  destruct (engine_uniform P 0 hi (engine_seed P s_list)) as [r g].
  match goal with
  | |- context [interleave sched ?p1 ?p2 ?s ?w1 ?w2] =>
      destruct (interleave sched p1 p2 s w1 w2)
        as [[[[r' s'] w1'] w2'] es]
  end.
  exists es. reflexivity.
Qed.

(** On the small platform the plan of the vector worker changes with the
    interleaving: alone it draws 1, 1, 0; when the list worker reseeds
    after it, 0, 1, 0. *)
Example plan_depends_on_schedule :
  vec_draws
    (snd (run2 [] (test_n_ small_platform 3 1) (test_n_ small_platform 3 1)
               small_start (fresh VectorAdaptor.default)
               (fresh ListAdaptor.default)))
  = [1; 1; 0]%Z /\
  vec_draws
    (snd (run2 [vec_thread; list_thread]
               (test_n_ small_platform 3 1) (test_n_ small_platform 3 1)
               small_start (fresh VectorAdaptor.default)
               (fresh ListAdaptor.default)))
  = [0; 1; 0]%Z.
Proof. split; vm_compute; reflexivity. Qed.

(** ** The command line *)

Lemma parse_one_argument (a0 a1 : string) :
  lvv_parse_args [a0; a1] =
  match stoi a1 with
  | inl e => Throws e
  | inr tests =>
      if (tests <? 0)%Z
      then Exits 1 ["Number of tests must be non-negative"%string]
      else if (MAX_TESTS <? tests)%Z
      then Exits 1 ["Number of tests must be less than 1000000"%string]
      else Returns (Z.to_N tests)
  end.
Proof. reflexivity. Qed.

Lemma parse_many_arguments (a0 a1 a2 : string) (rest : list string) :
  lvv_parse_args (a0 :: a1 :: a2 :: rest) = Exits 1 [usage a0].
Proof. reflexivity. Qed.

(** An exception of [stoi] is not caught: the process is terminated, the
    error stream gets the report of the run-time library and no message of
    the program, and [out.csv] is not opened. *)
Lemma main_stoi_throws (P : platform) (a0 a1 : string) (sh : shared P)
  (e : exception) :
  stoi a1 = inl e ->
  main P [a0; a1] sh
  = Done {| status := Aborted (Uncaught e);
            cerr := [Diagnostic (Uncaught e)]; out_csv := None |}.
Proof.
  intros Hs. unfold main. rewrite parse_one_argument, Hs. reflexivity.
Qed.

(** With no test to run, [main] writes the header and exits. *)
Lemma main_no_tests (P : platform) (argv : list string) (sh : shared P) :
  lvv_parse_args argv = Returns 0 ->
  main P argv sh
  = Done {| status := Exited 0; cerr := []; out_csv := Some [Header] |}.
Proof. intros Hargs. unfold main. rewrite Hargs. reflexivity. Qed.

(** Once [lvv_parse_args] has returned, [out.csv] is opened and the
    program writes no message. *)
Lemma main_after_parsing (P : platform) (argv : list string)
  (sh : shared P) (num_tests : N) (p : process) :
  lvv_parse_args argv = Returns num_tests ->
  main P argv sh = Done p ->
  out_csv p <> None /\ forall text, ~ In (Message text) (cerr p).
Proof.
  intros Hargs. unfold main. rewrite Hargs.
  destruct (test_block P 0 num_tests sh _) as [[r s] out].
  destruct r as [[]|f].
  - intros Hp. injection Hp as <-. simpl.
    split; [discriminate|]. intros text [].
  - destruct f; simpl; intros Hp; try discriminate Hp;
      injection Hp as <-; simpl;
      (split; [discriminate|]); intros text [Hd|[]]; discriminate Hd.
Qed.

(** An argument is read up to its first non-digit: what follows a leading
    integer is ignored and the sweep is started. *)
Lemma main_accepts_prefix (a0 a1 : string) (tests : Z) :
  stoi a1 = inr tests -> (0 <= tests <= MAX_TESTS)%Z ->
  lvv_parse_args [a0; a1] = Returns (Z.to_N tests).
Proof.
  intros Hs Hb. rewrite parse_one_argument, Hs.
  replace (tests <? 0)%Z with false by (symmetry; apply Z.ltb_ge; lia).
  replace (MAX_TESTS <? tests)%Z with false
    by (symmetry; apply Z.ltb_ge; lia).
  reflexivity.
Qed.

(** On decimal integers that fit an [int], [stoi] is the value. *)
Lemma take_digits_all (s : string) (acc : Z) (seen : bool) :
  all_digits s = true ->
  (seen = true \/ s <> EmptyString) ->
  exists m, take_digits s acc seen = Some m.
Proof.
  revert acc seen. induction s as [|c s IH]; intros acc seen Hd Hs; simpl.
  - destruct Hs as [->|Hs]; [eexists; reflexivity|congruence].
  - simpl in Hd. destruct (digit_value c) as [d|]; [|discriminate].
    apply IH; [exact Hd|left; reflexivity].
Qed.

Lemma digit_not_space (c : ascii) (d : Z) :
  digit_value c = Some d -> isspace c = false.
Proof.
  unfold digit_value, isspace.
  destruct ((48 <=? N_of_ascii c) && (N_of_ascii c <=? 57))%N eqn:E;
    [|discriminate].
  intros _. apply andb_prop in E. destruct E as [E1 E2].
  apply N.leb_le in E1. apply N.leb_le in E2.
  apply orb_false_iff. split.
  - apply N.eqb_neq. lia.
  - apply andb_false_iff. right. apply N.leb_gt. lia.
Qed.

Lemma stoi_integer (s : string) (v : Z) :
  integer_of s = Some v -> (INT_MIN <= v <= INT_MAX)%Z ->
  stoi s = inr v.
Proof.
  unfold integer_of, is_integer, stoi. intros Hi Hb.
  assert (Hskip : skip_spaces s = s).
  { destruct s as [|c s]; [reflexivity|].
    simpl. destruct (isspace c) eqn:Esp; [|reflexivity].
    exfalso.
    destruct (Ascii.eqb c "-"%char) eqn:Em.
    { apply Ascii.eqb_eq in Em. subst c. discriminate Esp. }
    destruct (Ascii.eqb c "+"%char) eqn:Ep.
    { apply Ascii.eqb_eq in Ep. subst c. discriminate Esp. }
    assert (Hsign : take_sign (String c s) = (false, String c s)).
    { apply Ascii.eqb_neq in Em. apply Ascii.eqb_neq in Ep.
      unfold take_sign.
      destruct c as [[] [] [] [] [] [] [] []]; try reflexivity;
        congruence. }
    rewrite Hsign in Hi. simpl in Hi.
    destruct (digit_value c) as [d|] eqn:Ed; [|discriminate].
    rewrite (digit_not_space c d Ed) in Esp. discriminate. }
  rewrite Hskip.
  destruct (take_sign s) as [negative digits].
  destruct (negb (String.eqb digits EmptyString) && all_digits digits);
    [|discriminate].
  destruct (take_digits digits 0 false) as [m|]; [|discriminate].
  injection Hi as <-.
  replace ((_ <? INT_MIN) || (INT_MAX <? _))%Z with false; [reflexivity|].
  symmetry. apply orb_false_iff. split; apply Z.ltb_ge; lia.
Qed.

(** C8 as the code has it.  A command line with more than one positional
    argument gets the usage line on the error stream; one argument that
    [stoi] reads as a negative value gets the message that the number
    must be non-negative, and one that it reads as a value above
    [MAX_TESTS] the message that it must be less than 1000000: in the
    three cases this is the only line, the exit status is 1 and
    [out.csv] is not opened.  An argument on which [stoi] raises an
    exception ends the process by that exception: the error stream holds
    the report of the run-time library and no message of the program,
    and [out.csv] is not opened.  An argument that [stoi] reads as a
    value of [[0, MAX_TESTS]] is accepted, whatever follows its digits:
    the program writes no message and opens [out.csv]; for the value 0
    it writes the header and exits with status 0. *)
Theorem parser_refusals (P : platform) (argv : list string)
  (sh : shared P) :
  ((2 < length argv)%nat ->
   main P argv sh
   = Done {| status := Exited 1;
             cerr := [Message (usage (nth 0 argv EmptyString))];
             out_csv := None |}) /\
  (forall a0 a1 tests,
     argv = [a0; a1] -> stoi a1 = inr tests -> (tests < 0)%Z ->
     main P argv sh
     = Done {| status := Exited 1;
               cerr := [Message "Number of tests must be non-negative"];
               out_csv := None |}) /\
  (forall a0 a1 tests,
     argv = [a0; a1] -> stoi a1 = inr tests -> (MAX_TESTS < tests)%Z ->
     main P argv sh
     = Done {| status := Exited 1;
               cerr := [Message
                          "Number of tests must be less than 1000000"];
               out_csv := None |}) /\
  (rejected_by_parser argv = true -> refused (main P argv sh)) /\
  (forall a0 a1 e,
     argv = [a0; a1] -> stoi a1 = inl e ->
     main P argv sh
     = Done {| status := Aborted (Uncaught e);
               cerr := [Diagnostic (Uncaught e)]; out_csv := None |}) /\
  (forall a0 a1 tests,
     argv = [a0; a1] -> stoi a1 = inr tests ->
     (0 <= tests <= MAX_TESTS)%Z ->
     lvv_parse_args argv = Returns (Z.to_N tests) /\
     (tests = 0%Z ->
      main P argv sh
      = Done {| status := Exited 0; cerr := [];
                out_csv := Some [Header] |}) /\
     (forall p, main P argv sh = Done p ->
                out_csv p <> None /\
                forall text, ~ In (Message text) (cerr p))).
Proof.
  assert (Hmany : (2 < length argv)%nat ->
            main P argv sh
            = Done {| status := Exited 1;
                      cerr := [Message (usage (nth 0 argv EmptyString))];
                      out_csv := None |}).
  { intros Hlen.
    destruct argv as [|a0 [|a1 [|a2 rest]]]; try (simpl in Hlen; lia).
    unfold main. rewrite parse_many_arguments. reflexivity. }
  assert (Hneg : forall a0 a1 tests,
            argv = [a0; a1] -> stoi a1 = inr tests -> (tests < 0)%Z ->
            main P argv sh
            = Done {| status := Exited 1;
                      cerr := [Message
                                 "Number of tests must be non-negative"];
                      out_csv := None |}).
  { intros a0 a1 tests -> Hs Hlt.
    unfold main. rewrite parse_one_argument, Hs.
    replace (tests <? 0)%Z with true by (symmetry; apply Z.ltb_lt; lia).
    reflexivity. }
  assert (Hbig : forall a0 a1 tests,
            argv = [a0; a1] -> stoi a1 = inr tests ->
            (MAX_TESTS < tests)%Z ->
            main P argv sh
            = Done {| status := Exited 1;
                      cerr := [Message
                                 "Number of tests must be less than 1000000"];
                      out_csv := None |}).
  { intros a0 a1 tests -> Hs Hgt.
    unfold main. rewrite parse_one_argument, Hs.
    replace (tests <? 0)%Z with false
      by (symmetry; apply Z.ltb_ge; unfold MAX_TESTS in Hgt; lia).
    replace (MAX_TESTS <? tests)%Z with true
      by (symmetry; apply Z.ltb_lt; lia).
    reflexivity. }
  split; [exact Hmany|]. split; [exact Hneg|]. split; [exact Hbig|].
  split; [|split].
  - intros Hrej. unfold rejected_by_parser in Hrej.
    assert (Hline : exists text,
               main P argv sh
               = Done {| status := Exited 1; cerr := [Message text];
                         out_csv := None |}).
    { destruct (2 <? length argv)%nat eqn:Elen.
      - apply Nat.ltb_lt in Elen. eexists. exact (Hmany Elen).
      - cbn [orb] in Hrej. apply andb_prop in Hrej.
        destruct Hrej as [Htwo Hval]. apply Nat.eqb_eq in Htwo.
        destruct argv as [|a0 [|a1 [|a2 rest]]]; try discriminate Htwo.
        cbn [nth] in Hval.
        destruct (stoi a1) as [e|tests] eqn:Es; [discriminate Hval|].
        apply orb_prop in Hval. destruct Hval as [Hv|Hv].
        + apply Z.ltb_lt in Hv. eexists.
          exact (Hneg a0 a1 tests eq_refl Es Hv).
        + apply Z.ltb_lt in Hv. eexists.
          exact (Hbig a0 a1 tests eq_refl Es Hv). }
    destruct Hline as [text ->].
    eexists. split; [reflexivity|]. cbn [status cerr out_csv].
    split; [|split].
    + exists 1%Z. split; [reflexivity|discriminate].
    + exists text. left. reflexivity.
    + reflexivity.
  - intros a0 a1 e -> Hs. apply main_stoi_throws. exact Hs.
  - intros a0 a1 tests -> Hs Hb.
    pose proof (main_accepts_prefix a0 a1 tests Hs Hb) as Hargs.
    split; [exact Hargs|]. split.
    + intros ->. apply main_no_tests. exact Hargs.
    + intros p Hp.
      exact (main_after_parsing P [a0; a1] sh (Z.to_N tests) p Hargs Hp).
Qed.

Lemma parser_refusals_witness :
  rejected_by_parser ["lvv"; "1000001"]%string = true /\
  main small_platform ["lvv"; "1000001"]%string small_start
  = Done {| status := Exited 1;
            cerr := [Message "Number of tests must be less than 1000000"];
            out_csv := None |}.
Proof.
  split; [reflexivity|].
  apply (proj1 (proj2 (proj2 (parser_refusals small_platform
                                ["lvv"; "1000001"]%string small_start)))
           "lvv"%string "1000001"%string 1000001%Z eq_refl eq_refl).
  unfold MAX_TESTS. lia.
Defined.

(** C8 as stated fails.  The argument [0x] is not an integer, yet it is
    read as 0: no message is written, [out.csv] is written with its
    header and the exit status is 0; likewise [5x] is accepted as 5.  The
    argument [abc] ends the process by the uncaught exception of [stoi],
    with no usage message of the program. *)
Lemma non_integer_not_refused :
  must_refuse ["lvv"; "0x"]%string = true /\
  main small_platform ["lvv"; "0x"]%string small_start
  = Done {| status := Exited 0; cerr := []; out_csv := Some [Header] |} /\
  ~ refused (main small_platform ["lvv"; "0x"]%string small_start) /\
  must_refuse ["lvv"; "5x"]%string = true /\
  lvv_parse_args ["lvv"; "5x"]%string = Returns 5 /\
  must_refuse ["lvv"; "abc"]%string = true /\
  main small_platform ["lvv"; "abc"]%string small_start
  = Done {| status := Aborted (Uncaught invalid_argument);
            cerr := [Diagnostic (Uncaught invalid_argument)];
            out_csv := None |} /\
  ~ refused (main small_platform ["lvv"; "abc"]%string small_start).
Proof.
  assert (H0 : main small_platform ["lvv"; "0x"]%string small_start
               = Done {| status := Exited 0; cerr := [];
                         out_csv := Some [Header] |})
    by (vm_compute; reflexivity).
  assert (Habc : main small_platform ["lvv"; "abc"]%string small_start
                 = Done {| status := Aborted (Uncaught invalid_argument);
                           cerr := [Diagnostic (Uncaught invalid_argument)];
                           out_csv := None |})
    by (vm_compute; reflexivity).
  split; [reflexivity|]. split; [exact H0|]. split; [|split; [|split]].
  - rewrite H0. intros (p & Hp & _ & _ & Hout).
    injection Hp as <-. discriminate Hout.
  - reflexivity.
  - reflexivity.
  - split; [reflexivity|]. split; [exact Habc|].
    rewrite Habc. intros (p & Hp & _ & [text Hin] & _).
    injection Hp as <-. destruct Hin as [Hd|[]]. discriminate Hd.
Qed.

(** ** The sequential harness warms up *)

Section Sequential.

Variable P : platform.
Hypothesis Hrange : uniform_in_range P.
Context {Q : Type} `{LawfulSequence Q}.

Lemma run_fill (s : list Z) (todo : nat) (sh : shared P) (me : worker Q) :
  (todo <= length s)%nat ->
  exists es,
    run (ListVsVector.fill s todo) sh me
    = (Done tt, sh,
       {| seq := fold_left (fun q x => insert_numerical x q)
                           (firstn todo s) (seq me);
          promise := promise me |}, es) /\
    forallb quiet es = true.
Proof.
  revert s sh me. induction todo as [|todo IH]; intros s sh me Hs.
  - exists []. destruct me. split; reflexivity.
  - destruct s as [|x s]; simpl in Hs; [lia|].
    destruct (IH s sh {| seq := insert_numerical x (seq me);
                         promise := promise me |}) as [es [Hrun Hq]];
      [lia|].
    exists (EvInsert x (elements (insert_numerical x (seq me))) :: es).
    cbn [ListVsVector.fill act bind run perform firstn fold_left].
    simpl in Hrun. rewrite Hrun. split; [reflexivity|exact Hq].
Qed.

Lemma int_of_size_t_small (m : nat) :
  (Z.of_nat m < 2 ^ 31)%Z ->
  ListVsVector.int_of_size_t (N.of_nat m) = Z.of_nat m.
Proof.
  intros Hm. unfold ListVsVector.int_of_size_t.
  rewrite nat_N_Z, Z.mod_small by lia.
  replace (Z.of_nat m <? 2 ^ 31)%Z with true
    by (symmetry; apply Z.ltb_lt; exact Hm).
  reflexivity.
Qed.

Lemma run_drain (m : nat) (fuel : nat) (sh : shared P) (me : worker Q) :
  length (elements (seq me)) = m ->
  (m < fuel)%nat -> (Z.of_nat m <= 2 ^ 31)%Z ->
  exists g me' es,
    run (ListVsVector.drain fuel) sh me
    = (Done tt,
       {| gen := g; rd_calls := rd_calls sh; now_calls := now_calls sh |},
       me', es) /\
    elements (seq me') = [] /\
    promise me' = promise me /\
    forallb quiet es = true.
Proof.
  revert fuel sh me.
  induction m as [|m IH]; intros fuel sh me Hlen Hfuel Hint;
    (destruct fuel as [|fuel]; [lia|]).
  - apply length_zero_iff_nil in Hlen.
    exists (gen sh), me, [EvEmpty true].
    cbn [ListVsVector.drain act bind run perform].
    rewrite empty_elements, Hlen. destruct sh.
    repeat split.
  - cbn [ListVsVector.drain act bind run perform].
    rewrite empty_elements.
    destruct (elements (seq me)) as [|x xs] eqn:Ee; [discriminate Hlen|].
    unfold utils.random_int, act.
    cbn [bind run perform].
    rewrite size_elements, Ee, Hlen, Nat2N.inj_succ,
      size_t_pred_succ, int_of_size_t_small
      by (unfold SIZE_MAX; lia).
    replace (Z.of_nat m <? 0)%Z with false
      by (symmetry; apply Z.ltb_ge; lia).
    pose proof (Hrange 0%Z (Z.of_nat m) (gen sh) ltac:(lia)) as Hr.
    destruct (engine_uniform P 0 (Z.of_nat m) (gen sh)) as [r g'].
    simpl fst in Hr. cbn [bind run perform gen rd_calls now_calls].
    assert (Hidx : N.to_nat (ListVsVector.size_t_of_int r) = Z.to_nat r).
    { unfold ListVsVector.size_t_of_int.
      rewrite Z.mod_small by lia. apply Z_N_nat. }
    pose proof (remove_elements (ListVsVector.size_t_of_int r) (seq me))
      as Hrem.
    rewrite Hidx, Ee in Hrem.
    destruct (remove (ListVsVector.size_t_of_int r) (seq me)) as [q|f].
    + destruct Hrem as [Hlt Heq]. cbn [obind seq promise].
      destruct (IH fuel {| gen := g'; rd_calls := rd_calls sh;
                           now_calls := now_calls sh |}
                   {| seq := q; promise := promise me |})
        as (g & me' & es & Hrun & He & Hp & Hq).
      * cbn [seq]. rewrite Heq, remove_at_length by exact Hlt.
        simpl in Hlen. simpl. lia.
      * lia.
      * lia.
      * rewrite Hrun. cbn [gen rd_calls now_calls].
        exists g, me'. eexists.
        split; [reflexivity|]. split; [exact He|].
        split; [exact Hp|exact Hq].
    + destruct Hrem as [_ Hge]. simpl in Hlen, Hge. lia.
Qed.

Lemma run__test (s : list Z) (test_num : N)
  (sh : shared P) (me : worker Q) :
  (N.to_nat test_num <= length s)%nat ->
  (Z.of_N test_num <= 2 ^ 31)%Z ->
  elements (seq me) = [] ->
  exists g me' es,
    run (ListVsVector._test s test_num) sh me
    = (Done tt,
       {| gen := g; rd_calls := rd_calls sh; now_calls := now_calls sh |},
       me', EvEnter "_test" :: es) /\
    elements (seq me') = [] /\
    promise me' = promise me /\
    forallb quiet es = true.
Proof.
  intros Hs Hint He.
  destruct (run_fill s (N.to_nat test_num) sh me Hs) as [es1 [Hrun1 Hq1]].
  set (me1 := {| seq := _; promise := _ |}) in Hrun1.
  destruct (run_drain (N.to_nat test_num) (S (N.to_nat test_num)) sh me1)
    as (g & me' & es2 & Hrun2 & He2 & Hp2 & Hq2).
  { subst me1. cbn [seq]. rewrite fill_length, He, length_firstn.
    simpl. lia. }
  { lia. }
  { lia. }
  exists g, me', (es1 ++ es2).
  split; [|split; [|split]].
  - unfold ListVsVector._test. unfold act at 1.
    cbn [bind run perform]. step_bind. rewrite Hrun1, Hrun2. reflexivity.
  - exact He2.
  - exact Hp2.
  - rewrite forallb_app, Hq1, Hq2. reflexivity.
Qed.

Variable s : list Z.
Variable test_num : N.
Hypothesis Hs : (N.to_nat test_num <= length s)%nat.
Hypothesis Hint : (Z.of_N test_num <= 2 ^ 31)%Z.

Lemma run_test_loop (todo : nat) (avg : Z) (sh : shared P) (me : worker Q) :
  elements (seq me) = [] ->
  exists r sh' me' es,
    run (ListVsVector.test_loop s test_num todo avg) sh me
    = (Done r, sh', me', es) /\
    timed_calls false es = repeat true todo.
Proof.
  revert avg sh me. induction todo as [|todo IH]; intros avg sh me He.
  - exists avg, sh, me, []. split; reflexivity.
  - cbn [ListVsVector.test_loop]. unfold act at 1 2.
    cbn [bind run perform]. step_bind.
    destruct (run__test s test_num
                {| gen := engine_seed P (random_device P (rd_calls sh));
                   rd_calls := S (rd_calls sh);
                   now_calls := S (now_calls sh) |} me Hs Hint He)
      as (g & me1 & es1 & Hrun1 & He1 & _ & Hq1).
    cbn [gen rd_calls now_calls] in *. rewrite Hrun1.
    unfold act at 1. cbn [bind run perform gen rd_calls now_calls].
    match goal with
    | |- context [run (ListVsVector.test_loop s test_num todo ?a) ?h me1] =>
        destruct (IH a h me1 He1) as (r & sh' & me' & es & Hrun & Ht)
    end.
    rewrite Hrun.
    exists r, sh', me'. eexists. split; [reflexivity|].
    cbn [timed_calls app negb].
    rewrite timed_calls_quiet by exact Hq1.
    cbn [timed_calls negb repeat]. rewrite Ht. reflexivity.
Qed.

(** [test] of [ListVsVector.cpp] enters [_test] once with the clock
    stopped, then [NUM_RUNS] times with the clock running. *)
Lemma test_warms_up (sh : shared P) (me : worker Q) :
  elements (seq me) = [] ->
  timed_calls false (snd (run (ListVsVector.test s test_num) sh me))
  = false :: repeat true (N.to_nat ListVsVector.NUM_RUNS).
Proof.
  intros He. unfold ListVsVector.test. step_bind.
  destruct (run__test s test_num sh me Hs Hint He)
    as (g & me1 & es1 & Hrun1 & He1 & _ & Hq1).
  rewrite Hrun1. step_bind.
  match goal with
  | |- context [run (ListVsVector.test_loop s test_num ?n ?a) ?h me1] =>
      destruct (run_test_loop n a h me1 He1)
        as (r & sh' & me' & es & Hrun & Ht)
  end.
  rewrite Hrun. cbn [lift duration_div ListVsVector.NUM_RUNS N.eqb run].
  cbn [snd app timed_calls].
  rewrite timed_calls_quiet by exact Hq1.
  rewrite app_nil_r. rewrite Ht. reflexivity.
Qed.

End Sequential.

(** * Further properties of the sources *)

(** ** The adaptors: where a value goes, and taking it out again *)

Lemma insert_sorted_at (n : Z) (xs : list Z) :
  insert_sorted n xs
  = firstn (insertion_index n xs) xs ++ n :: skipn (insertion_index n xs) xs.
Proof.
  induction xs as [|x xs IH]; simpl; [reflexivity|].
  destruct (x <? n)%Z; simpl; [rewrite IH|]; reflexivity.
Qed.

Lemma insertion_index_le (n : Z) (xs : list Z) :
  (insertion_index n xs <= length xs)%nat.
Proof.
  induction xs as [|x xs IH]; simpl; [lia|].
  destruct (x <? n)%Z; lia.
Qed.

Lemma insertion_index_below (n : Z) (xs : list Z) :
  Forall (fun x => (x < n)%Z) (firstn (insertion_index n xs) xs).
Proof.
  induction xs as [|x xs IH]; simpl; [constructor|].
  destruct (x <? n)%Z eqn:E; simpl; [|constructor].
  constructor; [apply Z.ltb_lt; exact E|exact IH].
Qed.

Lemma remove_at_insert_sorted (n : Z) (xs : list Z) :
  remove_at (insertion_index n xs) (insert_sorted n xs) = xs.
Proof.
  induction xs as [|x xs IH]; simpl; [reflexivity|].
  destruct (x <? n)%Z; [|reflexivity].
  change (remove_at (S (insertion_index n xs)) (x :: insert_sorted n xs))
    with (x :: remove_at (insertion_index n xs) (insert_sorted n xs)).
  rewrite IH. reflexivity.
Qed.

Lemma nth_insert_sorted (n : Z) (xs : list Z) :
  nth_error (insert_sorted n xs) (insertion_index n xs) = Some n.
Proof.
  induction xs as [|x xs IH]; simpl; [reflexivity|].
  destruct (x <? n)%Z; [exact IH|reflexivity].
Qed.

Section LawfulRoundTrips.

Context {S : Type} `{LawfulSequence S}.

Lemma insert_then_remove_elements (n : Z) (s : S) :
  exists s',
    remove (N.of_nat (insertion_index n (elements s)))
           (insert_numerical n s) = Done s' /\
    elements s' = elements s.
Proof.
  pose proof (remove_elements
                (N.of_nat (insertion_index n (elements s)))
                (insert_numerical n s)) as Hr.
  rewrite insert_numerical_elements, Nat2N.id in Hr.
  destruct (remove _ (insert_numerical n s)) as [s'|f].
  - exists s'. split; [reflexivity|].
    destruct Hr as [_ ->]. apply remove_at_insert_sorted.
  - destruct Hr as [_ Hge].
    rewrite insert_sorted_length in Hge.
    pose proof (insertion_index_le n (elements s)). lia.
Qed.

Lemma remove_undefined_iff_elements (i : N) (s : S) :
  remove i s = Crash UndefinedBehaviour <-> (size s <= i)%N.
Proof.
  rewrite size_elements.
  pose proof (remove_elements i s) as Hr.
  destruct (remove i s) as [s'|f].
  - destruct Hr as [Hlt _]. split; [discriminate|lia].
  - destruct Hr as [-> Hge]. split; [lia|reflexivity].
Qed.

End LawfulRoundTrips.

(** X1.  For both adaptors and any contents, [insert_numerical(n)] puts
    [n] right after the leading elements below [n], and [remove] at that
    index gives the sequence back as it was. *)
Theorem insert_then_remove (n : Z)
  (sv : VectorAdaptor.t) (sl : ListAdaptor.t) :
  let kv := insertion_index n (elements sv) in
  let kl := insertion_index n (elements sl) in
  nth_error (elements (insert_numerical n sv)) kv = Some n /\
  Forall (fun x => (x < n)%Z) (firstn kv (elements (insert_numerical n sv))) /\
  remove (N.of_nat kv) (insert_numerical n sv) = Done sv /\
  nth_error (elements (insert_numerical n sl)) kl = Some n /\
  Forall (fun x => (x < n)%Z) (firstn kl (elements (insert_numerical n sl))) /\
  remove (N.of_nat kl) (insert_numerical n sl) = Done sl.
Proof.
  intros kv kl.
  assert (Hprefix : forall xs,
             firstn (insertion_index n xs) (insert_sorted n xs)
             = firstn (insertion_index n xs) xs).
  { intros xs. rewrite insert_sorted_at at 1.
    rewrite firstn_app, firstn_firstn, Nat.min_id.
    rewrite length_firstn.
    pose proof (insertion_index_le n xs).
    replace (insertion_index n xs
             - Nat.min (insertion_index n xs) (length xs))%nat
      with 0%nat by lia.
    simpl. apply app_nil_r. }
  split; [|split; [|split; [|split; [|split]]]].
  - subst kv. rewrite insert_numerical_elements. apply nth_insert_sorted.
  - subst kv. rewrite insert_numerical_elements, Hprefix.
    apply insertion_index_below.
  - destruct (insert_then_remove_elements n sv) as [s' [Hr He]].
    subst kv. rewrite Hr. destruct s', sv. simpl in He. subst. reflexivity.
  - subst kl. rewrite insert_numerical_elements. apply nth_insert_sorted.
  - subst kl. rewrite insert_numerical_elements, Hprefix.
    apply insertion_index_below.
  - destruct (insert_then_remove_elements n sl) as [s' [Hr He]].
    subst kl. rewrite Hr. destruct s', sl. simpl in He. subst. reflexivity.
Qed.

Lemma insert_sorted_le (n : Z) (xs : list Z) :
  StronglySorted Z.le xs -> StronglySorted Z.le (insert_sorted n xs).
Proof.
  induction xs as [|x xs IH]; intros Hs; simpl.
  - constructor; constructor.
  - inversion Hs as [|? ? Hs' Hall]; subst.
    destruct (x <? n)%Z eqn:E.
    + constructor; [apply IH; exact Hs'|].
      apply Forall_forall. intros y Hy.
      apply (Permutation_in _ (insert_sorted_perm n xs)) in Hy.
      destruct Hy as [<-|Hy].
      * apply Z.ltb_lt in E. lia.
      * rewrite Forall_forall in Hall. apply Hall. exact Hy.
    + apply Z.ltb_ge in E.
      constructor; [exact Hs|].
      constructor; [exact E|].
      rewrite Forall_forall in *. intros y Hy.
      specialize (Hall y Hy). lia.
Qed.

(** X2.  [insert_numerical] does not need distinct values: on a sequence
    in non-decreasing order it keeps the order non-decreasing, adds exactly
    the one value (a value already present is stored once more) and puts
    it before its equals. *)
Theorem insert_numerical_keeps_duplicates (n : Z)
  (sv : VectorAdaptor.t) (sl : ListAdaptor.t)
  (Hv : StronglySorted Z.le (elements sv))
  (Hl : StronglySorted Z.le (elements sl)) :
  StronglySorted Z.le (elements (insert_numerical n sv)) /\
  Permutation (elements (insert_numerical n sv)) (n :: elements sv) /\
  size (insert_numerical n sv) = (size sv + 1)%N /\
  StronglySorted Z.le (elements (insert_numerical n sl)) /\
  Permutation (elements (insert_numerical n sl)) (n :: elements sl) /\
  size (insert_numerical n sl) = (size sl + 1)%N /\
  elements (insert_numerical n (insert_numerical n sv))
  = firstn (insertion_index n (elements sv)) (elements sv)
    ++ n :: n :: skipn (insertion_index n (elements sv)) (elements sv).
Proof.
  assert (Hsize : forall xs, N.of_nat (length (insert_sorted n xs))
                             = (N.of_nat (length xs) + 1)%N)
    by (intros xs; rewrite insert_sorted_length; lia).
  split; [|split; [|split; [|split; [|split; [|split]]]]].
  - rewrite insert_numerical_elements. apply insert_sorted_le. exact Hv.
  - rewrite insert_numerical_elements. apply insert_sorted_perm.
  - rewrite !size_elements, insert_numerical_elements. apply Hsize.
  - rewrite insert_numerical_elements. apply insert_sorted_le. exact Hl.
  - rewrite insert_numerical_elements. apply insert_sorted_perm.
  - rewrite !size_elements, insert_numerical_elements. apply Hsize.
  - rewrite !insert_numerical_elements.
    generalize (elements sv). intros xs.
    induction xs as [|x xs IH]; simpl.
    + rewrite Z.ltb_irrefl. reflexivity.
    + destruct (x <? n)%Z eqn:E; simpl; rewrite ?E.
      * rewrite IH. reflexivity.
      * rewrite Z.ltb_irrefl. reflexivity.
Qed.

Lemma insert_numerical_keeps_duplicates_witness :
  elements (insert_numerical 4%Z (ListAdaptor.Build [1; 4; 4; 7]%Z))
  = [1; 4; 4; 4; 7]%Z /\
  StronglySorted Z.le
    (elements (insert_numerical 4%Z (ListAdaptor.Build [1; 4; 4; 7]%Z))).
Proof.
  split; [reflexivity|].
  assert (Hs : StronglySorted Z.le [1; 4; 4; 7]%Z).
  { repeat (constructor; [|repeat constructor; lia]). constructor. }
  exact (proj1 (proj2 (proj2 (proj2
    (insert_numerical_keeps_duplicates 4%Z
       (VectorAdaptor.Build [1; 4; 4; 7]%Z)
       (ListAdaptor.Build [1; 4; 4; 7]%Z) Hs Hs))))).
Defined.

Lemma remove_at_front (x : Z) (xs : list Z) : remove_at 0 (x :: xs) = xs.
Proof. reflexivity. Qed.

Lemma remove_at_back (x : Z) (xs : list Z) :
  remove_at (length xs) (xs ++ [x]) = xs.
Proof.
  induction xs as [|y xs IH]; [reflexivity|].
  change (remove_at (length (y :: xs)) ((y :: xs) ++ [x]))
    with (y :: remove_at (length xs) (xs ++ [x])).
  rewrite IH. reflexivity.
Qed.

(** X3.  For both adaptors, [push_front(n)] makes [n] the first and
    [push_back(n)] the last element, whatever the order of the contents;
    [remove(0)] after [push_front], and [remove] at the former size after
    [push_back], give the sequence back. *)
Theorem push_then_remove (n : Z)
  (sv : VectorAdaptor.t) (sl : ListAdaptor.t) :
  elements (push_front n sv) = n :: elements sv /\
  elements (push_back n sv) = elements sv ++ [n] /\
  remove 0 (push_front n sv) = Done sv /\
  remove (size sv) (push_back n sv) = Done sv /\
  elements (push_front n sl) = n :: elements sl /\
  elements (push_back n sl) = elements sl ++ [n] /\
  remove 0 (push_front n sl) = Done sl /\
  remove (size sl) (push_back n sl) = Done sl.
Proof.
  destruct sv as [v], sl as [l].
  split; [reflexivity|]. split; [reflexivity|].
  split; [reflexivity|]. split.
  - simpl remove. rewrite vector_remove_spec.
    unfold VectorAdaptor.push_back, size. simpl.
    unfold VectorAdaptor.size. simpl. rewrite Nat2N.id.
    replace (length v <? length (v ++ [n]))%nat with true
      by (symmetry; apply Nat.ltb_lt; rewrite length_app; simpl; lia).
    rewrite remove_at_back. reflexivity.
  - split; [reflexivity|]. split; [reflexivity|].
    split; [reflexivity|].
    simpl remove. rewrite list_remove_spec.
    unfold ListAdaptor.push_back, size. simpl.
    unfold ListAdaptor.size. simpl. rewrite Nat2N.id.
    replace (length l <? length (l ++ [n]))%nat with true
      by (symmetry; apply Nat.ltb_lt; rewrite length_app; simpl; lia).
    rewrite remove_at_back. reflexivity.
Qed.

(** X4.  For both adaptors [remove(i)] is undefined exactly when [i] is
    not below [size()], in particular on every empty sequence; there is
    no other way for it to fail, and no check. *)
Theorem remove_undefined_iff (i : N)
  (sv : VectorAdaptor.t) (sl : ListAdaptor.t) :
  (remove i sv = Crash UndefinedBehaviour <-> (size sv <= i)%N) /\
  (remove i sl = Crash UndefinedBehaviour <-> (size sl <= i)%N) /\
  (forall f, remove i sv = Crash f -> f = UndefinedBehaviour) /\
  (forall f, remove i sl = Crash f -> f = UndefinedBehaviour) /\
  remove i VectorAdaptor.default = Crash UndefinedBehaviour /\
  remove i ListAdaptor.default = Crash UndefinedBehaviour.
Proof.
  split; [apply remove_undefined_iff_elements|].
  split; [apply remove_undefined_iff_elements|].
  split; [|split; [|split]].
  - intros f Hf. pose proof (remove_elements i sv) as Hr.
    rewrite Hf in Hr. apply Hr.
  - intros f Hf. pose proof (remove_elements i sl) as Hr.
    rewrite Hf in Hr. apply Hr.
  - apply remove_undefined_iff_elements. apply N.le_0_l.
  - apply remove_undefined_iff_elements. apply N.le_0_l.
Qed.

(** X5.  [fill_numerically(s, num_vals)] fails its assertion when [s]
    holds fewer than [num_vals] values and inserts nothing; otherwise, on
    a fresh sequence, it leaves exactly the first [num_vals] values of
    [s], in strictly ascending order. *)
Theorem fill_numerically_spec (s : list Z) (num_vals : N)
  (Hd : NoDup s) :
  ((N.of_nat (length s) < num_vals)%N ->
   fill_numerically VectorAdaptor.default s num_vals
   = Crash AssertionFailed /\
   fill_numerically ListAdaptor.default s num_vals
   = Crash AssertionFailed) /\
  ((num_vals <= N.of_nat (length s))%N ->
   (exists q, fill_numerically VectorAdaptor.default s num_vals = Done q /\
              size q = num_vals /\
              StronglySorted Z.lt (elements q) /\
              Permutation (elements q) (firstn (N.to_nat num_vals) s)) /\
   (exists q, fill_numerically ListAdaptor.default s num_vals = Done q /\
              size q = num_vals /\
              StronglySorted Z.lt (elements q) /\
              Permutation (elements q) (firstn (N.to_nat num_vals) s))).
Proof.
  split.
  - intros Hlt. unfold fill_numerically, assert.
    replace (num_vals <=? N.of_nat (length s))%N with false
      by (symmetry; apply N.leb_gt; exact Hlt).
    split; reflexivity.
  - intros Hle.
    assert (Hd' : NoDup (firstn (N.to_nat num_vals) s)).
    { rewrite <- (firstn_skipn (N.to_nat num_vals) s) in Hd.
      apply NoDup_app_remove_r in Hd. exact Hd. }
    assert (Hlen : N.of_nat (length (firstn (N.to_nat num_vals) s))
                   = num_vals)
      by (rewrite length_firstn; lia).
    unfold fill_numerically, assert.
    replace (num_vals <=? N.of_nat (length s))%N with true
      by (symmetry; apply N.leb_le; exact Hle).
    split.
    + eexists. split; [reflexivity|].
      destruct (fill_from_empty (firstn (N.to_nat num_vals) s)
                  VectorAdaptor.default Hd') as (H1 & H2 & H3); [reflexivity|].
      rewrite Hlen in H1. repeat split; assumption.
    + eexists. split; [reflexivity|].
      destruct (fill_from_empty (firstn (N.to_nat num_vals) s)
                  ListAdaptor.default Hd') as (H1 & H2 & H3); [reflexivity|].
      rewrite Hlen in H1. repeat split; assumption.
Qed.

Lemma fill_numerically_spec_witness :
  NoDup [5; 1; 4; 2]%Z /\
  fill_numerically ListAdaptor.default [5; 1; 4; 2]%Z 5
  = Crash AssertionFailed /\
  exists q, fill_numerically VectorAdaptor.default [5; 1; 4; 2]%Z 3 = Done q
            /\ size q = 3%N.
Proof.
  assert (Hd : NoDup [5; 1; 4; 2]%Z).
  { repeat constructor; simpl; intuition discriminate. }
  pose proof (fill_numerically_spec [5; 1; 4; 2]%Z 5 Hd) as [Hfail _].
  pose proof (fill_numerically_spec [5; 1; 4; 2]%Z 3 Hd) as [_ Hok].
  split; [exact Hd|]. split.
  - exact (proj2 (Hfail eq_refl)).
  - destruct (proj1 (Hok ltac:(simpl; lia))) as [q [Hq [Hs _]]].
    exists q. split; [exact Hq|exact Hs].
Defined.

(** ** The benchmark core on any plan *)

Section CoreOutcome.

Variable P : platform.
Context {S : Type} `{LawfulSequence S}.

Lemma run_removes_any (plan : list N) (sh : shared P) (me : worker S) :
  exists me' es,
    run (for_each plan (fun i => act (SeqRemove i))) sh me
    = (if valid_from (length (elements (seq me))) plan
       then Done tt else Crash UndefinedBehaviour, sh, me', es) /\
    (valid_from (length (elements (seq me))) plan = true ->
     length (elements (seq me'))
     = (length (elements (seq me)) - length plan)%nat).
Proof.
  revert me. induction plan as [|i plan IH]; intros me.
  - exists me, []. simpl. split; [reflexivity|]. intros _. lia.
  - cbn [for_each act bind run perform valid_from].
    pose proof (remove_elements i (seq me)) as Hr.
    destruct (remove i (seq me)) as [q|f]; cbn [obind].
    + destruct Hr as [Hlt He].
      replace (N.to_nat i <? length (elements (seq me)))%nat with true
        by (symmetry; apply Nat.ltb_lt; exact Hlt).
      destruct (IH {| seq := q; promise := promise me |})
        as (me' & es & Hrun & Hlen).
      cbn [seq] in Hrun, Hlen.
      rewrite He, remove_at_length in Hrun, Hlen by exact Hlt.
      rewrite Hrun. cbn [andb].
      exists me'. eexists. split; [reflexivity|].
      intros Hv. rewrite (Hlen Hv). simpl. lia.
    + destruct Hr as [-> Hge].
      replace (N.to_nat i <? length (elements (seq me)))%nat with false
        by (symmetry; apply Nat.ltb_ge; exact Hge).
      exists me, []. split; [reflexivity|]. discriminate.
Qed.

Lemma run_core_any (plan : list N) (sh : shared P) (me : worker S) :
  (length plan <= length (INT_SET P))%nat ->
  exists me' es,
    run (test_n_core_ P plan) sh me
    = (if valid_from (length (elements (seq me)) + length plan) plan
       then Done tt else Crash UndefinedBehaviour, sh, me', es) /\
    (valid_from (length (elements (seq me)) + length plan) plan = true ->
     length (elements (seq me')) = length (elements (seq me))).
Proof.
  intros Hn.
  destruct (run_inserts P (firstn (length plan) (INT_SET P)) sh me)
    as [es1 [Hrun1 _]].
  set (me1 := {| seq := _; promise := _ |}) in Hrun1.
  assert (Hlen1 : length (elements (seq me1))
                  = (length (elements (seq me)) + length plan)%nat).
  { subst me1. cbn [seq]. rewrite fill_length, length_firstn. lia. }
  destruct (run_removes_any plan sh me1) as (me' & es2 & Hrun2 & Hlen).
  rewrite Hlen1 in Hrun2, Hlen.
  exists me'. eexists. split.
  - unfold test_n_core_.
    step_bind. simpl run at 1.
    unfold passert, assert.
    replace (N.of_nat (length plan) <=? N.of_nat (length (INT_SET P)))%N
      with true by (symmetry; apply N.leb_le; lia).
    simpl lift. cbn [bind]. step_bind.
    rewrite Nat2N.id, Hrun1, Hrun2.
    destruct (valid_from _ plan); reflexivity.
  - intros Hv. rewrite (Hlen Hv). lia.
Qed.

End CoreOutcome.

(** X6.  For both adaptors, whatever the sequence holds on entry, and for
    a plan no longer than the universe, [test_n_core_] completes exactly
    when every plan entry is a valid index at its turn; it is otherwise
    undefined at the first entry that is not.  When it completes, the
    sequence has the size it had on entry. *)
Theorem core_completes_iff_valid (P : platform) (plan : list N)
  (sh : shared P) (sv : VectorAdaptor.t) (sl : ListAdaptor.t)
  (Hsize : (length plan <= length (INT_SET P))%nat) :
  (let '(r, _, w, _) := run (test_n_core_ P plan) sh (fresh sv) in
   (r = Done tt <->
    valid_from (length (elements sv) + length plan) plan = true) /\
   (r = Done tt \/ r = Crash UndefinedBehaviour) /\
   (r = Done tt -> size (seq w) = size sv)) /\
  (let '(r, _, w, _) := run (test_n_core_ P plan) sh (fresh sl) in
   (r = Done tt <->
    valid_from (length (elements sl) + length plan) plan = true) /\
   (r = Done tt \/ r = Crash UndefinedBehaviour) /\
   (r = Done tt -> size (seq w) = size sl)).
Proof.
  split.
  - destruct (run_core_any P plan sh (fresh sv) Hsize)
      as (w & es & -> & Hlen).
    cbn [fresh seq] in *. rewrite !size_elements.
    destruct (valid_from _ plan).
    + split; [split; auto|]. split; [left; reflexivity|].
      intros _. rewrite Hlen; reflexivity.
    + split; [split; discriminate|].
      split; [right; reflexivity|discriminate].
  - destruct (run_core_any P plan sh (fresh sl) Hsize)
      as (w & es & -> & Hlen).
    cbn [fresh seq] in *. rewrite !size_elements.
    destruct (valid_from _ plan).
    + split; [split; auto|]. split; [left; reflexivity|].
      intros _. rewrite Hlen; reflexivity.
    + split; [split; discriminate|].
      split; [right; reflexivity|discriminate].
Qed.

Lemma core_completes_iff_valid_witness :
  fst (fst (fst (run (test_n_core_ small_platform [1; 3; 0]%N) small_start
                     (fresh VectorAdaptor.default))))
  = Crash UndefinedBehaviour.
Proof.
  pose proof (core_completes_iff_valid small_platform [1; 3; 0]%N
                small_start VectorAdaptor.default ListAdaptor.default
                ltac:(simpl; lia)) as [Hv _].
  destruct (run (test_n_core_ small_platform [1; 3; 0]%N) small_start
                (fresh VectorAdaptor.default)) as [[[r s] w] es].
  destruct Hv as (Hiff & [Hd|Hc] & _); [|exact Hc].
  apply Hiff in Hd. discriminate Hd.
Defined.

(** ** Programs that do not depend on what the other worker does *)

Section Robust.

Variable P : platform.
Context {S : Type} {IS : IntegerSequence S}.

Lemma robust_run {A : Type} (Q : outcome A -> worker S -> Prop)
  (p : prog A) (me : worker S) :
  robust P Q p me ->
  forall sh : shared P,
    Q (fst (fst (fst (run p sh me)))) (snd (fst (run p sh me))).
Proof.
  induction 1 as [a me Hq|f me Hq|X a k me Hc Hd IH]; intros sh; simpl.
  - exact Hq.
  - exact Hq.
  - destruct (perform a sh me) as [[[[x e] sh'] me']|f] eqn:Ep.
    + specialize (IH sh x e sh' me' Ep sh').
      destruct (run (k x) sh' me') as [[[r s] m] es]. exact IH.
    + simpl. exact (Hc sh f Ep).
Qed.

Lemma robust_bind {A B : Type}
  (Q1 : outcome A -> worker S -> Prop) (Q2 : outcome B -> worker S -> Prop)
  (p : prog A) (f : A -> prog B) (me : worker S) :
  robust P Q1 p me ->
  (forall a me', Q1 (Done a) me' -> robust P Q2 (f a) me') ->
  (forall e me', Q1 (Crash e) me' -> Q2 (Crash e) me') ->
  robust P Q2 (bind p f) me.
Proof.
  intros Hp Hf Hcrash.
  induction Hp as [a me Hq|e me Hq|X a k me Hc Hd IH]; simpl.
  - apply Hf. exact Hq.
  - apply robust_abort. apply Hcrash. exact Hq.
  - apply robust_vis.
    + intros sh e Ep. apply Hcrash. exact (Hc sh e Ep).
    + intros sh x e sh' me' Ep. exact (IH sh x e sh' me' Ep).
Qed.

Lemma robust_weaken {A : Type} (Q Q' : outcome A -> worker S -> Prop)
  (p : prog A) (me : worker S) :
  robust P Q p me ->
  (forall r me', Q r me' -> Q' r me') ->
  robust P Q' p me.
Proof.
  intros Hp Himp.
  induction Hp as [a me Hq|e me Hq|X a k me Hc Hd IH].
  - apply robust_ret. apply Himp. exact Hq.
  - apply robust_abort. apply Himp. exact Hq.
  - apply robust_vis.
    + intros sh e Ep. apply Himp. exact (Hc sh e Ep).
    + intros sh x e sh' me' Ep. exact (IH sh x e sh' me' Ep).
Qed.

(** An action on the generator or the clock always succeeds and leaves
    the worker as it was. *)
Lemma robust_seed {A : Type} (Q : outcome A -> worker S -> Prop)
  (k : unit -> prog A) (me : worker S) :
  robust P Q (k tt) me -> robust P Q (Vis GenSeed k) me.
Proof.
  intros Hk. apply robust_vis.
  - intros sh f Ep. discriminate Ep.
  - intros sh [] e sh' me' Ep. injection Ep; intros; subst. exact Hk.
Qed.

Lemma robust_now {A : Type} (Q : outcome A -> worker S -> Prop)
  (k : Z -> prog A) (me : worker S) :
  (forall t, robust P Q (k t) me) -> robust P Q (Vis ClockNow k) me.
Proof.
  intros Hk. apply robust_vis.
  - intros sh f Ep. discriminate Ep.
  - intros sh x e sh' me' Ep. injection Ep; intros; subst. apply Hk.
Qed.

Lemma robust_enter {A : Type} (Q : outcome A -> worker S -> Prop)
  (fn : string) (k : unit -> prog A) (me : worker S) :
  robust P Q (k tt) me -> robust P Q (Vis (Enter fn) k) me.
Proof.
  intros Hk. apply robust_vis.
  - intros sh f Ep. discriminate Ep.
  - intros sh [] e sh' me' Ep. injection Ep; intros; subst. exact Hk.
Qed.

Lemma robust_draw {A : Type} (Q : outcome A -> worker S -> Prop)
  (lo hi : Z) (k : Z -> prog A) (me : worker S) :
  uniform_in_range P -> (lo <= hi)%Z ->
  (forall r, (lo <= r <= hi)%Z -> robust P Q (k r) me) ->
  robust P Q (Vis (GenDraw lo hi) k) me.
Proof.
  intros Hrange Hle Hk. apply robust_vis.
  - intros sh f Ep. simpl in Ep.
    replace (hi <? lo)%Z with false in Ep
      by (symmetry; apply Z.ltb_ge; exact Hle).
    destruct (engine_uniform P lo hi (gen sh)); discriminate Ep.
  - intros sh x e sh' me' Ep. simpl in Ep.
    replace (hi <? lo)%Z with false in Ep
      by (symmetry; apply Z.ltb_ge; exact Hle).
    pose proof (Hrange lo hi (gen sh) Hle) as Hr.
    destruct (engine_uniform P lo hi (gen sh)) as [r g].
    injection Ep; intros; subst. apply Hk. exact Hr.
Qed.

Lemma robust_set_value {A : Type} (Q : outcome A -> worker S -> Prop)
  (r : Z) (k : unit -> prog A) (me : worker S) :
  robust P Q (k tt) {| seq := seq me; promise := Some r |} ->
  robust P Q (Vis (PromiseSetValue r) k) me.
Proof.
  intros Hk. apply robust_vis.
  - intros sh f Ep. discriminate Ep.
  - intros sh [] e sh' me' Ep. injection Ep; intros; subst. exact Hk.
Qed.

End Robust.

Section RobustPair.

Variable P : platform.
Context {S1 S2 : Type} {IS1 : IntegerSequence S1} {IS2 : IntegerSequence S2}.
Context {A B : Type}.
Variable Q1 : outcome A -> worker S1 -> Prop.
Variable Q2 : outcome B -> worker S2 -> Prop.

(** Two robust workers keep their promises under every interleaving. *)
Lemma robust_interleave (sched : list thread) :
  forall (p1 : prog A) (p2 : prog B) (sh : shared P)
         (w1 : worker S1) (w2 : worker S2),
    robust P Q1 p1 w1 -> robust P Q2 p2 w2 ->
    match interleave sched p1 p2 sh w1 w2 with
    | (Done (a, b), _, w1', w2', _) => Q1 (Done a) w1' /\ Q2 (Done b) w2'
    | (Crash f, _, _, _, _) =>
        (exists w, Q1 (Crash f) w) \/ (exists w, Q2 (Crash f) w)
    end.
Proof.
  assert (Hsecond : forall a p2 sh w1 w2,
             Q1 (Done a) w1 -> robust P Q2 p2 w2 ->
             match finish_second P a p2 sh w1 w2 with
             | (Done (a', b), _, w1', w2', _) =>
                 Q1 (Done a') w1' /\ Q2 (Done b) w2'
             | (Crash f, _, _, _, _) =>
                 (exists w, Q1 (Crash f) w) \/ (exists w, Q2 (Crash f) w)
             end).
  { intros a p2 sh w1 w2 Hq1 H2. unfold finish_second.
    pose proof (robust_run P Q2 p2 w2 H2 sh) as Hr.
    destruct (run p2 sh w2) as [[[r s] m] es]. simpl in Hr.
    destruct r as [b|f]; simpl.
    - split; assumption.
    - right. exists m. exact Hr. }
  assert (Hfirst : forall p1 b sh w1 w2,
             robust P Q1 p1 w1 -> Q2 (Done b) w2 ->
             match finish_first P p1 b sh w1 w2 with
             | (Done (a, b'), _, w1', w2', _) =>
                 Q1 (Done a) w1' /\ Q2 (Done b') w2'
             | (Crash f, _, _, _, _) =>
                 (exists w, Q1 (Crash f) w) \/ (exists w, Q2 (Crash f) w)
             end).
  { intros p1 b sh w1 w2 H1 Hq2. unfold finish_first.
    pose proof (robust_run P Q1 p1 w1 H1 sh) as Hr.
    destruct (run p1 sh w1) as [[[r s] m] es]. simpl in Hr.
    destruct r as [a|f]; simpl.
    - split; assumption.
    - left. exists m. exact Hr. }
  induction sched as [|t sched IH]; intros p1 p2 sh w1 w2 H1 H2.
  - cbn [interleave].
    pose proof (robust_run P Q1 p1 w1 H1 sh) as Hr.
    destruct (run p1 sh w1) as [[[r s] m] es]. simpl in Hr.
    destruct r as [a|f].
    + specialize (Hsecond a p2 s m w2 Hr H2).
      destruct (finish_second P a p2 s m w2) as [[[[r' s'] m1] m2] es'].
      exact Hsecond.
    + left. exists m. exact Hr.
  - destruct t.
    + destruct H1 as [a w1 Hq|f w1 Hq|X a k w1 Hc Hd]; cbn [interleave].
      * apply Hsecond; assumption.
      * left. exists w1. exact Hq.
      * destruct (perform a sh w1) as [[[[x e] sh'] w1']|f] eqn:Ep.
        -- specialize (IH (k x) p2 sh' w1' w2 (Hd sh x e sh' w1' Ep) H2).
           destruct (interleave sched (k x) p2 sh' w1' w2)
             as [[[[r s'] m1] m2] es].
           exact IH.
        -- left. exists w1. exact (Hc sh f Ep).
    + destruct H2 as [b w2 Hq|f w2 Hq|X a k w2 Hc Hd]; cbn [interleave].
      * apply Hfirst; assumption.
      * right. exists w2. exact Hq.
      * destruct (perform a sh w2) as [[[[x e] sh'] w2']|f] eqn:Ep.
        -- specialize (IH p1 (k x) sh' w1 w2' H1 (Hd sh x e sh' w2' Ep)).
           destruct (interleave sched p1 (k x) sh' w1 w2')
             as [[[[r s'] m1] m2] es].
           exact IH.
        -- right. exists w2. exact (Hc sh f Ep).
Qed.

End RobustPair.

Section RobustWorker.

Variable P : platform.
Hypothesis Hrange : uniform_in_range P.
Context {T : Type} `{LawfulSequence T}.

Lemma robust_inserts (vals : list Z) (me : worker T) :
  robust P
    (fun r me' =>
       r = Done tt /\
       me' = {| seq := fold_left (fun q x => insert_numerical x q)
                                 vals (seq me);
                promise := promise me |})
    (for_each vals (fun x => act (SeqInsertNumerical x))) me.
Proof.
  revert me. induction vals as [|x vals IH]; intros me.
  - apply robust_ret. destruct me. split; reflexivity.
  - cbn [for_each act bind]. apply robust_vis.
    + intros sh f Ep. discriminate Ep.
    + intros sh [] e sh' me' Ep. injection Ep; intros; subst.
      exact (IH {| seq := insert_numerical x (seq me);
                   promise := promise me |}).
Qed.

Lemma robust_removes (plan : list N) (me : worker T) :
  valid_from (length (elements (seq me))) plan = true ->
  robust P
    (fun r me' =>
       r = Done tt /\
       length (elements (seq me'))
       = (length (elements (seq me)) - length plan)%nat /\
       promise me' = promise me)
    (for_each plan (fun i => act (SeqRemove i))) me.
Proof.
  revert me. induction plan as [|i plan IH]; intros me Hv.
  - apply robust_ret. simpl. repeat split. lia.
  - simpl in Hv. apply andb_prop in Hv. destruct Hv as [Hi Hv].
    apply Nat.ltb_lt in Hi.
    pose proof (remove_elements i (seq me)) as Hr.
    cbn [for_each act bind]. apply robust_vis.
    + intros sh f Ep. simpl in Ep.
      destruct (remove i (seq me)) as [q|f']; [discriminate Ep|].
      destruct Hr as [_ Hge]. lia.
    + intros sh [] e sh' me' Ep. simpl in Ep.
      destruct (remove i (seq me)) as [q|f']; [|discriminate Ep].
      destruct Hr as [_ He].
      simpl in Ep. injection Ep; intros; subst.
      assert (Hq : length (elements q)
                   = (length (elements (seq me)) - 1)%nat)
        by (rewrite He; apply remove_at_length; exact Hi).
      eapply robust_weaken.
      * apply (IH {| seq := q; promise := promise me |}).
        cbn [seq]. rewrite Hq. exact Hv.
      * intros r me'' (-> & Hlen & Hp). cbn [seq promise] in Hlen, Hp.
        split; [reflexivity|]. split; [simpl; lia|exact Hp].
Qed.

Lemma robust_core (plan : list N) (me : worker T) :
  valid_plan plan = true ->
  (length plan <= length (INT_SET P))%nat ->
  elements (seq me) = [] ->
  robust P
    (fun r me' =>
       r = Done tt /\ elements (seq me') = [] /\ promise me' = promise me)
    (test_n_core_ P plan) me.
Proof.
  intros Hv Hn He. unfold test_n_core_.
  cbn [act bind]. apply robust_enter.
  unfold passert, assert.
  replace (N.of_nat (length plan) <=? N.of_nat (length (INT_SET P)))%N
    with true by (symmetry; apply N.leb_le; lia).
  cbn [lift bind].
  eapply robust_bind.
  - apply robust_inserts.
  - intros [] me1 [_ ->].
    eapply robust_weaken.
    + apply robust_removes. cbn [seq].
      rewrite fill_length, He, Nat2N.id, length_firstn. simpl.
      replace (Nat.min (length plan) (length (INT_SET P)))
        with (length plan) by lia.
      exact Hv.
    + intros r me2 (-> & Hlen & Hp).
      cbn [seq promise] in Hlen, Hp.
      rewrite fill_length, He, Nat2N.id, length_firstn in Hlen.
      simpl in Hlen.
      split; [reflexivity|]. split; [|exact Hp].
      apply length_zero_iff_nil. lia.
  - intros e me1 (Hcr & _). discriminate Hcr.
Qed.

Lemma robust_core_fails (plan : list N) (me : worker T) :
  (length (INT_SET P) < length plan)%nat ->
  robust P (fun (r : outcome unit) (_ : worker T) =>
              r = Crash AssertionFailed)
         (test_n_core_ P plan) me.
Proof.
  intros Hn. unfold test_n_core_.
  cbn [act bind]. apply robust_enter.
  unfold passert, assert.
  replace (N.of_nat (length plan) <=? N.of_nat (length (INT_SET P)))%N
    with false by (symmetry; apply N.leb_gt; lia).
  cbn [lift bind]. apply robust_abort. reflexivity.
Qed.

Lemma valid_from_last (k : nat) (ds : list N) :
  length ds = S k -> valid_from (S k) ds = true ->
  nth_error ds k = Some 0%N.
Proof.
  revert ds. induction k as [|k IH]; intros ds Hlen Hv.
  - destruct ds as [|d [|d' ds]]; try discriminate Hlen.
    simpl in Hv. apply andb_prop in Hv. destruct Hv as [Hd _].
    apply Nat.ltb_lt in Hd. simpl. f_equal. lia.
  - destruct ds as [|d ds]; [discriminate Hlen|].
    simpl in Hlen. injection Hlen as Hlen.
    simpl in Hv. apply andb_prop in Hv. destruct Hv as [_ Hv].
    rewrite ?Nat.sub_0_r in Hv.
    simpl. apply IH; assumption.
Qed.

Lemma robust_countdown (k fuel : nat) (acc : list N) (me : worker T) :
  (k < fuel)%nat -> (N.of_nat k <= SIZE_MAX)%N ->
  robust P
    (fun r me' =>
       exists ds, r = Done (acc ++ ds) /\ length ds = k /\
                  valid_from k ds = true /\ me' = me)
    (countdown fuel (size_t_pred (N.of_nat k)) acc) me.
Proof.
  revert fuel acc.
  induction k as [|k IH]; intros fuel acc Hf Hk.
  - destruct fuel as [|fuel]; [lia|].
    simpl N.of_nat. rewrite size_t_pred_zero. cbn [countdown].
    change (SIZE_MAX <? SIZE_MAX)%N with false. cbv iota.
    apply robust_ret. exists []. rewrite app_nil_r. repeat split.
  - destruct fuel as [|fuel]; [lia|].
    rewrite Nat2N.inj_succ, size_t_pred_succ by lia.
    cbn [countdown].
    replace (N.of_nat k <? SIZE_MAX)%N with true
      by (symmetry; apply N.ltb_lt; lia).
    unfold utils.random_size_t, act. cbn [bind].
    apply robust_draw; [exact Hrange|simpl; lia|].
    intros r Hr.
    eapply robust_weaken.
    + apply (IH fuel (acc ++ [Z.to_N r])); lia.
    + intros res me' (ds & -> & Hlen & Hv & ->).
      exists (Z.to_N r :: ds). rewrite <- app_assoc.
      split; [reflexivity|]. split; [simpl; lia|].
      split; [|reflexivity].
      cbn [valid_from]. replace (S k - 1)%nat with k by lia.
      rewrite Hv, andb_true_r.
      apply Nat.ltb_lt. rewrite Z_N_nat. lia.
Qed.

Variable num_vals : N.
Hypothesis Hsize_t : (num_vals <= SIZE_MAX)%N.

Lemma robust_make_removal_indices (me : worker T) :
  robust P
    (fun r me' =>
       exists plan, r = Done plan /\
                    length plan = S (N.to_nat num_vals) /\
                    valid_plan plan = true /\
                    nth_error plan (N.to_nat num_vals) = Some 0%N /\
                    me' = me)
    (make_removal_indices num_vals) me.
Proof.
  unfold make_removal_indices.
  pose proof (robust_countdown (N.to_nat num_vals)
                (S (N.to_nat num_vals)) [num_vals] me) as Hc.
  rewrite N2Nat.id in Hc.
  eapply robust_weaken.
  - apply Hc; [lia|exact Hsize_t].
  - intros r me' (ds & -> & Hlen & Hv & ->).
    exists ([num_vals] ++ ds).
    split; [reflexivity|]. split; [simpl; lia|].
    split; [|split; [|reflexivity]].
    + unfold valid_plan. simpl. rewrite Hlen, Nat.sub_0_r, Hv, andb_true_r.
      apply Nat.ltb_lt. lia.
    + simpl. destruct (N.to_nat num_vals) as [|k] eqn:Ek.
      * simpl. f_equal. lia.
      * simpl. apply valid_from_last; assumption.
Qed.

End RobustWorker.

Section RobustHarness.

Variable P : platform.
Hypothesis Hrange : uniform_in_range P.
Context {T : Type} `{LawfulSequence T}.

Variable num_vals : N.
Hypothesis Hsize_t : (num_vals <= SIZE_MAX)%N.

Lemma robust_loop_ok (todo : nat) (avg : Z) (me : worker T) :
  (S (N.to_nat num_vals) <= length (INT_SET P))%nat ->
  elements (seq me) = [] ->
  robust P
    (fun r me' =>
       (exists a, r = Done a) /\ elements (seq me') = [] /\
       promise me' = promise me)
    (test_n_loop P num_vals todo avg) me.
Proof.
  intros Huniverse. revert avg me.
  induction todo as [|todo IH]; intros avg me He.
  - apply robust_ret. repeat split; [eexists; reflexivity|exact He].
  - cbn [test_n_loop act bind]. apply robust_seed.
    eapply robust_bind.
    + apply (robust_make_removal_indices P Hrange num_vals Hsize_t).
    + intros plan me' (plan' & Heq & Hlen & Hv & Hlast & ->).
      injection Heq as <-.
      unfold vector_at.
      rewrite Hlen, Nat2N.inj_succ, size_t_pred_succ, Nat2N.id, Hlast
        by (rewrite N2Nat.id; exact Hsize_t).
      cbn [bind]. unfold passert, assert. cbn [N.eqb lift bind].
      apply robust_now. intros start.
      eapply robust_bind.
      * apply (robust_core P plan me Hv); [rewrite Hlen; exact Huniverse|].
        exact He.
      * intros [] me1 (_ & He1 & Hp1). cbn [act bind].
        apply robust_now. intros end_.
        eapply robust_weaken; [apply (IH _ me1 He1)|].
        intros r me2 (Hr & He2 & Hp2).
        split; [exact Hr|]. split; [exact He2|]. congruence.
      * intros e me1 (Hcr & _). discriminate Hcr.
    + intros e me' (plan' & Hcr & _). discriminate Hcr.
Qed.

Lemma robust_test_n__ok (num_runs : N) (me : worker T) :
  (S (N.to_nat num_vals) <= length (INT_SET P))%nat ->
  (1 <= num_runs)%N ->
  elements (seq me) = [] ->
  robust P returns_mean (test_n_ P num_vals num_runs) me.
Proof.
  intros Huniverse Hruns He. unfold test_n_.
  eapply robust_bind.
  - apply (robust_loop_ok (N.to_nat num_runs) 0 me Huniverse He).
  - intros avg me' (_ & He' & _).
    unfold duration_div.
    replace (num_runs =? 0)%N with false
      by (symmetry; apply N.eqb_neq; lia).
    cbn [lift bind act]. apply robust_set_value.
    apply robust_ret. eexists. split; [reflexivity|].
    split; [reflexivity|exact He'].
  - intros e me' ([a Ha] & _). discriminate Ha.
Qed.

Lemma robust_test_n__fails (num_runs : N) (me : worker T) :
  (length (INT_SET P) <= N.to_nat num_vals)%nat ->
  (1 <= num_runs)%N ->
  robust P fails_assertion (test_n_ P num_vals num_runs) me.
Proof.
  intros Huniverse Hruns. unfold test_n_.
  destruct (N.to_nat num_runs) as [|todo] eqn:E; [lia|].
  eapply robust_bind with (Q1 := fails_assertion).
  - cbn [test_n_loop act bind]. apply robust_seed.
    eapply robust_bind.
    + apply (robust_make_removal_indices P Hrange num_vals Hsize_t).
    + intros plan me' (plan' & Heq & Hlen & Hv & Hlast & ->).
      injection Heq as <-.
      unfold vector_at.
      rewrite Hlen, Nat2N.inj_succ, size_t_pred_succ, Nat2N.id, Hlast
        by (rewrite N2Nat.id; exact Hsize_t).
      cbn [bind]. unfold passert, assert. cbn [N.eqb lift bind].
      apply robust_now. intros start.
      eapply robust_bind.
      * apply (robust_core_fails P plan me). lia.
      * intros [] me1 Hcr. discriminate Hcr.
      * intros e me1 Hcr. injection Hcr as ->. reflexivity.
    + intros e me' (plan' & Hcr & _). discriminate Hcr.
  - intros a me' Hcr. discriminate Hcr.
  - intros e me' Hcr. exact Hcr.
Qed.

End RobustHarness.

(** ** The data race of the two workers *)

Lemma thread_uses_gen_tag_other (t u : thread) (es : list event) :
  thread_eqb u t = false -> thread_uses_gen t (tag u es) = false.
Proof.
  intros Hne. unfold thread_uses_gen, tag.
  induction es as [|e es IH]; [reflexivity|].
  cbn [map existsb fst snd]. rewrite Hne, IH. reflexivity.
Qed.

Section RacePair.

Variable P : platform.
Context {S1 S2 : Type} {IS1 : IntegerSequence S1} {IS2 : IntegerSequence S2}.
Context {A B : Type}.

(** A worker that starts by reseeding [gen] has used it in every trace,
    unless the other worker ended the process before it could move. *)
Lemma interleave_vec_seeds (sched : list thread) :
  forall (k1 : unit -> prog A) (p2 : prog B) (sh : shared P)
         (w1 : worker S1) (w2 : worker S2),
    let '(r, _, _, _, es) := interleave sched (Vis GenSeed k1) p2 sh w1 w2 in
    thread_uses_gen vec_thread es = true \/ exists f, r = Crash f.
Proof.
  induction sched as [|t sched IH]; intros k1 p2 sh w1 w2.
  - cbn [interleave run perform].
    destruct (run (k1 tt) _ w1) as [[[r1 s1] m1] es1].
    destruct r1 as [a|f].
    + unfold finish_second.
      destruct (run p2 s1 w2) as [[[r2 s2] m2] es2].
      left. reflexivity.
    + right. eexists. reflexivity.
  - destruct t.
    + cbn [interleave perform].
      destruct (interleave sched (k1 tt) p2 _ w1 w2)
        as [[[[r s] m1] m2] es].
      left. reflexivity.
    + cbn [interleave]. destruct p2 as [b|f|X a k].
      * unfold finish_first. cbn [run perform].
        destruct (run (k1 tt) _ w1) as [[[r1 s1] m1] es1].
        left. reflexivity.
      * right. eexists. reflexivity.
      * destruct (perform a sh w2) as [[[[x e] sh'] w2']|f].
        -- specialize (IH k1 (k x) sh' w1 w2').
           destruct (interleave sched (Vis GenSeed k1) (k x) sh' w1 w2')
             as [[[[r s] m1] m2] es].
           destruct IH as [Hg|Hc]; [left|right; exact Hc].
           unfold thread_uses_gen in *. cbn [existsb fst thread_eqb andb orb].
           exact Hg.
        -- right. eexists. reflexivity.
Qed.

Lemma interleave_list_seeds (sched : list thread) :
  forall (p1 : prog A) (k2 : unit -> prog B) (sh : shared P)
         (w1 : worker S1) (w2 : worker S2),
    let '(r, _, _, _, es) := interleave sched p1 (Vis GenSeed k2) sh w1 w2 in
    thread_uses_gen list_thread es = true \/ exists f, r = Crash f.
Proof.
  assert (Hsecond : forall (a : A) (k2 : unit -> prog B) (sh : shared P)
                           (w1 : worker S1) (w2 : worker S2) es0,
             thread_uses_gen list_thread
               (es0 ++ snd (finish_second P a (Vis GenSeed k2) sh w1 w2))
             = true).
  { intros a k2 sh w1 w2 es0. unfold finish_second. cbn [run perform].
    destruct (run (k2 tt) _ w2) as [[[r2 s2] m2] es2]. cbn [snd].
    unfold thread_uses_gen. rewrite existsb_app.
    apply orb_true_iff. right. reflexivity. }
  induction sched as [|t sched IH]; intros p1 k2 sh w1 w2.
  - cbn [interleave].
    destruct (run p1 sh w1) as [[[r1 s1] m1] es1].
    destruct r1 as [a|f]; [|right; eexists; reflexivity].
    specialize (Hsecond a k2 s1 m1 w2 (tag vec_thread es1)).
    destruct (finish_second P a (Vis GenSeed k2) s1 m1 w2)
      as [[[[r s] m1'] m2] es].
    left. exact Hsecond.
  - destruct t.
    + cbn [interleave]. destruct p1 as [a|f|X a k].
      * specialize (Hsecond a k2 sh w1 w2 []).
        destruct (finish_second P a (Vis GenSeed k2) sh w1 w2)
          as [[[[r s] m1'] m2] es].
        left. exact Hsecond.
      * right. eexists. reflexivity.
      * destruct (perform a sh w1) as [[[[x e] sh'] w1']|f].
        -- specialize (IH (k x) k2 sh' w1' w2).
           destruct (interleave sched (k x) (Vis GenSeed k2) sh' w1' w2)
             as [[[[r s] m1] m2] es].
           destruct IH as [Hg|Hc]; [left|right; exact Hc].
           unfold thread_uses_gen in *. cbn [existsb fst thread_eqb andb orb].
           exact Hg.
        -- right. eexists. reflexivity.
    + cbn [interleave perform].
      destruct (interleave sched p1 (k2 tt) _ w1 w2)
        as [[[[r s] m1] m2] es].
      left. reflexivity.
Qed.

(** Two workers that both start by reseeding [gen] never both return:
    either one of them ends the process before the other has touched
    [gen], or the execution has a data race. *)
Lemma run2_both_seed (sched : list thread)
  (k1 : unit -> prog A) (k2 : unit -> prog B) (sh : shared P)
  (w1 : worker S1) (w2 : worker S2) :
  let '(r, _, _, _, es) :=
    run2 sched (Vis GenSeed k1) (Vis GenSeed k2) sh w1 w2 in
  let '(r0, _, _, _, _) :=
    interleave sched (Vis GenSeed k1) (Vis GenSeed k2) sh w1 w2 in
  (data_race es = true /\ r = Crash UndefinedBehaviour) \/
  (data_race es = false /\ r = r0 /\ exists f, r0 = Crash f).
Proof.
  pose proof (interleave_vec_seeds sched k1 (Vis GenSeed k2) sh w1 w2)
    as Hv.
  pose proof (interleave_list_seeds sched (Vis GenSeed k1) k2 sh w1 w2)
    as Hl.
  unfold run2.
  destruct (interleave sched (Vis GenSeed k1) (Vis GenSeed k2) sh w1 w2)
    as [[[[r s] m1] m2] es].
  destruct (data_race es) eqn:E.
  - left. split; reflexivity.
  - right. split; [reflexivity|]. split; [reflexivity|].
    destruct Hv as [Hv|Hc]; [|exact Hc].
    destruct Hl as [Hl|Hc]; [|exact Hc].
    unfold data_race in E. rewrite Hv, Hl in E. discriminate E.
Qed.

End RacePair.

(** ** [test_n] under every schedule *)

Section Orchestrator.

Variable P : platform.


Hypothesis Hrange : uniform_in_range P.

(** Within the universe both workers would run to their end, so both
    reseed and draw from [gen]: the call has a data race. *)
Lemma test_n_races_within (num_vals num_runs : N) (sh : shared P) :
  (num_vals <= SIZE_MAX)%N ->
  (S (N.to_nat num_vals) <= length (INT_SET P))%nat ->
  (1 <= num_runs)%N ->
  exists sh' es,
    test_n P num_vals num_runs sh = (Crash UndefinedBehaviour, sh', es) /\
    data_race es = true.
Proof.
  intros Hsize_t Huniverse Hruns. unfold test_n, assert.
  replace (num_vals <=? N.of_nat (length (INT_SET P)))%N with true
    by (symmetry; apply N.leb_le; lia).
  assert (Hv : robust P returns_mean (test_n_ P num_vals num_runs)
                      (fresh VectorAdaptor.default))
    by (apply (robust_test_n__ok P Hrange num_vals Hsize_t num_runs);
        [exact Huniverse|exact Hruns|reflexivity]).
  assert (Hl : robust P returns_mean (test_n_ P num_vals num_runs)
                      (fresh ListAdaptor.default))
    by (apply (robust_test_n__ok P Hrange num_vals Hsize_t num_runs);
        [exact Huniverse|exact Hruns|reflexivity]).
  pose proof (robust_interleave P returns_mean returns_mean
                (schedule P num_vals) _ _ sh _ _ Hv Hl) as Hpair.
  destruct (test_n__starts_with_seed P num_vals num_runs Hruns) as [k Hk].
  rewrite Hk in *.
  pose proof (run2_both_seed P (schedule P num_vals) k k sh
                (fresh VectorAdaptor.default) (fresh ListAdaptor.default))
    as Hrace.
  destruct (run2 (schedule P num_vals) (Vis GenSeed k) (Vis GenSeed k) sh
                 (fresh VectorAdaptor.default) (fresh ListAdaptor.default))
    as [[[[r sh'] v'] l'] es].
  destruct (interleave (schedule P num_vals) (Vis GenSeed k) (Vis GenSeed k)
              sh (fresh VectorAdaptor.default) (fresh ListAdaptor.default))
    as [[[[r0 sh0] v0] l0] es0].
  destruct Hrace as [[Hd ->]|(_ & _ & f & ->)].
  - exists sh', es. split; [reflexivity|exact Hd].
  - destruct Hpair as [[w (m & Hm & _)]|[w (m & Hm & _)]];
      discriminate Hm.
Qed.

(** At the size of the universe each worker, left alone, stops on the
    assertion of the core. *)
Lemma test_n_at_universe (num_vals num_runs : N) (sh : shared P) :
  (num_vals <= SIZE_MAX)%N ->
  num_vals = N.of_nat (length (INT_SET P)) ->
  (1 <= num_runs)%N ->
  exists sh' es,
    (test_n P num_vals num_runs sh = (Crash AssertionFailed, sh', es) /\
     data_race es = false) \/
    (test_n P num_vals num_runs sh = (Crash UndefinedBehaviour, sh', es) /\
     data_race es = true).
Proof.
  intros Hsize_t Huniverse Hruns. unfold test_n, assert.
  replace (num_vals <=? N.of_nat (length (INT_SET P)))%N with true
    by (symmetry; apply N.leb_le; lia).
  assert (Hv : robust P fails_assertion (test_n_ P num_vals num_runs)
                      (fresh VectorAdaptor.default))
    by (apply (robust_test_n__fails P Hrange num_vals Hsize_t num_runs);
        [lia|exact Hruns]).
  assert (Hl : robust P fails_assertion (test_n_ P num_vals num_runs)
                      (fresh ListAdaptor.default))
    by (apply (robust_test_n__fails P Hrange num_vals Hsize_t num_runs);
        [lia|exact Hruns]).
  pose proof (robust_interleave P fails_assertion fails_assertion
                (schedule P num_vals) _ _ sh _ _ Hv Hl) as Hpair.
  unfold run2.
  destruct (interleave (schedule P num_vals) (test_n_ P num_vals num_runs)
                 (test_n_ P num_vals num_runs) sh
                 (fresh VectorAdaptor.default) (fresh ListAdaptor.default))
    as [[[[r sh'] v'] l'] es].
  exists sh', es.
  destruct (data_race es).
  - right. split; reflexivity.
  - left. split; [|reflexivity].
    destruct r as [[a b]|f].
    + destruct Hpair as [Ha _]. discriminate Ha.
    + destruct Hpair as [[w Hf]|[w Hf]]; injection Hf as ->; reflexivity.
Qed.

End Orchestrator.

(** X7.  With at least one run asked for and a universe of more than
    [num_vals] values, [test_n] is undefined under every schedule: both
    workers reseed and draw from the one [gen], which has no lock, so
    every execution has a data race and no pair of means is guaranteed. *)
Theorem test_n_races (P : platform) (Hrange : uniform_in_range P)
  (num_vals num_runs : N) (sh : shared P)
  (Hsize_t : (num_vals <= SIZE_MAX)%N)
  (Huniverse : (S (N.to_nat num_vals) <= length (INT_SET P))%nat)
  (Hruns : (1 <= num_runs)%N) :
  exists sh' es,
    test_n P num_vals num_runs sh = (Crash UndefinedBehaviour, sh', es) /\
    thread_uses_gen vec_thread es = true /\
    thread_uses_gen list_thread es = true.
Proof.
  destruct (test_n_races_within P Hrange num_vals num_runs sh
              Hsize_t Huniverse Hruns) as (sh' & es & Heq & Hd).
  exists sh', es. split; [exact Heq|].
  unfold data_race in Hd. apply andb_prop in Hd. exact Hd.
Qed.

Lemma test_n_races_witness :
  fst (fst (test_n small_platform 7 3 small_start))
  = Crash UndefinedBehaviour.
Proof.
  destruct (test_n_races small_platform small_platform_in_range 7 3
              small_start ltac:(unfold SIZE_MAX; lia) ltac:(simpl; lia)
              ltac:(lia)) as (sh' & es & Heq & _).
  rewrite Heq. reflexivity.
Defined.



(** X9.  [test_n(num_vals, 0)] is undefined for every [num_vals] the
    universe covers and every interleaving: each worker goes straight to
    the division by [num_runs], before any reseeding, draw or clock
    reading. *)
Theorem test_n_without_runs (P : platform) (num_vals : N) (sh : shared P)
  (Huniverse : (num_vals <= N.of_nat (length (INT_SET P)))%N) :
  test_n P num_vals 0 sh = (Crash UndefinedBehaviour, sh, []).
Proof.
  unfold test_n, assert.
  replace (num_vals <=? N.of_nat (length (INT_SET P)))%N with true
    by (symmetry; apply N.leb_le; exact Huniverse).
  change (test_n_ P num_vals 0) with (@Abort Z UndefinedBehaviour).
  destruct (schedule P num_vals) as [|[] sched]; reflexivity.
Qed.

Lemma test_n_without_runs_witness :
  test_n small_platform 4 0 small_start
  = (Crash UndefinedBehaviour, small_start, []).
Proof.
  exact (test_n_without_runs small_platform 4 small_start
           ltac:(simpl; lia)).
Defined.

(** X10.  Run alone on an empty sequence of either adaptor, with at least
    one run and a universe of more than [num_vals] values, [test_n_]
    returns the accumulated differences of its clock readings divided by
    [num_runs] (in unsigned 64-bit arithmetic; the plain quotient when the
    total is non-negative), puts the same value into the promise, leaves
    the sequence empty, and has reseeded [num_runs] times and read the
    clock [2 * num_runs] times. *)
Theorem test_n__returns_mean (P : platform) (Hrange : uniform_in_range P)
  (T : Type) (IS : IntegerSequence T) (LS : LawfulSequence T)
  (num_vals num_runs : N) (sh : shared P) (me : worker T)
  (Hsize_t : (num_vals <= SIZE_MAX)%N)
  (Huniverse : (S (N.to_nat num_vals) <= length (INT_SET P))%nat)
  (Hruns : (1 <= num_runs)%N)
  (Hempty : elements (seq me) = []) :
  let total := elapsed P (now_calls sh) (N.to_nat num_runs) in
  let mean := to_int64 (to_uint64 total / Z.of_N num_runs) in
  let '(r, sh', w, _) := run (test_n_ P num_vals num_runs) sh me in
  r = Done mean /\ promise w = Some mean /\ elements (seq w) = [] /\
  rd_calls sh' = (rd_calls sh + N.to_nat num_runs)%nat /\
  now_calls sh' = (now_calls sh + 2 * N.to_nat num_runs)%nat /\
  ((0 <= total < 2 ^ 63)%Z -> mean = (total / Z.of_N num_runs)%Z).
Proof.
  intros total mean.
  destruct (test_n__run P Hrange num_vals Hsize_t Huniverse num_runs sh me)
    as (g & me' & es & -> & He & Hp & _); [exact Hruns|exact Hempty|].
  fold total. fold mean.
  repeat split; try assumption.
  intros Hb. subst mean. unfold to_int64, to_uint64.
  rewrite (Z.mod_small total) by lia.
  assert (Hq : (0 <= total / Z.of_N num_runs <= total)%Z).
  { split; [apply Z.div_pos; lia|].
    apply Z.div_le_upper_bound; [lia|]. nia. }
  rewrite Z.mod_small by lia.
  replace (total / Z.of_N num_runs <? 2 ^ 63)%Z with true
    by (symmetry; apply Z.ltb_lt; lia).
  reflexivity.
Qed.

Lemma test_n__returns_mean_witness :
  fst (fst (fst (run (test_n_ small_platform 3 2) small_start
                     (fresh ListAdaptor.default)))) = Done 1000%Z.
Proof.
  pose proof (test_n__returns_mean small_platform small_platform_in_range
                ListAdaptor.t _ _ 3 2 small_start
                (fresh ListAdaptor.default)
                ltac:(unfold SIZE_MAX; lia)
                ltac:(simpl; lia) ltac:(lia) eq_refl) as Hl.
  cbn zeta in Hl.
  destruct (run (test_n_ small_platform 3 2) small_start
                (fresh ListAdaptor.default)) as [[[r s] w] es].
  destruct Hl as [-> _]. reflexivity.
Defined.

(** ** The sweep *)

Section Sweep.

Variable P : platform.


End Sweep.

(** X11.  A sweep [test_block(start, end)] that begins within the
    universe and has at least one value of [N] to test is undefined at
    its first call of [test_n], by the data race of the two workers, and
    has written no row; with [end <= start] it returns at once and
    writes nothing. *)
Theorem test_block_races (P : platform) (Hrange : uniform_in_range P)
  (start end_ : N) (sh : shared P) (output : ostream)
  (Hsize_t : (start <= SIZE_MAX)%N)
  (Hstart : (start < N.of_nat (length (INT_SET P)))%N) :
  ((end_ <= start)%N ->
   test_block P start end_ sh output = (Done tt, sh, output)) /\
  ((start < end_)%N ->
   exists sh',
     test_block P start end_ sh output
     = (Crash UndefinedBehaviour, sh', output)).
Proof.
  unfold test_block. split.
  - intros Hempty. replace (end_ - start)%N with 0%N by lia. reflexivity.
  - intros Hlt.
    destruct (N.to_nat (end_ - start)) as [|todo] eqn:E; [lia|].
    cbn [test_block_loop].
    destruct (test_n_races_within P Hrange start DEFAULT_RUNS_PER_TEST sh)
      as (sh' & es & -> & _);
      [exact Hsize_t|lia|unfold DEFAULT_RUNS_PER_TEST; lia|].
    exists sh'. reflexivity.
Qed.

Lemma test_block_races_witness :
  fst (fst (test_block small_platform 2 5 small_start
              {| flushed := []; pending := [Header] |}))
  = Crash UndefinedBehaviour.
Proof.
  destruct (proj2 (test_block_races small_platform small_platform_in_range
                     2 5 small_start {| flushed := []; pending := [Header] |}
                     ltac:(unfold SIZE_MAX; lia) ltac:(simpl; lia))
              ltac:(lia)) as [sh' ->].
  reflexivity.
Defined.



(** X13.  Once [lvv_parse_args] has returned a number of tests, [main]
    opens [out.csv] and buffers the header.  With no test to run it
    closes the file, which then holds the header, and exits with status
    0.  With at least one test the sweep starts at [N = 0]: with a
    universe that is not empty the run is undefined, by the data race in
    the first call of [test_n]; with an empty universe it is either
    that, or a worker stops on the assertion of the core, and then the
    error stream holds the report of [assert] and [out.csv] is empty,
    the header not having been flushed. *)
Theorem main_sweeps (P : platform) (Hrange : uniform_in_range P)
  (argv : list string) (sh : shared P) (num_tests : N)
  (Hargs : lvv_parse_args argv = Returns num_tests) :
  (num_tests = 0%N ->
   main P argv sh
   = Done {| status := Exited 0; cerr := [];
             out_csv := Some [Header] |}) /\
  ((0 < num_tests)%N -> INT_SET P <> [] ->
   main P argv sh = Crash UndefinedBehaviour) /\
  ((0 < num_tests)%N -> INT_SET P = [] ->
   main P argv sh = Crash UndefinedBehaviour \/
   main P argv sh
   = Done {| status := Aborted AssertionFailed;
             cerr := [Diagnostic AssertionFailed];
             out_csv := Some [] |}).
Proof.
  split; [|split].
  - intros ->. apply main_no_tests. exact Hargs.
  - intros Hpos Hne. unfold main. rewrite Hargs.
    destruct (proj2 (test_block_races P Hrange 0 num_tests sh
                       (put Header {| flushed := []; pending := [] |})
                       ltac:(unfold SIZE_MAX; lia)
                       ltac:(destruct (INT_SET P);
                             [contradiction|simpl; lia])) Hpos)
      as [sh' ->].
    reflexivity.
  - intros Hpos Hnil. unfold main. rewrite Hargs. unfold test_block.
    destruct (N.to_nat (num_tests - 0)) as [|todo] eqn:E; [lia|].
    cbn [test_block_loop].
    destruct (test_n_at_universe P Hrange 0 DEFAULT_RUNS_PER_TEST sh)
      as (sh' & es & [[-> _]|[-> _]]);
      [unfold SIZE_MAX; lia|rewrite Hnil; reflexivity
      |unfold DEFAULT_RUNS_PER_TEST; lia| |].
    + right. reflexivity.
    + left. reflexivity.
Qed.

Lemma main_sweeps_witness :
  lvv_parse_args ["lvv"; "12"]%string = Returns 12 /\
  main small_platform ["lvv"; "12"]%string small_start
  = Crash UndefinedBehaviour.
Proof.
  split; [reflexivity|].
  apply (proj1 (proj2 (main_sweeps small_platform small_platform_in_range
                         ["lvv"; "12"]%string small_start 12 eq_refl)));
    [lia|discriminate].
Defined.

(** ** What [lvv_parse_args] returns *)

(** X14.  A number of tests that [lvv_parse_args] returns is never above
    [MAX_TESTS]; it comes from a command line with no argument, and is
    then [DEFAULT_NUM_TESTS], or with exactly one.  Without even a program
    name the function asserts. *)
Theorem parse_args_bounds (argv : list string) (num_tests : N)
  (Hret : lvv_parse_args argv = Returns num_tests) :
  (num_tests <= Z.to_N MAX_TESTS)%N /\
  (length argv = 1%nat \/ length argv = 2%nat) /\
  (length argv = 1%nat -> num_tests = Z.to_N DEFAULT_NUM_TESTS) /\
  lvv_parse_args [] = Asserts.
Proof.
  destruct argv as [|a0 [|a1 [|a2 rest]]]; try discriminate Hret.
  - injection Hret as <-.
    split; [vm_compute; discriminate|].
    split; [left; reflexivity|]. split; reflexivity.
  - rewrite parse_one_argument in Hret.
    destruct (stoi a1) as [e|tests]; [discriminate Hret|].
    destruct (tests <? 0)%Z eqn:E0; [discriminate Hret|].
    destruct (MAX_TESTS <? tests)%Z eqn:E1; [discriminate Hret|].
    injection Hret as <-.
    apply Z.ltb_ge in E0. apply Z.ltb_ge in E1.
    split; [apply Z2N.inj_le; lia|].
    split; [right; reflexivity|]. split; [discriminate|reflexivity].
Qed.

Lemma parse_args_bounds_witness :
  lvv_parse_args ["lvv"; "1000000"]%string = Returns 1000000 /\
  (1000000 <= Z.to_N MAX_TESTS)%N.
Proof.
  assert (Hret : lvv_parse_args ["lvv"; "1000000"]%string
                 = Returns 1000000) by reflexivity.
  split; [exact Hret|].
  exact (proj1 (parse_args_bounds ["lvv"; "1000000"]%string 1000000 Hret)).
Defined.

(** X15.  An argument that is a decimal integer of [[0, MAX_TESTS]], with
    or without a plus sign, is returned as its value. *)
Theorem parse_args_reads_integers (a0 a1 : string) (v : Z)
  (Hint : integer_of a1 = Some v)
  (Hbounds : (0 <= v <= MAX_TESTS)%Z) :
  lvv_parse_args [a0; a1] = Returns (Z.to_N v).
Proof.
  rewrite parse_one_argument.
  rewrite (stoi_integer a1 v Hint)
    by (unfold INT_MIN, INT_MAX, MAX_TESTS in *; lia).
  replace (v <? 0)%Z with false by (symmetry; apply Z.ltb_ge; lia).
  replace (MAX_TESTS <? v)%Z with false by (symmetry; apply Z.ltb_ge; lia).
  reflexivity.
Qed.

Lemma parse_args_reads_integers_witness :
  integer_of "+250"%string = Some 250%Z /\
  lvv_parse_args ["lvv"; "+250"]%string = Returns 250.
Proof.
  split; [reflexivity|].
  exact (parse_args_reads_integers "lvv" "+250" 250 eq_refl
           ltac:(unfold MAX_TESTS; lia)).
Defined.

(** ** The integer universe *)

Lemma set_insert_in (x y : Z) (s : list Z) :
  In y (set_insert x s) <-> y = x \/ In y s.
Proof.
  unfold set_insert.
  destruct (existsb (Z.eqb x) s) eqn:E.
  - apply existsb_exists in E. destruct E as [z [Hz Hxz]].
    apply Z.eqb_eq in Hxz. subst z.
    split; [auto|]. intros [->|Hy]; assumption.
  - rewrite in_app_iff. simpl. split.
    + intros [Hy|[<-|[]]]; auto.
    + intros [->|Hy]; auto.
Qed.

Lemma set_insert_nodup (x : Z) (s : list Z) :
  NoDup s -> NoDup (set_insert x s).
Proof.
  intros Hd. unfold set_insert.
  destruct (existsb (Z.eqb x) s) eqn:E; [exact Hd|].
  apply NoDup_app; [exact Hd|repeat constructor; intros []|].
  intros a Ha [Hax|[]]. subst a.
  assert (Hex : existsb (Z.eqb x) s = true)
    by (apply existsb_exists; exists x; split;
        [exact Ha|apply Z.eqb_refl]).
  congruence.
Qed.

Lemma set_insert_length (x : Z) (s : list Z) :
  (length s <= length (set_insert x s) <= S (length s))%nat.
Proof.
  unfold set_insert. destruct (existsb (Z.eqb x) s).
  - lia.
  - rewrite length_app. simpl. lia.
Qed.

(** Distinct integers of an interval are no more than the interval
    holds. *)
Lemma interval_pigeonhole (lo hi : Z) (s : list Z) :
  NoDup s -> Forall (fun x => (lo <= x <= hi)%Z) s ->
  (Z.of_nat (length s) <= Z.max 0 (hi - lo + 1))%Z.
Proof.
  intros Hd Hr.
  assert (Hlen : (length (map (fun x => Z.to_nat (x - lo)) s)
                  <= length (List.seq 0 (Z.to_nat (hi - lo + 1))))%nat).
  { apply NoDup_incl_length.
    - clear -Hd Hr. induction s as [|x s IH]; [constructor|].
      inversion Hd as [|? ? Hx Hd']; subst.
      inversion Hr as [|? ? Hxr Hr']; subst.
      simpl. constructor; [|apply IH; assumption].
      intros Hin. apply in_map_iff in Hin.
      destruct Hin as [y [Heq Hy]].
      rewrite Forall_forall in Hr'. specialize (Hr' y Hy).
      assert (y = x) by lia. subst y. exact (Hx Hy).
    - intros k Hk. apply in_map_iff in Hk.
      destruct Hk as [y [<- Hy]].
      rewrite Forall_forall in Hr. specialize (Hr y Hy).
      apply in_seq. lia. }
  rewrite length_map, length_seq in Hlen. lia.
Qed.

Section Generate.

Variable P : platform.
Hypothesis Hrange : uniform_in_range P.
Context {T : Type} {IS : IntegerSequence T}.

Variable n : N.
Variables min max : Z.
Hypothesis Hminmax : (min <= max)%Z.

Lemma robust_generate (fuel : nat) (s : list Z) (me : worker T) :
  NoDup s -> Forall (fun x => (min <= x <= max)%Z) s ->
  (N.of_nat (length s) <= n)%N ->
  robust P
    (fun r me' =>
       me' = me /\
       match r with
       | Done s' => N.of_nat (length s') = n /\ NoDup s' /\
                    Forall (fun x => (min <= x <= max)%Z) s' /\
                    incl s s'
       | Crash f => f = OutOfFuel
       end)
    (utils.generate_loop fuel n min max s) me.
Proof.
  revert s. induction fuel as [|fuel IH]; intros s Hd Hr Hlen.
  - apply robust_abort. split; reflexivity.
  - cbn [utils.generate_loop].
    destruct (N.of_nat (length s) <? n)%N eqn:E.
    + apply N.ltb_lt in E.
      unfold utils.random_int, act. cbn [bind].
      apply robust_draw; [exact Hrange|exact Hminmax|].
      intros r Hrr.
      eapply robust_weaken.
      * apply (IH (set_insert r s)).
        -- apply set_insert_nodup. exact Hd.
        -- apply Forall_forall. intros y Hy.
           apply set_insert_in in Hy. destruct Hy as [->|Hy]; [exact Hrr|].
           rewrite Forall_forall in Hr. exact (Hr y Hy).
        -- pose proof (set_insert_length r s). lia.
      * intros res me' [-> Hres]. split; [reflexivity|].
        destruct res as [s'|f]; [|exact Hres].
        destruct Hres as (H1 & H2 & H3 & H4).
        repeat split; try assumption.
        intros y Hy. apply H4. apply set_insert_in. right. exact Hy.
    + apply N.ltb_ge in E. apply robust_ret.
      split; [reflexivity|].
      split; [lia|]. split; [exact Hd|]. split; [exact Hr|].
      intros y Hy. exact Hy.
Qed.

Lemma robust_generate_never (fuel : nat) (s : list Z) (me : worker T) :
  (Z.of_N n > max - min + 1)%Z ->
  NoDup s -> Forall (fun x => (min <= x <= max)%Z) s ->
  robust P (fun (r : outcome (list Z)) (_ : worker T) =>
              r = Crash OutOfFuel)
         (utils.generate_loop fuel n min max s) me.
Proof.
  intros Hbig. revert s. induction fuel as [|fuel IH]; intros s Hd Hr.
  - apply robust_abort. reflexivity.
  - cbn [utils.generate_loop].
    pose proof (interval_pigeonhole min max s Hd Hr) as Hp.
    replace (N.of_nat (length s) <? n)%N with true
      by (symmetry; apply N.ltb_lt; lia).
    unfold utils.random_int, act. cbn [bind].
    apply robust_draw; [exact Hrange|exact Hminmax|].
    intros r Hrr. apply (IH (set_insert r s)).
    + apply set_insert_nodup. exact Hd.
    + apply Forall_forall. intros y Hy.
      apply set_insert_in in Hy. destruct Hy as [->|Hy]; [exact Hrr|].
      rewrite Forall_forall in Hr. exact (Hr y Hy).
Qed.

End Generate.

Lemma generate_loop_more_fuel (P : platform) (T : Type)
  (IS : IntegerSequence T) (n : N) (min max : Z)
  (fuel : nat) (s : list Z) (sh : shared P) (me : worker T) (s' : list Z) :
  fst (fst (fst (run (utils.generate_loop fuel n min max s) sh me)))
  = Done s' ->
  forall fuel', (fuel <= fuel')%nat ->
    run (utils.generate_loop fuel' n min max s) sh me
    = run (utils.generate_loop fuel n min max s) sh me.
Proof.
  revert s sh me.
  induction fuel as [|fuel IH]; intros s sh me Hdone fuel' Hle.
  - discriminate Hdone.
  - destruct fuel' as [|fuel']; [lia|].
    cbn [utils.generate_loop] in *.
    destruct (N.of_nat (length s) <? n)%N; [|reflexivity].
    unfold utils.random_int, act in *. cbn [bind run] in *.
    destruct (perform (GenDraw min max) sh me)
      as [[[[x e] sh1] me1]|f]; [|reflexivity].
    revert Hdone.
    destruct (run (utils.generate_loop fuel n min max (set_insert x s))
                  sh1 me1) as [[[r1 s1] m1] es1] eqn:Erun.
    intros Hdone. simpl in Hdone.
    rewrite (IH (set_insert x s) sh1 me1); [rewrite Erun; reflexivity| |lia].
    rewrite Erun. exact Hdone.
Qed.

(** X16.  Whenever [generate_n_random_ints(n, min, max)] returns, the set
    holds exactly [n] values, no value twice, all of them in [[min, max]];
    the only failure of the model is its own bound on the number of draws,
    and once the bound is large enough for the loop to end, a larger one
    gives the same set and the same generator state.  For [n = 0] the
    empty set is returned without a draw. *)
Theorem generate_n_random_ints_result (P : platform)
  (Hrange : uniform_in_range P) (fuel : nat) (n : N) (min max : Z)
  (Hminmax : (min <= max)%Z)
  (sh : shared P) (me : worker VectorAdaptor.t) :
  let r := fst (fst (fst (run (utils.generate_n_random_ints fuel n min max)
                              sh me))) in
  (forall s, r = Done s ->
     N.of_nat (length s) = n /\ NoDup s /\
     Forall (fun x => (min <= x <= max)%Z) s /\
     forall fuel', (fuel <= fuel')%nat ->
       run (utils.generate_n_random_ints fuel' n min max) sh me
       = run (utils.generate_n_random_ints fuel n min max) sh me) /\
  (forall f, r = Crash f -> f = OutOfFuel) /\
  (n = 0%N -> fuel <> 0%nat ->
   run (utils.generate_n_random_ints fuel n min max) sh me
   = (Done [], sh, me, [])).
Proof.
  intros r.
  pose proof (robust_run P _ _ me
                (robust_generate P Hrange n min max Hminmax fuel [] me
                   (NoDup_nil Z) (Forall_nil _) ltac:(simpl; lia)) sh)
    as Hq.
  cbn beta in Hq. destruct Hq as [_ Hq].
  fold (utils.generate_n_random_ints fuel n min max) in Hq. fold r in Hq.
  split; [|split].
  - intros s Hs. rewrite Hs in Hq. destruct Hq as (H1 & H2 & H3 & _).
    repeat split; try assumption.
    intros fuel' Hle. unfold utils.generate_n_random_ints.
    apply (generate_loop_more_fuel P _ _ n min max fuel [] sh me s Hs).
    exact Hle.
  - intros f Hf. rewrite Hf in Hq. exact Hq.
  - intros -> Hfuel. destruct fuel as [|fuel]; [contradiction|].
    reflexivity.
Qed.

Lemma generate_n_random_ints_result_witness :
  exists s,
    fst (fst (fst (run (utils.generate_n_random_ints 20 5 (-3) 12)
                       small_start (fresh VectorAdaptor.default))))
    = Done s /\ length s = 5%nat.
Proof.
  assert (Hrun : fst (fst (fst (run (utils.generate_n_random_ints
                                       20 5 (-3) 12)
                                    small_start
                                    (fresh VectorAdaptor.default))))
                 = Done [3; 6; 9; 7; 0]%Z) by (vm_compute; reflexivity).
  exists [3; 6; 9; 7; 0]%Z. split; [exact Hrun|].
  pose proof (proj1 (generate_n_random_ints_result small_platform
                       small_platform_in_range 20 5 (-3) 12
                       ltac:(lia) small_start
                       (fresh VectorAdaptor.default)) _ Hrun)
    as [Hlen _].
  reflexivity.
Defined.

(** X17.  [generate_n_random_ints(n, min, max)] cannot return when [n]
    exceeds the number of integers in [[min, max]]: however many draws are
    allowed, the loop is still running. *)
Theorem generate_n_random_ints_never (P : platform)
  (Hrange : uniform_in_range P) (n : N) (min max : Z)
  (Hminmax : (min <= max)%Z)
  (Hbig : (Z.of_N n > max - min + 1)%Z)
  (fuel : nat) (sh : shared P) (me : worker VectorAdaptor.t) :
  fst (fst (fst (run (utils.generate_n_random_ints fuel n min max) sh me)))
  = Crash OutOfFuel.
Proof.
  exact (robust_run P _ _ me
           (robust_generate_never P Hrange n min max Hminmax fuel [] me
              Hbig (NoDup_nil Z) (Forall_nil _)) sh).
Qed.

Lemma generate_n_random_ints_never_witness :
  fst (fst (fst (run (utils.generate_n_random_ints 50 4 1 3) small_start
                     (fresh VectorAdaptor.default))))
  = Crash OutOfFuel.
Proof.
  exact (generate_n_random_ints_never small_platform
           small_platform_in_range 4 1 3 ltac:(lia) ltac:(lia)
           50 small_start (fresh VectorAdaptor.default)).
Defined.

Lemma read_lines_spec (lines : list string) (s : list Z) :
  NoDup s ->
  match db.read_lines lines s with
  | Done s' =>
      NoDup s' /\
      (length s' <= length s + length lines)%nat /\
      (forall x, In x s' <->
                 In x s \/ exists line, In line lines /\ stoi line = inr x) /\
      (forall line, In line lines -> exists v, stoi line = inr v)
  | Crash f =>
      exists before line after e,
        lines = before ++ line :: after /\
        (forall l, In l before -> exists v, stoi l = inr v) /\
        stoi line = inl e /\ f = Uncaught e
  end.
Proof.
  revert s. induction lines as [|line lines IH]; intros s Hd; simpl.
  - split; [exact Hd|]. split; [lia|]. split.
    + intros x. split; [auto|]. intros [Hx|[l [[] _]]]. exact Hx.
    + intros l [].
  - destruct (stoi line) as [e|v] eqn:Es.
    + exists [], line, lines, e. split; [reflexivity|].
      split; [intros l []|]. split; [exact Es|reflexivity].
    + specialize (IH (set_insert v s) (set_insert_nodup v s Hd)).
      destruct (db.read_lines lines (set_insert v s)) as [s'|f].
      * destruct IH as (H1 & H2 & H3 & H4).
        split; [exact H1|]. split.
        { pose proof (set_insert_length v s). lia. }
        split.
        { intros x. rewrite H3, set_insert_in. split.
          - intros [[->|Hx]|[l [Hl Hs]]].
            + right. exists line. split; [left; reflexivity|exact Es].
            + left. exact Hx.
            + right. exists l. split; [right; exact Hl|exact Hs].
          - intros [Hx|[l [[<-|Hl] Hs]]].
            + left. right. exact Hx.
            + left. left. congruence.
            + right. exists l. split; assumption. }
        { intros l [<-|Hl]; [exists v; exact Es|apply H4; exact Hl]. }
      * destruct IH as (before & l & after & e & -> & Hb & Hs & ->).
        exists (line :: before), l, after, e.
        split; [reflexivity|]. split; [|split; [exact Hs|reflexivity]].
        intros l' [<-|Hl']; [exists v; exact Es|exact (Hb l' Hl')].
Qed.

(** X18.  [read_int_db] answers a file that cannot be opened with no set
    at all.  Otherwise it returns the values of the lines, each once, and
    only if [stoi] reads every line; the first line it cannot read, a
    blank line for one, ends the process through the exception [stoi]
    raises on that line. *)
Theorem read_int_db_spec (lines : list string) :
  db.read_int_db None = Done None /\
  match db.read_int_db (Some lines) with
  | Done (Some s) =>
      NoDup s /\ (length s <= length lines)%nat /\
      (forall x, In x s <->
                 exists line, In line lines /\ stoi line = inr x) /\
      (forall line, In line lines -> exists v, stoi line = inr v)
  | Done None => False
  | Crash f =>
      exists before line after e,
        lines = before ++ line :: after /\
        (forall l, In l before -> exists v, stoi l = inr v) /\
        stoi line = inl e /\ f = Uncaught e
  end /\
  (In EmptyString lines ->
   exists e, db.read_int_db (Some lines) = Crash (Uncaught e)).
Proof.
  pose proof (read_lines_spec lines [] (NoDup_nil Z)) as Hr.
  unfold db.read_int_db.
  split; [reflexivity|].
  destruct (db.read_lines lines []) as [s|f]; simpl.
  - destruct Hr as (H1 & H2 & H3 & H4).
    split.
    + split; [exact H1|]. split; [simpl in H2; lia|]. split; [|exact H4].
      intros x. rewrite H3. split; [intros [[]|Hx]; exact Hx|auto].
    + intros Hblank. destruct (H4 _ Hblank) as [v Hv]. discriminate Hv.
  - split; [exact Hr|].
    intros _. destruct Hr as (before & l & after & e & _ & _ & _ & ->).
    exists e. reflexivity.
Qed.

Lemma read_int_db_spec_witness :
  exists before line after,
    ["7"; "abc"; "99999999999"]%string = before ++ line :: after /\
    (forall l, In l before -> exists v, stoi l = inr v) /\
    stoi line = inl invalid_argument.
Proof.
  pose proof (proj1 (proj2 (read_int_db_spec
                              ["7"; "abc"; "99999999999"]%string))) as Hr.
  destruct Hr as (before & line & after & e & Hl & Hb & Hs & He).
  injection He as <-.
  exists before, line, after. repeat split; assumption.
Defined.

(** X19.  [fetch_int_set] generates [min_num_ints] random integers even
    when the file is there: [value_or] gets its argument evaluated first.
    With a readable file the generator ends in the same state, after the
    same draws, as with no file; only the returned set differs, and it
    is the file's whatever its size.  An unreadable line ends the process
    before any draw. *)
Theorem fetch_int_set_generates_anyway (P : platform)
  (lines : list string) (s : list Z) (fuel : nat) (min_num_ints : Z)
  (sh : shared P) (me : worker VectorAdaptor.t)
  (Hread : db.read_int_db (Some lines) = Done (Some s)) :
  (let '(r0, sh0, _, es0) :=
     run (fetch_int_set None fuel min_num_ints) sh me in
   let '(r1, sh1, _, es1) :=
     run (fetch_int_set (Some lines) fuel min_num_ints) sh me in
   sh1 = sh0 /\ es1 = es0 /\
   (forall generated, r0 = Done generated -> r1 = Done s) /\
   (forall f, r0 = Crash f -> r1 = Crash f)) /\
  (forall int_db f,
     db.read_int_db int_db = Crash f ->
     run (fetch_int_set int_db fuel min_num_ints) sh me
     = (Crash f, sh, me, [])).
Proof.
  split.
  - unfold fetch_int_set. rewrite Hread. cbn [db.read_int_db lift bind].
    rewrite !(run_bind P _ _).
    destruct (run (utils.generate_n_random_ints fuel
                     (Z.to_N (to_uint64 min_num_ints)) INT_MIN INT_MAX)
                  sh me) as [[[r sh'] me'] es].
    destruct r as [g|f]; simpl.
    + split; [reflexivity|]. split; [reflexivity|].
      split; [intros; reflexivity|discriminate].
    + split; [reflexivity|]. split; [reflexivity|].
      split; [discriminate|intros f' Hf; exact Hf].
  - intros int_db f Hf. unfold fetch_int_set. rewrite Hf. reflexivity.
Qed.

Lemma fetch_int_set_generates_anyway_witness :
  db.read_int_db (Some ["7"; "-2"; "7"]%string) = Done (Some [7; -2]%Z) /\
  run (fetch_int_set (Some ["7"; ""]%string) 50 3) small_start
      (fresh VectorAdaptor.default)
  = (Crash (Uncaught invalid_argument), small_start,
     fresh VectorAdaptor.default, []).
Proof.
  split; [reflexivity|].
  apply (proj2 (fetch_int_set_generates_anyway small_platform
                  ["7"; "-2"; "7"]%string [7; -2]%Z 50 3 small_start
                  (fresh VectorAdaptor.default) eq_refl)).
  reflexivity.
Defined.

(** X20.  Whatever its origin, the universe [fetch_int_set] returns holds
    no value twice.  Generated, it has exactly [min_num_ints] values, all
    of them [int]s; read from the file, its size is that of the file and
    is not compared with [min_num_ints]. *)
Theorem fetch_int_set_distinct (P : platform) (Hrange : uniform_in_range P)
  (int_db : option (list string)) (fuel : nat) (min_num_ints : Z)
  (sh : shared P) (me : worker VectorAdaptor.t) (u : list Z)
  (Hret : fst (fst (fst (run (fetch_int_set int_db fuel min_num_ints)
                             sh me))) = Done u) :
  NoDup u /\
  (int_db = None ->
   N.of_nat (length u) = Z.to_N (to_uint64 min_num_ints) /\
   Forall (fun x => (INT_MIN <= x <= INT_MAX)%Z) u) /\
  (forall lines, int_db = Some lines ->
   db.read_int_db int_db = Done (Some u) /\ (length u <= length lines)%nat).
Proof.
  pose proof (generate_n_random_ints_result P Hrange fuel
                (Z.to_N (to_uint64 min_num_ints)) INT_MIN INT_MAX
                ltac:(unfold INT_MIN, INT_MAX; lia) sh me) as Hgen.
  cbn zeta in Hgen. destruct Hgen as (Hgen & _ & _).
  unfold fetch_int_set in Hret.
  destruct int_db as [lines|].
  - pose proof (read_int_db_spec lines) as (_ & Hdb & _).
    destruct (db.read_int_db (Some lines)) as [[s|]|f];
      [|contradiction|discriminate Hret].
    cbn [lift bind] in Hret. rewrite (run_bind P _ _) in Hret.
    destruct (run (utils.generate_n_random_ints fuel
                     (Z.to_N (to_uint64 min_num_ints)) INT_MIN INT_MAX)
                  sh me) as [[[r sh'] me'] es].
    destruct r as [g|f]; [|discriminate Hret].
    simpl in Hret. injection Hret as <-.
    destruct Hdb as (Hd & Hlen & _).
    split; [exact Hd|]. split; [discriminate|].
    intros lines' Heq. injection Heq as <-. split; [reflexivity|exact Hlen].
  - cbn [db.read_int_db lift bind] in Hret.
    rewrite (run_bind P _ _) in Hret.
    destruct (run (utils.generate_n_random_ints fuel
                     (Z.to_N (to_uint64 min_num_ints)) INT_MIN INT_MAX)
                  sh me) as [[[r sh'] me'] es].
    destruct r as [g|f]; [|discriminate Hret].
    simpl in Hret. injection Hret as <-.
    destruct (Hgen g eq_refl) as (H1 & H2 & H3 & _).
    split; [exact H2|]. split; [intros _; split; assumption|discriminate].
Qed.

Lemma fetch_int_set_distinct_witness :
  fst (fst (fst (run (fetch_int_set (Some ["7"; "-2"; "7"]%string) 50 3)
                     small_start (fresh VectorAdaptor.default))))
  = Done [7; -2]%Z /\
  NoDup [7; -2]%Z.
Proof.
  assert (Hret : fst (fst (fst (run (fetch_int_set
                                       (Some ["7"; "-2"; "7"]%string) 50 3)
                                    small_start
                                    (fresh VectorAdaptor.default))))
                 = Done [7; -2]%Z) by (vm_compute; reflexivity).
  split; [exact Hret|].
  exact (proj1 (fetch_int_set_distinct small_platform
                  small_platform_in_range _ 50 3 small_start
                  (fresh VectorAdaptor.default) _ Hret)).
Defined.

(** ** More on the two workers *)

(** X22.  When the list worker reseeds between the vector worker's
    reseeding and its first draw, the first removal index of the vector
    worker is computed from the seed the list worker took from
    [random_device], not from its own. *)
Theorem reseeding_crosses_workers (P : platform) (num_vals num_runs : N)
  (sh : shared P) (sched : list thread)
  (Hruns : (1 <= num_runs)%N)
  (Hvals : (1 <= num_vals <= SIZE_MAX)%N) :
  exists es,
    snd (run2 (vec_thread :: list_thread :: vec_thread :: sched)
              (test_n_ P num_vals num_runs) (test_n_ P num_vals num_runs)
              sh (fresh VectorAdaptor.default) (fresh ListAdaptor.default))
    = (vec_thread, EvSeed (random_device P (rd_calls sh)))
      :: (list_thread, EvSeed (random_device P (S (rd_calls sh))))
      :: (vec_thread,
          EvDraw 0 (Z.of_N (num_vals - 1))
            (fst (engine_uniform P 0 (Z.of_N (num_vals - 1))
                    (engine_seed P (random_device P (S (rd_calls sh)))))))
      :: es.
Proof.
  exact (vec_draws_from_list_seed P num_vals num_runs sh sched Hruns Hvals).
Qed.

Lemma reseeding_crosses_workers_witness :
  exists es,
    snd (run2 [vec_thread; list_thread; vec_thread]
              (test_n_ small_platform 3 1) (test_n_ small_platform 3 1)
              small_start (fresh VectorAdaptor.default)
              (fresh ListAdaptor.default))
    = (vec_thread, EvSeed (random_device small_platform 1))
      :: (list_thread, EvSeed (random_device small_platform 2))
      :: (vec_thread, EvDraw 0 2 0)
      :: es.
Proof.
  destruct (reseeding_crosses_workers small_platform 3 1 small_start []
              ltac:(lia) ltac:(unfold SIZE_MAX; lia)) as [es Hes].
  exists es. exact Hes.
Defined.

(** ** The sequential harness *)

Lemma run_fill_short (P : platform) (T : Type) (IS : IntegerSequence T)
  (s : list Z) (todo : nat) (sh : shared P) (me : worker T) :
  (length s < todo)%nat ->
  fst (fst (fst (run (ListVsVector.fill s todo) sh me)))
  = Crash UndefinedBehaviour.
Proof.
  revert s me. induction todo as [|todo IH]; intros s me Hlt; [lia|].
  destruct s as [|x s]; [reflexivity|].
  cbn [ListVsVector.fill act bind run perform].
  specialize (IH s {| seq := insert_numerical x (seq me);
                      promise := promise me |}
                 ltac:(simpl in Hlt; lia)).
  destruct (run (ListVsVector.fill s todo) sh _) as [[[r s1] m1] es].
  exact IH.
Qed.

(** X23.  [_test] of [ListVsVector.cpp], on an empty sequence: with
    [test_num] within the set it completes and leaves the sequence empty,
    every index it draws being valid at its turn; with [test_num] beyond
    the set it is undefined, as it walks the iterator past the end: unlike
    [test_n_core_] it has no assertion. *)
Theorem sequential__test_spec (P : platform) (Hrange : uniform_in_range P)
  (s : list Z) (test_num : N) (sh : shared P)
  (Hint : (Z.of_N test_num <= 2 ^ 31)%Z) :
  ((N.to_nat test_num <= length s)%nat ->
   (let '(r, sh', w, _) :=
      run (ListVsVector._test s test_num) sh (fresh VectorAdaptor.default) in
    r = Done tt /\ empty (seq w) = true /\
    rd_calls sh' = rd_calls sh /\ now_calls sh' = now_calls sh) /\
   (let '(r, sh', w, _) :=
      run (ListVsVector._test s test_num) sh (fresh ListAdaptor.default) in
    r = Done tt /\ empty (seq w) = true /\
    rd_calls sh' = rd_calls sh /\ now_calls sh' = now_calls sh)) /\
  ((length s < N.to_nat test_num)%nat ->
   fst (fst (fst (run (ListVsVector._test s test_num) sh
                      (fresh VectorAdaptor.default))))
   = Crash UndefinedBehaviour /\
   fst (fst (fst (run (ListVsVector._test s test_num) sh
                      (fresh ListAdaptor.default))))
   = Crash UndefinedBehaviour).
Proof.
  split.
  - intros Hs. split.
    + destruct (run__test P Hrange s test_num sh
                  (fresh VectorAdaptor.default) Hs Hint)
        as (g & w & es & -> & He & _); [reflexivity|].
      rewrite empty_elements, He. repeat split.
    + destruct (run__test P Hrange s test_num sh
                  (fresh ListAdaptor.default) Hs Hint)
        as (g & w & es & -> & He & _); [reflexivity|].
      rewrite empty_elements, He. repeat split.
  - intros Hs.
    assert (Hgen : forall (T : Type) (IS : IntegerSequence T)
                          (me : worker T),
               fst (fst (fst (run (ListVsVector._test s test_num) sh me)))
               = Crash UndefinedBehaviour).
    { intros T IS me. unfold ListVsVector._test.
      unfold act at 1. cbn [bind run perform].
      rewrite (run_bind P T IS).
      pose proof (run_fill_short P T IS s (N.to_nat test_num) sh me Hs)
        as Hf.
      destruct (run (ListVsVector.fill s (N.to_nat test_num)) sh me)
        as [[[r s1] m1] es].
      simpl in Hf. subst r. reflexivity. }
    split; apply Hgen.
Qed.

Lemma sequential__test_spec_witness :
  fst (fst (fst (run (ListVsVector._test [5; 1; 4]%Z 4) small_start
                     (fresh ListAdaptor.default))))
  = Crash UndefinedBehaviour.
Proof.
  exact (proj2 (proj2 (sequential__test_spec small_platform
                         small_platform_in_range [5; 1; 4]%Z 4
                         small_start ltac:(lia))
                 ltac:(simpl; lia))).
Defined.

(** X24.  [test] of [ListVsVector.cpp], on an empty sequence and with
    [test_num] within the set: it returns a mean, for both adaptors, after
    one execution of [_test] with the clock stopped, the warm-up, and
    [NUM_RUNS] executions with the clock running. *)
Theorem sequential_test_warms_up (P : platform)
  (Hrange : uniform_in_range P)
  (s : list Z) (test_num : N) (sh : shared P)
  (Hs : (N.to_nat test_num <= length s)%nat)
  (Hint : (Z.of_N test_num <= 2 ^ 31)%Z) :
  (let '(r, _, _, es) :=
     run (ListVsVector.test s test_num) sh (fresh VectorAdaptor.default) in
   (exists mean, r = Done mean) /\
   timed_calls false es = [false; true; true; true]) /\
  (let '(r, _, _, es) :=
     run (ListVsVector.test s test_num) sh (fresh ListAdaptor.default) in
   (exists mean, r = Done mean) /\
   timed_calls false es = [false; true; true; true]).
Proof.
  assert (Hgen : forall (T : Type) (IS : IntegerSequence T)
                        (LS : LawfulSequence T) (me : worker T),
             elements (seq me) = [] ->
             let '(r, _, _, es) :=
               run (ListVsVector.test s test_num) sh me in
             (exists mean, r = Done mean) /\
             timed_calls false es = [false; true; true; true]).
  { intros T IS LS me He. unfold ListVsVector.test.
    rewrite (run_bind P T IS).
    destruct (run__test P Hrange s test_num sh me Hs Hint He)
      as (g & me1 & es1 & Hrun1 & He1 & _ & Hq1).
    rewrite Hrun1. rewrite (run_bind P T IS).
    match goal with
    | |- context [run (ListVsVector.test_loop s test_num ?n ?a) ?h me1] =>
        destruct (run_test_loop P Hrange s test_num Hs Hint n a h me1 He1)
          as (r & sh' & me' & es & Hrun & Ht)
    end.
    rewrite Hrun.
    cbn [lift duration_div ListVsVector.NUM_RUNS N.eqb run].
    split; [eexists; reflexivity|].
    cbn [app timed_calls].
    rewrite timed_calls_quiet by exact Hq1.
    rewrite app_nil_r, Ht. reflexivity. }
  split; apply Hgen; try reflexivity; typeclasses eauto.
Qed.

Lemma sequential_test_warms_up_witness :
  timed_calls false
    (snd (run (ListVsVector.test (INT_SET small_platform) 5) small_start
              (fresh VectorAdaptor.default)))
  = [false; true; true; true].
Proof.
  pose proof (sequential_test_warms_up small_platform
                small_platform_in_range (INT_SET small_platform) 5
                small_start ltac:(simpl; lia) ltac:(lia)) as [Hv _].
  destruct (run (ListVsVector.test (INT_SET small_platform) 5) small_start
                (fresh VectorAdaptor.default)) as [[[r s'] w] es].
  exact (proj2 Hv).
Defined.

(** ** The loops of [sm.cpp] *)

Lemma to_int_small (z : Z) : (0 <= z <= INT_MAX)%Z -> sm.to_int z = z.
Proof.
  unfold INT_MAX, sm.to_int. intros Hz.
  rewrite Z.mod_small by lia.
  destruct (z <? 2 ^ 31)%Z eqn:E; [reflexivity|].
  apply Z.ltb_ge in E. lia.
Qed.

Lemma at_index_app (pre suf : list Z) (x : Z) :
  sm.at_index (pre ++ x :: suf) (Z.of_nat (length pre)) = Done x.
Proof.
  unfold sm.at_index.
  replace (Z.of_nat (length pre) <? 0)%Z with false
    by (symmetry; apply Z.ltb_ge; lia).
  rewrite Nat2Z.id, nth_error_app2 by lia.
  rewrite Nat.sub_diag. reflexivity.
Qed.

Lemma int_add_one (i : Z) :
  (0 <= i < INT_MAX)%Z -> sm.int_add i 1 = Done (i + 1)%Z.
Proof.
  unfold sm.int_add, INT_MIN, INT_MAX. intros Hi.
  replace (i + 1 <? - 2 ^ 31)%Z with false
    by (symmetry; apply Z.ltb_ge; lia).
  replace (2 ^ 31 - 1 <? i + 1)%Z with false
    by (symmetry; apply Z.ltb_ge; lia).
  reflexivity.
Qed.

Lemma length_snoc (pre : list Z) (x : Z) :
  Z.of_nat (length (pre ++ [x])) = (Z.of_nat (length pre) + 1)%Z.
Proof. rewrite length_app. simpl. lia. Qed.

(** The indexed loop with an [int] counter visits the rest of the vector
    from left to right. *)
Lemma c_style_loop_spec (suf : list Z) :
  forall (pre : list Z) (fuel : nat) (sum : Z),
    (length suf < fuel)%nat ->
    (Z.of_nat (length (pre ++ suf)) <= INT_MAX)%Z ->
    sm.c_style_loop fuel (pre ++ suf) (Z.of_nat (length (pre ++ suf)))
      (Z.of_nat (length pre)) sum
    = sm.range_for_from suf sum.
Proof.
  induction suf as [|x suf IH]; intros pre fuel sum Hfuel Hsize;
    (destruct fuel as [|fuel]; [simpl in Hfuel; lia|]);
    cbn [sm.c_style_loop sm.range_for_from].
  - rewrite app_nil_r, Z.ltb_irrefl. reflexivity.
  - rewrite length_app in *. cbn [length] in *.
    replace (Z.of_nat (length pre)
             <? Z.of_nat (length pre + Datatypes.S (length suf)))%Z
      with true by (symmetry; apply Z.ltb_lt; lia).
    rewrite at_index_app. cbn [obind].
    destruct (sm.int_add sum x) as [sum'|f]; [|reflexivity].
    cbn [obind]. rewrite int_add_one by lia. cbn [obind].
    rewrite <- (length_snoc pre x).
    replace (pre ++ x :: suf) with ((pre ++ [x]) ++ suf)
      by (rewrite <- app_assoc; reflexivity).
    replace (length pre + Datatypes.S (length suf))%nat
      with (length ((pre ++ [x]) ++ suf))
      by (rewrite !length_app; simpl; lia).
    apply IH; [simpl in Hfuel; lia|].
    rewrite !length_app. simpl. lia.
Qed.

(** So does the loop with an [unsigned] counter, as long as the counter
    does not wrap. *)
Lemma c_style_unsigned_loop_spec (suf : list Z) :
  forall (pre : list Z) (fuel : nat) (sum : Z),
    (length suf < fuel)%nat ->
    (Z.of_nat (length (pre ++ suf)) < 2 ^ 32)%Z ->
    sm.c_style_unsigned_loop fuel (pre ++ suf)
      (Z.of_nat (length (pre ++ suf))) (Z.of_nat (length pre)) sum
    = sm.range_for_from suf sum.
Proof.
  induction suf as [|x suf IH]; intros pre fuel sum Hfuel Hsize;
    (destruct fuel as [|fuel]; [simpl in Hfuel; lia|]);
    cbn [sm.c_style_unsigned_loop sm.range_for_from].
  - rewrite app_nil_r, Z.ltb_irrefl. reflexivity.
  - rewrite length_app in *. cbn [length] in *.
    replace (Z.of_nat (length pre)
             <? Z.of_nat (length pre + Datatypes.S (length suf)))%Z
      with true by (symmetry; apply Z.ltb_lt; lia).
    rewrite at_index_app. cbn [obind].
    destruct (sm.int_add sum x) as [sum'|f]; [|reflexivity].
    cbn [obind]. rewrite Z.mod_small by lia.
    rewrite <- (length_snoc pre x).
    replace (pre ++ x :: suf) with ((pre ++ [x]) ++ suf)
      by (rewrite <- app_assoc; reflexivity).
    replace (length pre + Datatypes.S (length suf))%nat
      with (length ((pre ++ [x]) ++ suf))
      by (rewrite !length_app; simpl; lia).
    apply IH; [simpl in Hfuel; lia|].
    rewrite !length_app. simpl. lia.
Qed.

Lemma std_for_each_sum (v : list Z) (sum : Z) :
  sm.std_for_each v (fun i s => sm.int_add s i) sum
  = sm.range_for_from v sum.
Proof.
  revert sum. induction v as [|x v IH]; intros sum; [reflexivity|].
  cbn [sm.std_for_each sm.range_for_from].
  destruct (sm.int_add sum x) as [sum'|f]; [|reflexivity].
  cbn [obind]. apply IH.
Qed.

Lemma std_accumulate_sum (v : list Z) (init : Z) :
  sm.std_accumulate v init = sm.range_for_from v init.
Proof.
  revert init. induction v as [|x v IH]; intros init; [reflexivity|].
  cbn [sm.std_accumulate sm.range_for_from].
  destruct (sm.int_add init x) as [init'|f]; [|reflexivity].
  cbn [obind]. apply IH.
Qed.

Lemma c_style_sum (v : list Z) :
  (Z.of_nat (length v) <= INT_MAX)%Z -> sm.c_style v = sm.range_for_loop v.
Proof.
  intros Hsize. unfold sm.c_style, sm.range_for_loop.
  replace (Z.of_nat (length v) <=? INT_MAX)%Z with true
    by (symmetry; apply Z.leb_le; exact Hsize).
  cbn [assert obind]. rewrite to_int_small by lia.
  exact (c_style_loop_spec v [] (Datatypes.S (length v)) 0%Z
           ltac:(lia) Hsize).
Qed.

Lemma c_style_unsigned_sum (v : list Z) :
  (Z.of_nat (length v) < 2 ^ 32)%Z ->
  sm.c_style_unsigned v = sm.range_for_loop v.
Proof.
  intros Hsize. unfold sm.c_style_unsigned, sm.range_for_loop.
  exact (c_style_unsigned_loop_spec v [] (Datatypes.S (length v)) 0%Z
           ltac:(lia) Hsize).
Qed.

(** What the plain loop computes from a running sum [s] that fits. *)
Lemma range_for_from_spec (v : list Z) :
  forall s : Z,
    (INT_MIN <= s <= INT_MAX)%Z ->
    ((forall k, (k <= length v)%nat ->
                (INT_MIN <= s + list_sum (firstn k v) <= INT_MAX)%Z) /\
     sm.range_for_from v s = Done (s + list_sum v)%Z)
    \/
    ((exists k, (k <= length v)%nat /\
                ~ (INT_MIN <= s + list_sum (firstn k v) <= INT_MAX)%Z) /\
     sm.range_for_from v s = Crash UndefinedBehaviour).
Proof.
  induction v as [|x v IH]; intros s Hs.
  - left. split.
    + intros k Hk. destruct k; simpl; lia.
    + simpl. f_equal. lia.
  - cbn [sm.range_for_from]. unfold sm.int_add.
    destruct ((s + x <? INT_MIN) || (INT_MAX <? s + x))%Z eqn:E.
    + right. split; [|reflexivity].
      exists 1%nat. split; [simpl; lia|].
      simpl. rewrite Z.add_0_r.
      apply orb_true_iff in E.
      destruct E as [E|E]; apply Z.ltb_lt in E; lia.
    + apply orb_false_iff in E. destruct E as [E1 E2].
      apply Z.ltb_ge in E1. apply Z.ltb_ge in E2.
      cbn [obind].
      destruct (IH (s + x)%Z ltac:(lia)) as [[Hfit Hrun]|[[k [Hk Hbad]] Hrun]].
      * left. split.
        -- intros k Hk. destruct k as [|k]; [simpl; lia|].
           cbn [firstn list_sum fold_right].
           specialize (Hfit k ltac:(simpl in Hk; lia)).
           unfold list_sum in Hfit. lia.
        -- rewrite Hrun. f_equal. cbn [list_sum fold_right].
           unfold list_sum. lia.
      * right. split; [|exact Hrun].
        exists (Datatypes.S k). split; [simpl; lia|].
        cbn [firstn list_sum fold_right].
        unfold list_sum in Hbad. lia.
Qed.

Lemma range_for_loop_cases (v : list Z) :
  (partial_sums_fit v /\ sm.range_for_loop v = Done (list_sum v))
  \/ (~ partial_sums_fit v /\
      sm.range_for_loop v = Crash UndefinedBehaviour).
Proof.
  unfold sm.range_for_loop, partial_sums_fit.
  destruct (range_for_from_spec v 0%Z ltac:(unfold INT_MIN, INT_MAX; lia))
    as [[Hfit Hrun]|[[k [Hk Hbad]] Hrun]].
  - left. split; [exact Hfit|exact Hrun].
  - right. split; [|exact Hrun].
    intros Hfit. apply Hbad. exact (Hfit k Hk).
Qed.

(** X25.  On a vector of at most [INT_MAX] elements, the six loops of
    [test_functions] that sum in [int] all do what the range-for loop
    does: they return the same sum, or are undefined together. *)
Theorem integer_sums_agree (sqrt_abs : list Z -> outcome Z) (v : list Z)
  (Hsize : (Z.of_nat (length v) <= INT_MAX)%Z)
  (name : string) (f : list Z -> outcome Z)
  (Hin : In (name, f) (sm.test_functions sqrt_abs))
  (Hname : name <> "accumulate sqrt abs"%string) :
  f v = sm.range_for_loop v.
Proof.
  unfold sm.test_functions in Hin. simpl in Hin.
  destruct Hin as [E|[E|[E|[E|[E|[E|[E|[]]]]]]]];
    injection E; intros; subst.
  - apply c_style_sum. exact Hsize.
  - apply c_style_unsigned_sum. unfold INT_MAX in Hsize. lia.
  - reflexivity.
  - apply std_for_each_sum.
  - apply std_for_each_sum.
  - apply std_accumulate_sum.
  - contradiction Hname. reflexivity.
Qed.

Lemma integer_sums_agree_witness :
  sm.c_style_unsigned [5; 1; 4; 2]%Z = Done 12%Z.
Proof.
  rewrite (integer_sums_agree (fun _ => Done 0%Z) [5; 1; 4; 2]%Z
             ltac:(unfold INT_MAX; simpl; lia)
             "c-style unsigned"%string sm.c_style_unsigned
             ltac:(simpl; tauto) ltac:(discriminate)).
  reflexivity.
Defined.

(** X26.  The range-for loop returns the sum of the vector exactly when
    every partial sum, taken from the left, fits an [int]; otherwise an
    addition overflows and the loop is undefined, even when the sum of
    all the elements fits. *)
Theorem range_for_loop_sum (v : list Z) :
  (sm.range_for_loop v = Done (list_sum v) <-> partial_sums_fit v) /\
  (sm.range_for_loop v = Crash UndefinedBehaviour
   <-> ~ partial_sums_fit v) /\
  (forall r, sm.range_for_loop v = Done r -> r = list_sum v).
Proof.
  destruct (range_for_loop_cases v) as [[Hfit Hrun]|[Hbad Hrun]];
    rewrite Hrun.
  - split; [|split].
    + split; [intros _; exact Hfit|reflexivity].
    + split; [discriminate|]. intros Hn. contradiction.
    + intros r Hr. injection Hr; intros; subst. reflexivity.
  - split; [|split].
    + split; [discriminate|]. intros Hfit. contradiction.
    + split; [intros _; exact Hbad|reflexivity].
    + intros r Hr. discriminate Hr.
Qed.

Lemma range_for_loop_sum_witness :
  list_sum [INT_MAX; 1; -5]%Z = (INT_MAX - 4)%Z /\
  ~ partial_sums_fit [INT_MAX; 1; -5]%Z.
Proof.
  split; [reflexivity|].
  apply (proj1 (proj1 (proj2 (range_for_loop_sum [INT_MAX; 1; -5]%Z)))).
  reflexivity.
Defined.

Lemma c_style_unsigned_loop_never (v : list Z) :
  (2 ^ 32 <= Z.of_nat (length v))%Z ->
  forall (fuel : nat) (i sum s : Z),
    (0 <= i < 2 ^ 32)%Z ->
    sm.c_style_unsigned_loop fuel v (Z.of_nat (length v)) i sum <> Done s.
Proof.
  intros Hbig. induction fuel as [|fuel IH]; intros i sum s Hi;
    cbn [sm.c_style_unsigned_loop]; [discriminate|].
  replace (i <? Z.of_nat (length v))%Z with true
    by (symmetry; apply Z.ltb_lt; lia).
  destruct (sm.at_index v i) as [x|f]; cbn [obind]; [|discriminate].
  destruct (sm.int_add sum x) as [sum'|f]; cbn [obind]; [|discriminate].
  apply IH. apply Z.mod_pos_bound. lia.
Qed.

(** X27.  Where the loops part ways.  "c-style" sums like the range-for
    loop on a vector of at most [INT_MAX] elements and fails its
    assertion on a larger one.  The range-for loop, [for_each],
    [ranges::for_each] and [accumulate] agree on every vector and never
    fail an assertion.  "c-style unsigned" agrees with them below
    [2 ^ 32] elements; from [2 ^ 32] elements on its counter wraps
    before it reaches the size, and the loop returns no sum, however
    long it runs. *)
Theorem sums_beyond_int_max (v : list Z) :
  sm.c_style v
  = (if (Z.of_nat (length v) <=? INT_MAX)%Z then sm.range_for_loop v
     else Crash AssertionFailed) /\
  sm.for_each v = sm.range_for_loop v /\
  sm.ranges_for_each v = sm.range_for_loop v /\
  sm.accumulate v = sm.range_for_loop v /\
  sm.range_for_loop v <> Crash AssertionFailed /\
  (if (Z.of_nat (length v) <? 2 ^ 32)%Z
   then sm.c_style_unsigned v = sm.range_for_loop v
   else forall (fuel : nat) (s : Z),
       sm.c_style_unsigned_loop fuel v (Z.of_nat (length v)) 0 0
       <> Done s).
Proof.
  split; [|split; [|split; [|split; [|split]]]].
  - destruct (Z.of_nat (length v) <=? INT_MAX)%Z eqn:E.
    + apply c_style_sum. apply Z.leb_le. exact E.
    + unfold sm.c_style. rewrite E. reflexivity.
  - apply std_for_each_sum.
  - apply std_for_each_sum.
  - apply std_accumulate_sum.
  - destruct (range_for_loop_cases v) as [[_ Hrun]|[_ Hrun]];
      rewrite Hrun; discriminate.
  - destruct (Z.of_nat (length v) <? 2 ^ 32)%Z eqn:E.
    + apply c_style_unsigned_sum. apply Z.ltb_lt. exact E.
    + apply Z.ltb_ge in E. intros fuel s.
      apply (c_style_unsigned_loop_never v E fuel 0%Z 0%Z s). lia.
Qed.

(** ** The measurements of [sm.cpp] *)

Section RunTests.

Variable P : platform.
Hypothesis Hrange : uniform_in_range P.
Context {T : Type} {IS : IntegerSequence T}.

Lemma run_fill_loop (todo : nat) :
  forall (v : list Z) (sh : shared P) (me : worker T),
  exists w sh' es,
    run (sm.fill_loop todo v) sh me = (Done (v ++ w), sh', me, es) /\
    length w = todo /\
    Forall (fun x => (INT_MIN <= x <= INT_MAX)%Z) w /\
    draws_of es = w.
Proof.
  induction todo as [|todo IH]; intros v sh me.
  - exists [], sh, []. rewrite app_nil_r. simpl.
    repeat split. constructor.
  - cbn [sm.fill_loop]. unfold act. cbn [bind run perform].
    replace (INT_MAX <? INT_MIN)%Z with false by reflexivity.
    pose proof (Hrange INT_MIN INT_MAX (gen sh)
                  ltac:(unfold INT_MIN, INT_MAX; lia)) as Hr.
    destruct (engine_uniform P INT_MIN INT_MAX (gen sh)) as [r g].
    cbn [fst] in Hr.
    match goal with
    | |- context [run (sm.fill_loop todo (v ++ [r])) ?h me] =>
        destruct (IH (v ++ [r]) h me) as (w & sh' & es & Hrun & Hl & Hf & Hd)
    end.
    rewrite Hrun. exists (r :: w), sh', (EvDraw INT_MIN INT_MAX r :: es).
    rewrite <- app_assoc. cbn [app draws_of length].
    repeat split.
    + rewrite Hl. reflexivity.
    + constructor; assumption.
    + rewrite Hd. reflexivity.
Qed.

Lemma run_run_tests_vector (size : N) (sh : shared P) (me : worker T) :
  exists w sh' es,
    run (sm.run_tests_vector size) sh me
    = (Done (Z.of_N size :: w), sh', me, es) /\
    length w = N.to_nat size /\
    Forall (fun x => (INT_MIN <= x <= INT_MAX)%Z) w /\
    draws_of es = w.
Proof.
  unfold sm.run_tests_vector, act. cbn [bind run perform].
  match goal with
  | |- context [run (sm.fill_loop ?n ?v) ?h me] =>
      destruct (run_fill_loop n v h me) as (w & sh' & es & Hrun & Hl & Hf & Hd)
  end.
  rewrite Hrun. exists w, sh'. eexists. cbn [app draws_of].
  repeat split; assumption.
Qed.

Lemma run_time_test (f : list Z -> outcome Z) (v : list Z)
  (sh : shared P) (me : worker T) :
  exists sh' es,
    draws_of es = [] /\
    match f v with
    | Done x =>
        exists ms,
          run (sm.time_test f v) sh me = (Done (ms, x), sh', me, es)
    | Crash e => run (sm.time_test f v) sh me = (Crash e, sh', me, es)
    end.
Proof.
  unfold sm.time_test, act. cbn [bind run perform].
  destruct (f v) as [x|e]; cbn [lift bind run perform];
    do 2 eexists; (split; [|try eexists; reflexivity]); reflexivity.
Qed.

Lemma run_runs_loop_done (f : list Z -> outcome Z) (v : list Z) (x : Z)
  (Hf : f v = Done x) (todo : nat) :
  forall (total_time : Z) (sh : shared P) (me : worker T),
  exists total' sh' es,
    run (sm.runs_loop todo f v total_time) sh me
    = (Done total', sh', me, es) /\
    draws_of es = [].
Proof.
  induction todo as [|todo IH]; intros total_time sh me.
  - exists total_time, sh, []. split; reflexivity.
  - cbn [sm.runs_loop]. rewrite (run_bind P T IS).
    destruct (run_time_test f v sh me) as (sh1 & es1 & Hd1 & Hrun1).
    rewrite Hf in Hrun1. destruct Hrun1 as [ms Hrun1]. rewrite Hrun1.
    cbn [fst].
    destruct (IH (total_time + ms)%Z sh1 me)
      as (total' & sh' & es & Hrun & Hd).
    rewrite Hrun. exists total', sh', (es1 ++ es).
    split; [reflexivity|].
    clear - Hd1 Hd. revert Hd1.
    induction es1 as [|[] es1 IHes]; cbn [app draws_of]; intros Hd1;
      try (apply IHes; exact Hd1); [exact Hd|discriminate Hd1].
Qed.

Lemma run_runs_loop_crash (f : list Z -> outcome Z) (v : list Z)
  (e : failure) (Hf : f v = Crash e) (todo : nat)
  (total_time : Z) (sh : shared P) (me : worker T) :
  exists sh' es,
    run (sm.runs_loop (Datatypes.S todo) f v total_time) sh me
    = (Crash e, sh', me, es) /\
    draws_of es = [].
Proof.
  cbn [sm.runs_loop]. rewrite (run_bind P T IS).
  destruct (run_time_test f v sh me) as (sh1 & es1 & Hd1 & Hrun1).
  rewrite Hf in Hrun1. rewrite Hrun1.
  exists sh1, es1. split; [reflexivity|exact Hd1].
Qed.

Lemma draws_of_app (es1 es2 : list event) :
  draws_of (es1 ++ es2) = draws_of es1 ++ draws_of es2.
Proof.
  induction es1 as [|[] es1 IH]; cbn [app draws_of];
    try exact IH; [reflexivity|].
  rewrite IH. reflexivity.
Qed.

Lemma run_functions_loop_done
  (fs : list (string * (list Z -> outcome Z))) (v : list Z) :
  Forall (fun nf => exists x, snd nf v = Done x) fs ->
  forall (sh : shared P) (me : worker T),
  exists rows sh' es,
    run (sm.functions_loop fs v) sh me = (Done rows, sh', me, es) /\
    map fst rows = map fst fs /\
    draws_of es = [].
Proof.
  induction 1 as [|[name f] fs [x Hx] _ IH]; intros sh me.
  - exists [], sh, []. repeat split.
  - cbn [sm.functions_loop snd] in *. rewrite (run_bind P T IS).
    destruct (run_runs_loop_done f v x Hx (N.to_nat sm.NUM_RUNS) 0%Z sh me)
      as (total & sh1 & es1 & Hrun1 & Hd1).
    rewrite Hrun1. rewrite (run_bind P T IS).
    destruct (IH sh1 me) as (rows & sh2 & es2 & Hrun2 & Hrows & Hd2).
    rewrite Hrun2. cbn [run].
    do 3 eexists. split; [reflexivity|].
    cbn [map fst]. rewrite Hrows. split; [reflexivity|].
    rewrite app_nil_r, draws_of_app, Hd1, Hd2. reflexivity.
Qed.

Lemma run_functions_loop_crash
  (pre : list (string * (list Z -> outcome Z))) (name : string)
  (f : list Z -> outcome Z)
  (post : list (string * (list Z -> outcome Z))) (v : list Z)
  (e : failure) :
  Forall (fun nf => exists x, snd nf v = Done x) pre ->
  f v = Crash e ->
  forall (sh : shared P) (me : worker T),
  exists sh' es,
    run (sm.functions_loop (pre ++ (name, f) :: post) v) sh me
    = (Crash e, sh', me, es) /\
    draws_of es = [].
Proof.
  intros Hpre Hf.
  induction Hpre as [|[name' f'] pre [x Hx] _ IH]; intros sh me.
  - cbn [app sm.functions_loop]. rewrite (run_bind P T IS).
    destruct (run_runs_loop_crash f v e Hf 9 0%Z sh me)
      as (sh1 & es1 & Hrun1 & Hd1).
    change (N.to_nat sm.NUM_RUNS) with 10%nat.
    rewrite Hrun1. exists sh1, es1. split; [reflexivity|exact Hd1].
  - cbn [app sm.functions_loop snd] in *. rewrite (run_bind P T IS).
    destruct (run_runs_loop_done f' v x Hx (N.to_nat sm.NUM_RUNS) 0%Z sh me)
      as (total & sh1 & es1 & Hrun1 & Hd1).
    rewrite Hrun1. rewrite (run_bind P T IS).
    destruct (IH sh1 me) as (sh2 & es2 & Hrun2 & Hd2).
    rewrite Hrun2. do 2 eexists. split; [reflexivity|].
    rewrite draws_of_app, Hd1, Hd2. reflexivity.
Qed.

Lemma run_tests_sized_spec (size : N) (sqrt_abs : list Z -> outcome Z)
  (sh : shared P) (me : worker T) :
  (Z.of_N size < INT_MAX)%Z ->
  let '(r, _, me', es) := run (sm.run_tests_sized size sqrt_abs) sh me in
  let v := Z.of_N size :: draws_of es in
  me' = me /\
  N.of_nat (length v) = (size + 1)%N /\
  Forall (fun x => (INT_MIN <= x <= INT_MAX)%Z) (draws_of es) /\
  ((~ partial_sums_fit v /\ r = Crash UndefinedBehaviour) \/
   (partial_sums_fit v /\
    match sqrt_abs v with
    | Done _ =>
        exists rows,
          r = Done rows /\
          map fst rows = map fst (sm.test_functions sqrt_abs)
    | Crash e => r = Crash e
    end)).
Proof.
  intros Hsize. unfold sm.run_tests_sized. rewrite (run_bind P T IS).
  destruct (run_run_tests_vector size sh me)
    as (w & sh1 & es1 & Hrun1 & Hl & Hf & Hd).
  rewrite Hrun1. set (v := Z.of_N size :: w).
  assert (Hlen : (Z.of_nat (length v) <= INT_MAX)%Z)
    by (unfold v; cbn [length]; lia).
  destruct (range_for_loop_cases v) as [[Hfit Hsum]|[Hbad Hsum]].
  - destruct (sqrt_abs v) as [y|e] eqn:Esq.
    + destruct (run_functions_loop_done (sm.test_functions sqrt_abs) v)
        with (sh := sh1) (me := me)
        as (rows & sh2 & es2 & Hrun2 & Hrows & Hd2).
      { unfold sm.test_functions.
        repeat (constructor;
                [cbn [snd];
                 first [ exists y; exact Esq
                       | exists (list_sum v);
                         rewrite <- Hsum;
                         first [ apply c_style_sum; exact Hlen
                               | apply c_style_unsigned_sum;
                                 unfold INT_MAX in Hlen; lia
                               | reflexivity
                               | apply std_for_each_sum
                               | apply std_accumulate_sum ] ]|]).
        constructor. }
      rewrite Hrun2. rewrite draws_of_app, Hd, Hd2, app_nil_r.
      fold v. split; [reflexivity|].
      split; [unfold v; cbn [length]; lia|].
      split; [exact Hf|]. right. split; [exact Hfit|].
      rewrite Esq. exists rows. split; [reflexivity|exact Hrows].
    + destruct (run_functions_loop_crash
                  [("c-style"%string, sm.c_style);
                   ("c-style unsigned"%string, sm.c_style_unsigned);
                   ("range for loop"%string, sm.range_for_loop);
                   ("for_each"%string, sm.for_each);
                   ("ranges::for_each"%string, sm.ranges_for_each);
                   ("accumulate"%string, sm.accumulate)]
                  "accumulate sqrt abs"%string sqrt_abs [] v e)
        with (sh := sh1) (me := me)
        as (sh2 & es2 & Hrun2 & Hd2).
      { repeat (constructor;
                [cbn [snd]; exists (list_sum v); rewrite <- Hsum;
                 first [ apply c_style_sum; exact Hlen
                       | apply c_style_unsigned_sum;
                         unfold INT_MAX in Hlen; lia
                       | reflexivity
                       | apply std_for_each_sum
                       | apply std_accumulate_sum ]|]).
        constructor. }
      { exact Esq. }
      cbn [app] in Hrun2. unfold sm.test_functions. rewrite Hrun2.
      rewrite draws_of_app, Hd, Hd2, app_nil_r.
      fold v. split; [reflexivity|].
      split; [unfold v; cbn [length]; lia|].
      split; [exact Hf|]. right. split; [exact Hfit|].
      rewrite Esq. reflexivity.
  - destruct (run_functions_loop_crash [] "c-style"%string sm.c_style
                [("c-style unsigned"%string, sm.c_style_unsigned);
                 ("range for loop"%string, sm.range_for_loop);
                 ("for_each"%string, sm.for_each);
                 ("ranges::for_each"%string, sm.ranges_for_each);
                 ("accumulate"%string, sm.accumulate);
                 ("accumulate sqrt abs"%string, sqrt_abs)]
                v UndefinedBehaviour)
      with (sh := sh1) (me := me)
      as (sh2 & es2 & Hrun2 & Hd2).
    { constructor. }
    { rewrite <- Hsum. apply c_style_sum. exact Hlen. }
    cbn [app] in Hrun2. unfold sm.test_functions. rewrite Hrun2.
    rewrite draws_of_app, Hd, Hd2, app_nil_r.
    fold v. split; [reflexivity|].
    split; [unfold v; cbn [length]; lia|].
    split; [exact Hf|]. left. split; [exact Hbad|reflexivity].
Qed.

End RunTests.

(** X28.  The vector that [run_tests] hands to the test functions, for a
    [VECTOR_SIZE] of [size]: [vector<int> v{size}] holds the one element
    [size], and the loop appends [size] random numbers.  The vector has
    [size + 1] elements, and the first is the size itself, not a random
    number. *)
Theorem run_tests_vector_shape (P : platform)
  (Hrange : uniform_in_range P) (size : N)
  (sh : shared P) (me : worker VectorAdaptor.t) :
  exists w sh' es,
    run (sm.run_tests_vector size) sh me
    = (Done (Z.of_N size :: w), sh', me, es) /\
    N.of_nat (length w) = size /\
    Forall (fun x => (INT_MIN <= x <= INT_MAX)%Z) w /\
    draws_of es = w.
Proof.
  destruct (run_run_tests_vector P Hrange size sh me)
    as (w & sh' & es & Hrun & Hl & Hf & Hd).
  exists w, sh', es. repeat split; try assumption. lia.
Qed.

Lemma run_tests_vector_shape_witness :
  exists w,
    fst (fst (fst (run (sm.run_tests_vector 3) small_start
                       (fresh VectorAdaptor.default))))
    = Done (3%Z :: w) /\ length w = 3%nat.
Proof.
  destruct (run_tests_vector_shape small_platform small_platform_in_range
              3 small_start (fresh VectorAdaptor.default))
    as (w & sh' & es & Hrun & Hl & _).
  exists w. rewrite Hrun. split; [reflexivity|lia].
Defined.

(** X29.  [run_tests], for a [VECTOR_SIZE] of [size] below [INT_MAX]:
    the vector is the size followed by the numbers drawn.  If some
    partial sum of that vector does not fit an [int], the run is
    undefined, at the first call of the first test function.  If they
    all fit, the six integer loops return, and the run writes one row
    per entry of [test_functions], in their order, unless the
    floating-point entry itself fails. *)
Theorem run_tests_needs_fitting_sums (P : platform)
  (Hrange : uniform_in_range P) (size : N)
  (sqrt_abs : list Z -> outcome Z)
  (sh : shared P) (me : worker VectorAdaptor.t)
  (Hsize : (Z.of_N size < INT_MAX)%Z) :
  let '(r, _, me', es) := run (sm.run_tests_sized size sqrt_abs) sh me in
  let v := Z.of_N size :: draws_of es in
  me' = me /\
  N.of_nat (length v) = (size + 1)%N /\
  Forall (fun x => (INT_MIN <= x <= INT_MAX)%Z) (draws_of es) /\
  ((~ partial_sums_fit v /\ r = Crash UndefinedBehaviour) \/
   (partial_sums_fit v /\
    match sqrt_abs v with
    | Done _ =>
        exists rows,
          r = Done rows /\
          map fst rows = map fst (sm.test_functions sqrt_abs)
    | Crash e => r = Crash e
    end)).
Proof.
  exact (run_tests_sized_spec P Hrange size sqrt_abs sh me Hsize).
Qed.

Lemma run_tests_needs_fitting_sums_witness :
  fst (fst (fst (run (sm.run_tests_sized 3 (fun _ => Done 7%Z)) small_start
                     (fresh VectorAdaptor.default))))
  = Crash UndefinedBehaviour /\
  ~ partial_sums_fit [3; -315363889; -740005403; -1141649013]%Z.
Proof.
  pose proof (run_tests_needs_fitting_sums small_platform
                small_platform_in_range 3 (fun _ => Done 7%Z) small_start
                (fresh VectorAdaptor.default)
                ltac:(unfold INT_MAX; lia)) as Hspec.
  assert (Hres : fst (fst (fst (run (sm.run_tests_sized 3
                                       (fun _ => Done 7%Z)) small_start
                                    (fresh VectorAdaptor.default))))
                 = Crash UndefinedBehaviour) by (vm_compute; reflexivity).
  assert (Hd : draws_of (snd (run (sm.run_tests_sized 3
                                     (fun _ => Done 7%Z)) small_start
                                  (fresh VectorAdaptor.default)))
               = [-315363889; -740005403; -1141649013]%Z)
    by (vm_compute; reflexivity).
  revert Hspec Hres Hd;
  destruct (run (sm.run_tests_sized 3 (fun _ => Done 7%Z)) small_start
                (fresh VectorAdaptor.default)) as [[[r sh'] me'] es];
  cbn [fst snd]; intros Hspec Hres Hd.
  cbn zeta in Hspec. rewrite Hd, Hres in Hspec.
  split; [exact Hres|].
  destruct Hspec as (_ & _ & _ & [[Hbad _]|[_ [rows [Hr _]]]]).
  - exact Hbad.
  - discriminate Hr.
Defined.

(** The program itself runs [run_tests] at [VECTOR_SIZE], which is below
    [INT_MAX]: its vector has 1000000001 elements, and 1000000000 is the
    first term of every partial sum. *)
Corollary run_tests_at_vector_size (P : platform)
  (Hrange : uniform_in_range P) (sqrt_abs : list Z -> outcome Z)
  (sh : shared P) (me : worker VectorAdaptor.t) :
  let '(r, _, _, es) := run (sm.run_tests sqrt_abs) sh me in
  let v := 1000000000%Z :: draws_of es in
  N.of_nat (length v) = 1000000001%N /\
  ((~ partial_sums_fit v /\ r = Crash UndefinedBehaviour) \/
   (partial_sums_fit v /\
    match sqrt_abs v with
    | Done _ =>
        exists rows,
          r = Done rows /\
          map fst rows = map fst (sm.test_functions sqrt_abs)
    | Crash e => r = Crash e
    end)).
Proof.
  pose proof (run_tests_sized_spec P Hrange sm.VECTOR_SIZE sqrt_abs sh me
                ltac:(reflexivity)) as Hspec.
  fold (sm.run_tests sqrt_abs) in Hspec.
  destruct (run (sm.run_tests sqrt_abs) sh me) as [[[r sh'] me'] es].
  destruct Hspec as (_ & Hlen & _ & Hcases).
  split; [exact Hlen|exact Hcases].
Qed.
